(** * bp_analyzer: code recovery core (xml_common.py, utils.py)

    A shallow embedding of the functions of [bp_analyzer/xml_common.py] and
    [bp_analyzer/utils.py] that recover, classify, format and scan the code
    fragments of exported process definitions, and the properties the
    design document states about them.

    Python [str] values are modelled as lists of characters whose code
    points lie in 0..255; on that range [str.isspace], [str.lower] and the
    classes of the [re] module are the tables below. *)

From Stdlib Require Import Ascii String List ZArith Lia Bool Arith PeanoNat.
From Stdlib Require Import Sorting.Sorted.
Import ListNotations.
Local Open Scope list_scope.

(** ** Characters and Python string primitives *)

Definition str := list ascii.

Definition py (s : string) : str := list_ascii_of_string s.
Arguments py s%_string.

Definition NL : ascii := "010"%char.
Definition CR : ascii := "013"%char.
Definition TAB : ascii := "009"%char.
Definition DQ : ascii := "034"%char.
Definition SQ : ascii := "039"%char.
Definition BSL : ascii := "092"%char.

Definition code (c : ascii) : nat := nat_of_ascii c.

(** [str.isspace] on one character. *)
Definition isspace (c : ascii) : bool :=
  let n := code c in
  ((9 <=? n) && (n <=? 13)) || ((28 <=? n) && (n <=? 32))
  || (n =? 133) || (n =? 160).

(** [str.lower] on one character. *)
Definition lower_char (c : ascii) : ascii :=
  let n := code c in
  if ((65 <=? n) && (n <=? 90))
     || ((192 <=? n) && (n <=? 222) && negb (n =? 215))
  then ascii_of_nat (n + 32) else c.

(** The class [\w] of [re] on [str] patterns. *)
Definition isword (c : ascii) : bool :=
  let n := code c in
  ((48 <=? n) && (n <=? 57)) || ((65 <=? n) && (n <=? 90)) || (n =? 95)
  || ((97 <=? n) && (n <=? 122))
  || (n =? 170) || (n =? 178) || (n =? 179) || (n =? 181) || (n =? 185)
  || (n =? 186) || (n =? 188) || (n =? 189) || (n =? 190)
  || ((192 <=? n) && (n <=? 214)) || ((216 <=? n) && (n <=? 246))
  || (248 <=? n).

Definition lower (s : str) : str := map lower_char s.

(** The truth value of a string or a list: non-empty. *)
Definition nonempty {A : Type} (s : list A) : bool :=
  match s with [] => false | _ :: _ => true end.

Fixpoint str_eqb (a b : str) : bool :=
  match a, b with
  | [], [] => true
  | x :: a', y :: b' => Ascii.eqb x y && str_eqb a' b'
  | _, _ => false
  end.

(** [s.startswith(p)] *)
Fixpoint startswith (p s : str) : bool :=
  match p, s with
  | [], _ => true
  | x :: p', y :: s' => Ascii.eqb x y && startswith p' s'
  | _ :: _, [] => false
  end.

(** [s.endswith(p)] *)
Definition endswith (p s : str) : bool := startswith (rev p) (rev s).

(** [p in s] *)
Fixpoint contains (p s : str) : bool :=
  startswith p s || match s with [] => false | _ :: s' => contains p s' end.

(** [s.count(c)] for a one-character [c]. *)
Fixpoint count_char (c : ascii) (s : str) : nat :=
  match s with
  | [] => 0
  | x :: s' => (if Ascii.eqb x c then 1 else 0) + count_char c s'
  end.

(** [s.lstrip()], [s.rstrip()], [s.strip()] *)
Fixpoint lstrip (s : str) : str :=
  match s with
  | [] => []
  | c :: s' => if isspace c then lstrip s' else s
  end.

Fixpoint rstrip (s : str) : str :=
  match s with
  | [] => []
  | c :: s' =>
      match rstrip s' with
      | [] => if isspace c then [] else [c]
      | r => c :: r
      end
  end.

Definition strip (s : str) : str := rstrip (lstrip s).

(** [s.split(sep)] for a one-character separator: never the empty list. *)
Fixpoint split (sep : ascii) (s : str) : list str :=
  match s with
  | [] => [[]]
  | c :: s' =>
      if Ascii.eqb c sep then [] :: split sep s'
      else match split sep s' with
           | l :: ls => (c :: l) :: ls
           | [] => [[c]]
           end
  end.

(** [sep.join(ls)] *)
Fixpoint join (sep : str) (ls : list str) : str :=
  match ls with
  | [] => []
  | l :: ls' =>
      match ls' with
      | [] => l
      | _ :: _ => l ++ sep ++ join sep ls'
      end
  end.

(** [s.replace(old, new)] for a non-empty [old]: a left-to-right scan for
    non-overlapping occurrences; [skip] counts the characters of the
    occurrence just replaced that are still to be passed over. *)
Fixpoint replace_from (old new s : str) (skip : nat) : str :=
  match s with
  | [] => []
  | c :: s' =>
      match skip with
      | S k => replace_from old new s' k
      | O =>
          if startswith old s
          then new ++ replace_from old new s' (length old - 1)
          else c :: replace_from old new s' 0
      end
  end.

Definition replace (old new s : str) : str := replace_from old new s 0.

(** [s * n] for an [int] n: the empty string when [n <= 0]. *)
Fixpoint repeat_str (s : str) (n : nat) : str :=
  match n with
  | O => []
  | S k => s ++ repeat_str s k
  end.

Definition str_mul (s : str) (n : Z) : str := repeat_str s (Z.to_nat n).

(** ** utils.py *)

(** [normalize_code]: [None] and the empty string both give the empty
    string. *)
Definition normalize_code (s : str) : str :=
  match s with
  | [] => []
  | _ :: _ =>
      let s1 := replace [CR] [NL] (replace [CR; NL] [NL] s) in
      strip (join [NL] (map rstrip (split NL s1)))
  end.

(** ** A backtracking matcher for the patterns of the [re] calls

    Every quantifier in the patterns of [xml_common.py] applies to a single
    character or class, so repetition is a constructor over a character
    predicate.  A match state is the text before the position (reversed),
    the text after it, and the groups captured so far. *)

Inductive regex : Type :=
| REps
| RChar (p : ascii -> bool)
| RRep (p : ascii -> bool) (lo : nat) (hi : option nat) (greedy : bool)
| RSeq (r1 r2 : regex)
| RAlt (r1 r2 : regex)
| RBol
| RStart
| REnd
| RWordB
| RGroup (n : nat) (r : regex).

Record mstate : Type := MState {
  before : str;
  after : str;
  groups : list (nat * str)
}.

Definition under (hi : option nat) (n : nat) : bool :=
  match hi with
  | None => true
  | Some h => n <? h
  end.

(** [p{lo,hi}], greedy or lazy, having taken [n] characters so far. *)
Fixpoint rep (p : ascii -> bool) (lo : nat) (hi : option nat) (greedy : bool)
    (k : mstate -> option mstate) (g : list (nat * str))
    (n : nat) (bef aft : str) {struct aft} : option mstate :=
  if greedy then
    match
      match aft with
      | c :: aft' =>
          if p c && under hi n
          then rep p lo hi greedy k g (S n) (c :: bef) aft'
          else None
      | [] => None
      end
    with
    | Some st => Some st
    | None => if lo <=? n then k (MState bef aft g) else None
    end
  else
    match (if lo <=? n then k (MState bef aft g) else None) with
    | Some st => Some st
    | None =>
        match aft with
        | c :: aft' =>
            if p c && under hi n
            then rep p lo hi greedy k g (S n) (c :: bef) aft'
            else None
        | [] => None
        end
    end.

(** [^] under [re.MULTILINE]. *)
Definition at_bol (st : mstate) : bool :=
  match before st with
  | [] => true
  | c :: _ => Ascii.eqb c NL
  end.

(** [$] without [re.MULTILINE]: at the end, or before a final newline. *)
Definition at_end (st : mstate) : bool :=
  match after st with
  | [] => true
  | [c] => Ascii.eqb c NL
  | _ => false
  end.

(** [\b] *)
Definition at_wordb (st : mstate) : bool :=
  xorb (match before st with c :: _ => isword c | [] => false end)
       (match after st with c :: _ => isword c | [] => false end).

(** The text a group captured: what was consumed between two states. *)
Definition consumed (st st' : mstate) : str :=
  rev (firstn (length (before st') - length (before st)) (before st')).

Fixpoint rmatch (r : regex) (k : mstate -> option mstate) (st : mstate)
    : option mstate :=
  match r with
  | REps => k st
  | RChar p =>
      match after st with
      | c :: aft' =>
          if p c then k (MState (c :: before st) aft' (groups st)) else None
      | [] => None
      end
  | RRep p lo hi greedy =>
      rep p lo hi greedy k (groups st) 0 (before st) (after st)
  | RSeq r1 r2 => rmatch r1 (rmatch r2 k) st
  | RAlt r1 r2 =>
      match rmatch r1 k st with
      | Some st' => Some st'
      | None => rmatch r2 k st
      end
  | RBol => if at_bol st then k st else None
  | RStart => if nonempty (before st) then None else k st
  | REnd => if at_end st then k st else None
  | RWordB => if at_wordb st then k st else None
  | RGroup n r' =>
      rmatch r'
        (fun st' =>
           k (MState (before st') (after st')
                (groups st' ++ [(n, consumed st st')])))
        st
  end.

(** A match attempt at one position. *)
Definition match_here (r : regex) (bef aft : str) : option mstate :=
  rmatch r Some (MState bef aft []).

(** [re.match(r, s)] *)
Definition re_match (r : regex) (s : str) : option mstate :=
  match_here r [] s.

(** [m.group(n)]: the last capture recorded for group [n]. *)
Fixpoint group_of (n : nat) (g : list (nat * str)) : str :=
  match g with
  | [] => []
  | (m, s) :: g' =>
      if existsb (fun x => fst x =? n) g' then group_of n g'
      else if m =? n then s else []
  end.

Definition group (st : mstate) (n : nat) : str := group_of n (groups st).

(** [re.search(r, s)]: the leftmost position with a match. *)
Fixpoint search_from (r : regex) (bef aft : str) : option mstate :=
  match match_here r bef aft with
  | Some st => Some st
  | None =>
      match aft with
      | [] => None
      | c :: aft' => search_from r (c :: bef) aft'
      end
  end.

Definition re_search (r : regex) (s : str) : bool :=
  match search_from r [] s with
  | Some _ => true
  | None => false
  end.

(** [re.sub(r, repl, s)] and [re.findall(r, s)] for patterns that consume
    at least one character whenever they match, as those of this file do:
    [skip] counts the characters of the last match still to be passed. *)
Fixpoint sub_from (r : regex) (repl : str) (bef aft : str) (skip : nat)
    : str :=
  match aft with
  | [] => []
  | c :: aft' =>
      match skip with
      | S j => sub_from r repl (c :: bef) aft' j
      | O =>
          match match_here r bef aft with
          | Some st =>
              match length aft - length (after st) with
              | S j => repl ++ sub_from r repl (c :: bef) aft' j
              | O => c :: sub_from r repl (c :: bef) aft' 0
              end
          | None => c :: sub_from r repl (c :: bef) aft' 0
          end
      end
  end.

Definition re_sub (r : regex) (repl s : str) : str := sub_from r repl [] s 0.

Fixpoint findall_from (r : regex) (bef aft : str) (skip : nat) : list str :=
  match aft with
  | [] => []
  | c :: aft' =>
      match skip with
      | S j => findall_from r (c :: bef) aft' j
      | O =>
          match match_here r bef aft with
          | Some st =>
              match length aft - length (after st) with
              | S j =>
                  firstn (S j) aft :: findall_from r (c :: bef) aft' j
              | O => findall_from r (c :: bef) aft' 0
              end
          | None => findall_from r (c :: bef) aft' 0
          end
      end
  end.

Definition re_findall (r : regex) (s : str) : list str :=
  findall_from r [] s 0.

(** Pattern building blocks. *)
Definition is_char (c : ascii) : ascii -> bool := fun x => Ascii.eqb x c.

(** A letter of a pattern compiled with [re.IGNORECASE]. *)
Definition is_char_ci (c : ascii) : ascii -> bool :=
  fun x => Ascii.eqb (lower_char x) (lower_char c).

(** [.] without [re.DOTALL] *)
Definition is_dot : ascii -> bool := fun x => negb (Ascii.eqb x NL).

Fixpoint RLit (s : str) : regex :=
  match s with
  | [] => REps
  | [c] => RChar (is_char c)
  | c :: s' => RSeq (RChar (is_char c)) (RLit s')
  end.

Fixpoint RLitCI (s : str) : regex :=
  match s with
  | [] => REps
  | [c] => RChar (is_char_ci c)
  | c :: s' => RSeq (RChar (is_char_ci c)) (RLitCI s')
  end.

Fixpoint RSeqs (rs : list regex) : regex :=
  match rs with
  | [] => REps
  | [r] => r
  | r :: rs' => RSeq r (RSeqs rs')
  end.

Fixpoint RAlts (rs : list regex) : regex :=
  match rs with
  | [] => REps
  | [r] => r
  | r :: rs' => RAlt r (RAlts rs')
  end.

Definition RStar (p : ascii -> bool) : regex := RRep p 0 None true.
Definition RPlus (p : ascii -> bool) : regex := RRep p 1 None true.
Definition RStarLazy (p : ascii -> bool) : regex := RRep p 0 None false.
Definition ROpt (p : ascii -> bool) : regex := RRep p 0 (Some 1) true.

(** ** xml_common.py: language *)

Definition str_in (s : str) (l : list str) : bool := existsb (str_eqb s) l.

(** [normalize_language]: with [language or ...] an empty hint counts as
    an absent one. *)
Definition normalize_language (language : str) : str :=
  let l := lower (strip language) in
  if str_in l [py "vb"; py "vb.net"; py "visualbasic"; py "visual basic";
               py "visual_basic"]
  then py "VB"
  else if str_in l [py "c#"; py "csharp"; py "cs"; py "c sharp"]
  then py "C#"
  else if nonempty language then language else py "Unknown".

(** The keywords of the first VB pattern. *)
Definition vb_signal_keywords : list str :=
  [py "dim"; py "set"; py "byval"; py "byref"; py "end if"; py "end sub";
   py "end function"; py "select case"; py "end select"].

(** [^\s*(K)\b] with [re.MULTILINE], where K is the alternation of the
    keywords above, in that order. *)
Definition vb_signal_keyword : regex :=
  RSeqs [RBol; RStar isspace; RGroup 1 (RAlts (map RLit vb_signal_keywords));
         RWordB].

(** [^\s*if\s+.*\bthen\b] with [re.MULTILINE] *)
Definition vb_signal_if_then : regex :=
  RSeqs [RBol; RStar isspace; RLit (py "if"); RPlus isspace; RStar is_dot;
         RWordB; RLit (py "then"); RWordB].

(** [^\s*(using\s+\w+|public|private|protected|internal)\b] with
    [re.MULTILINE] *)
Definition cs_signal_keyword : regex :=
  RSeqs [RBol; RStar isspace;
         RGroup 1 (RAlts
           [RSeqs [RLit (py "using"); RPlus isspace; RPlus isword];
            RLit (py "public"); RLit (py "private"); RLit (py "protected");
            RLit (py "internal")]);
         RWordB].

Definition infer_language_from_code (language code : str) : str :=
  let lang := strip language in
  if nonempty lang && negb (str_eqb (lower lang) (py "unknown")) then lang
  else
    let c := code in
    let cl := lower c in
    if re_search vb_signal_keyword cl then py "VB"
    else if re_search vb_signal_if_then cl then py "VB"
    else if re_search cs_signal_keyword cl then py "C#"
    else if contains (py "{") c && contains (py "}") c && contains (py ";") c
    then py "C#"
    else py "Unknown".

(** ** xml_common.py: pretty printing *)

(** The loop of [normalize_whitespace] carries [blank_run] and [out]. *)
Definition nw_step (st : nat * list str) (ln : str) : nat * list str :=
  let '(blank_run, out) := st in
  if str_eqb (strip ln) [] then
    let blank_run := blank_run + 1 in
    if blank_run <=? 1 then (blank_run, out ++ [[]]) else (blank_run, out)
  else (0, out ++ [rstrip ln]).

Definition normalize_whitespace (code : str) : str :=
  let lines := split NL (replace [TAB] (py "    ") code) in
  let '(_, out) := fold_left nw_step lines (0, []) in
  strip (join [NL] out).

(** [\)\s*else\s*\{], [\}\s*else\s*\{], [\}\s*catch\s*\(] and
    [\}\s*finally\s*\{], all with [re.IGNORECASE] *)
Definition cs_paren_else : regex :=
  RSeqs [RChar (is_char ")"); RStar isspace; RLitCI (py "else");
         RStar isspace; RChar (is_char "{")].
Definition cs_brace_else : regex :=
  RSeqs [RChar (is_char "}"); RStar isspace; RLitCI (py "else");
         RStar isspace; RChar (is_char "{")].
Definition cs_brace_catch : regex :=
  RSeqs [RChar (is_char "}"); RStar isspace; RLitCI (py "catch");
         RStar isspace; RChar (is_char "(")].
Definition cs_brace_finally : regex :=
  RSeqs [RChar (is_char "}"); RStar isspace; RLitCI (py "finally");
         RStar isspace; RChar (is_char "{")].

(** [\n{3,}] *)
Definition nl3 : regex := RRep (is_char NL) 3 None true.

(** The statement loop of [split_csharp_one_liners] carries [in_for] and
    [out]. *)
Definition cs_emit_part (out : list str) (p : str) : list str :=
  if nonempty (strip p) then out ++ [strip p ++ py ";"] else out.

Definition cs_split_step (st : bool * list str) (line : str)
    : bool * list str :=
  let '(in_for, out) := st in
  let t := strip line in
  let in_for :=
    if startswith (py "for(") (lower t) || startswith (py "for (") (lower t)
    then true else in_for in
  let in_for := if in_for && contains (py ")") t then false else in_for in
  if negb in_for && contains (py ";") line then
    let parts := split ";" line in
    let out := fold_left cs_emit_part (removelast parts) out in
    if nonempty (strip (last parts []))
    then (in_for, out ++ [strip (last parts [])])
    else (in_for, out)
  else (in_for, out ++ [line]).

Definition split_csharp_one_liners (code : str) : str :=
  match code with
  | [] => []
  | _ :: _ =>
      let s := replace [CR] [NL] (replace [CR; NL] [NL] code) in
      let s := replace (py "{") (py "{" ++ [NL]) s in
      let s := replace (py "}") ([NL] ++ py "}" ++ [NL]) s in
      let s := re_sub cs_paren_else
                 (py ")" ++ [NL] ++ py "else" ++ [NL] ++ py "{") s in
      let s := re_sub cs_brace_else
                 (py "}" ++ [NL] ++ py "else" ++ [NL] ++ py "{") s in
      let s := re_sub cs_brace_catch (py "}" ++ [NL] ++ py "catch(") s in
      let s := re_sub cs_brace_finally
                 (py "}" ++ [NL] ++ py "finally" ++ [NL] ++ py "{") s in
      let '(_, out) := fold_left cs_split_step (split NL s) (false, []) in
      let s := join [NL] out in
      let s := re_sub nl3 [NL; NL] s in
      strip s
  end.

(** [collapse_spaces_outside_strings]: the scan carries [out], [in_str],
    [esc] and [prev_space]. *)
Record collapse_state : Type := CollapseState {
  c_out : str;
  in_str : bool;
  esc : bool;
  prev_space : bool
}.

Definition collapse_step (st : collapse_state) (ch : ascii) : collapse_state :=
  if in_str st then
    let out := c_out st ++ [ch] in
    if esc st then CollapseState out true false (prev_space st)
    else if Ascii.eqb ch BSL then CollapseState out true true (prev_space st)
    else if Ascii.eqb ch DQ then CollapseState out false false (prev_space st)
    else CollapseState out true (esc st) (prev_space st)
  else if Ascii.eqb ch DQ then
    CollapseState (c_out st ++ [ch]) true (esc st) false
  else if isspace ch then
    CollapseState
      (if prev_space st then c_out st else c_out st ++ py " ")
      false (esc st) true
  else CollapseState (c_out st ++ [ch]) false (esc st) false.

Definition collapse_spaces_outside_strings (line : str) : str :=
  rstrip (c_out (fold_left collapse_step line
                   (CollapseState [] false false false))).

(** The indentation loop of [pretty_print_csharp_braces] carries the
    [int] counter [indent] and [out]. *)
Definition cs_indent_step (st : Z * list str) (raw : str) : Z * list str :=
  let '(indent, out) := st in
  let line := strip raw in
  if negb (nonempty line) then
    if nonempty out && negb (str_eqb (last out []) [])
    then (indent, out ++ [[]])
    else (indent, out)
  else
    let line := collapse_spaces_outside_strings line in
    let indent :=
      if startswith (py "}") line then Z.max (indent - 1) 0 else indent in
    let out := out ++ [str_mul (py "    ") indent ++ line] in
    let indent :=
      (indent + Z.of_nat (count_char "{" line)
       - Z.of_nat (count_char "}" line))%Z in
    let indent := if (indent <? 0)%Z then 0%Z else indent in
    (indent, out).

Definition pretty_print_csharp_braces (code : str) : str :=
  let code := split_csharp_one_liners code in
  if negb (nonempty code) then []
  else
    let lines := split NL (replace [TAB] (py "    ") code) in
    let '(_, out) := fold_left cs_indent_step lines (0%Z, []) in
    strip (join [NL] out).

(** [\s+_\s*$] *)
Definition vb_continuation : regex :=
  RSeqs [RPlus isspace; RChar (is_char "_"); RStar isspace; REnd].

(** Step 1 of [split_vb_one_liners]: the loop carries [joined_lines] and
    [buf]. *)
Definition vb_join_step (st : list str * str) (raw : str) : list str * str :=
  let '(joined_lines, buf) := st in
  let line := rstrip raw in
  let buf := if nonempty buf then buf ++ lstrip line else line in
  if re_search vb_continuation buf
  then (joined_lines, re_sub vb_continuation (py " ") buf)
  else (joined_lines ++ [buf], []).

Definition vb_join_continuations (s : str) : list str :=
  let '(joined_lines, buf) := fold_left vb_join_step (split NL s) ([], []) in
  if nonempty buf then joined_lines ++ [buf] else joined_lines.

Definition append_part (parts : list str) (cur : str) : list str :=
  if nonempty (strip cur) then parts ++ [strip cur] else parts.

(** [split_colons_outside_strings]: [rest] is [line[i:]]; [skip_ws] is set
    while the inner loop passes the whitespace that follows a colon. *)
Fixpoint colons_loop (rest : str) (parts : list str) (cur : str)
    (in_string skip_ws : bool) {struct rest} : list str :=
  match rest with
  | [] => append_part parts cur
  | ch :: rest' =>
      if skip_ws && isspace ch
      then colons_loop rest' parts cur in_string true
      else if Ascii.eqb ch DQ then
        match in_string, rest' with
        | true, ch2 :: rest'' =>
            if Ascii.eqb ch2 DQ
            then colons_loop rest'' parts (cur ++ [DQ; DQ]) in_string false
            else colons_loop rest' parts (cur ++ [ch]) (negb in_string) false
        | _, _ => colons_loop rest' parts (cur ++ [ch]) (negb in_string) false
        end
      else if Ascii.eqb ch ":" && negb in_string
      then colons_loop rest' (append_part parts cur) [] in_string true
      else colons_loop rest' parts (cur ++ [ch]) in_string false
  end.

Definition split_colons_outside_strings (line : str) : list str :=
  colons_loop line [] [] false false.

(** A loop that strips each line, keeps a blank one as the empty line and
    replaces any other by the lines [f] makes of it. *)
Definition expand_lines (f : str -> list str) (lines : list str) : list str :=
  fold_left
    (fun out raw =>
       let raw := strip raw in
       if negb (nonempty raw) then out ++ [[]] else out ++ f raw)
    lines [].

Definition VB_STATEMENT_KEYWORDS : list str :=
  [py "dim "; py "set "; py "const "; py "if "; py "elseif "; py "else";
   py "end if"; py "select case"; py "case "; py "end select";
   py "try"; py "catch "; py "finally"; py "end try";
   py "for each "; py "for "; py "while "; py "do "; py "loop"; py "next";
   py "return"; py "exit sub"; py "exit function"; py "exit for";
   py "exit while"].

(** The [for kw in VB_STATEMENT_KEYWORDS] loop at one position, on
    [low[i:]]. *)
Fixpoint keyword_loop (kws : list str) (low_rest : str)
    (parts : list str) (cur : str) : list str * str :=
  match kws with
  | [] => (parts, cur)
  | kw :: kws' =>
      if startswith kw low_rest && nonempty cur
      then (append_part parts cur, [])
      else keyword_loop kws' low_rest parts cur
  end.

(** [split_midline_vb_statements]: [rest] is [line[i:]], and [low[i:]] is
    [lower rest] since [lower] works character by character. *)
Fixpoint midline_loop (rest : str) (parts : list str) (cur : str)
    (in_string : bool) {struct rest} : list str :=
  match rest with
  | [] => append_part parts cur
  | ch :: rest' =>
      if Ascii.eqb ch DQ then
        match in_string, rest' with
        | true, ch2 :: rest'' =>
            if Ascii.eqb ch2 DQ
            then midline_loop rest'' parts (cur ++ [DQ; DQ]) in_string
            else midline_loop rest' parts (cur ++ [ch]) (negb in_string)
        | _, _ => midline_loop rest' parts (cur ++ [ch]) (negb in_string)
        end
      else
        let '(parts, cur) :=
          if negb in_string
          then keyword_loop VB_STATEMENT_KEYWORDS (lower rest) parts cur
          else (parts, cur) in
        midline_loop rest' parts (cur ++ [ch]) in_string
  end.

Definition split_midline_vb_statements (line : str) : list str :=
  midline_loop line [] [] false.

(** [^if\s+(G1)\s+then\s+(G2)\s+else\s+(G3)$] with [re.IGNORECASE], where
    the groups G1 and G2 are the lazy star of [.] and G3 its greedy star. *)
Definition vb_if_then_else : regex :=
  RSeqs [RStart; RLitCI (py "if"); RPlus isspace;
         RGroup 1 (RStarLazy is_dot); RPlus isspace; RLitCI (py "then");
         RPlus isspace; RGroup 2 (RStarLazy is_dot); RPlus isspace;
         RLitCI (py "else"); RPlus isspace; RGroup 3 (RStar is_dot); REnd].

(** [^if\s+(G1)\s+then\s+(.+)$] with [re.IGNORECASE], where the group G1
    is the lazy star of [.]. *)
Definition vb_if_then : regex :=
  RSeqs [RStart; RLitCI (py "if"); RPlus isspace;
         RGroup 1 (RStarLazy is_dot); RPlus isspace; RLitCI (py "then");
         RPlus isspace; RGroup 2 (RPlus is_dot); REnd].

(** Step 3 of [split_vb_one_liners], one line. *)
Definition vb_if_step (out_lines : list str) (ln : str) : list str :=
  let t := strip ln in
  if negb (nonempty t) then out_lines ++ [[]]
  else
    match re_match vb_if_then_else t with
    | Some m =>
        let cond := strip (group m 1) in
        let then_part := strip (group m 2) in
        let else_part := strip (group m 3) in
        out_lines ++
          [py "If " ++ cond ++ py " Then"; py "    " ++ then_part;
           py "Else"; py "    " ++ else_part; py "End If"]
    | None =>
        match re_match vb_if_then t with
        | Some m2 =>
            if negb (endswith (py "then") (lower t)) then
              let cond := strip (group m2 1) in
              let then_part := strip (group m2 2) in
              out_lines ++
                [py "If " ++ cond ++ py " Then"; py "    " ++ then_part;
                 py "End If"]
            else out_lines ++ [t]
        | None => out_lines ++ [t]
        end
    end.

Definition split_vb_one_liners (code : str) : str :=
  match code with
  | [] => []
  | _ :: _ =>
      let s := replace [CR] [NL] (replace [CR; NL] [NL] code) in
      let s := join [NL] (vb_join_continuations s) in
      let split_lines :=
        expand_lines split_colons_outside_strings (split NL s) in
      let split_lines := expand_lines split_midline_vb_statements split_lines in
      let out_lines := fold_left vb_if_step split_lines [] in
      let s2 := join [NL] out_lines in
      let s2 := re_sub nl3 [NL; NL] s2 in
      strip s2
  end.

Definition vb_enders : list str :=
  [py "end if"; py "end sub"; py "end function"; py "end select";
   py "end try"; py "next"; py "loop"; py "wend"; py "end while";
   py "end with"].
Definition vb_starters : list str :=
  [py "if "; py "select case"; py "try"; py "for "; py "while "; py "with ";
   py "do "; py "sub "; py "function "].
Definition vb_miders : list str :=
  [py "else"; py "elseif"; py "case "; py "catch"; py "finally"].

Definition starts_any (ps : list str) (low : str) : bool :=
  existsb (fun p => startswith p low) ps.

(** The indentation loop of [pretty_print_vb_blocks]. *)
Definition vb_indent_step (st : Z * list str) (raw : str) : Z * list str :=
  let '(indent, out) := st in
  let line := strip raw in
  if negb (nonempty line) then (indent, out ++ [[]])
  else
    let low := lower line in
    let indent :=
      if starts_any vb_enders low then Z.max (indent - 1) 0 else indent in
    if starts_any vb_miders low then
      let indent := Z.max (indent - 1) 0 in
      ((indent + 1)%Z, out ++ [str_mul (py "    ") indent ++ line])
    else
      let out := out ++ [str_mul (py "    ") indent ++ line] in
      if starts_any vb_starters low then
        if startswith (py "if ") low && endswith (py "then") low
        then ((indent + 1)%Z, out)
        else if startswith (py "if ") low && contains (py " then ") low
                && negb (endswith (py "then") low)
        then (indent, out)
        else ((indent + 1)%Z, out)
      else (indent, out).

Definition pretty_print_vb_blocks (code : str) : str :=
  let code := split_vb_one_liners (normalize_code code) in
  if negb (nonempty code) then []
  else
    let lines := split NL (replace [TAB] (py "    ") code) in
    let '(_, out) := fold_left vb_indent_step lines (0%Z, []) in
    strip (join [NL] out).

Definition pretty_print_code (code language : str) : str :=
  let code := normalize_code code in
  if negb (nonempty code) then []
  else
    let language := normalize_language language in
    if str_eqb language (py "C#") then pretty_print_csharp_braces code
    else if str_eqb language (py "VB") then pretty_print_vb_blocks code
    else normalize_whitespace code.

(** [count_display_lines]: an [int]. *)
Definition count_display_lines (code : str) : Z :=
  if negb (nonempty code) then 0%Z
  else (Z.of_nat (count_char NL code) + 1)%Z.

(** ** xml_common.py: findings *)

Record findings : Type := Findings {
  has_sql_keywords : bool;
  has_http : bool;
  has_file_io : bool;
  has_crypto : bool;
  has_reflection : bool;
  has_process_start : bool;
  has_hardcoded_credential_like : bool;
  mentions_blueprism_internal : bool;
  urls : list str
}.

(** [(password\s*=|pwd\s*=|apikey|api_key|token\s*=|bearer\s+)] *)
Definition credential_like : regex :=
  RGroup 1 (RAlts
    [RSeqs [RLit (py "password"); RStar isspace; RChar (is_char "=")];
     RSeqs [RLit (py "pwd"); RStar isspace; RChar (is_char "=")];
     RLit (py "apikey"); RLit (py "api_key");
     RSeqs [RLit (py "token"); RStar isspace; RChar (is_char "=")];
     RSeqs [RLit (py "bearer"); RPlus isspace]]).

(** The class of the URL pattern: any character but whitespace, the two
    quotes, [<] and [>]. *)
Definition is_url_char (c : ascii) : bool :=
  negb (isspace c || Ascii.eqb c DQ || Ascii.eqb c SQ || Ascii.eqb c "<"
        || Ascii.eqb c ">").

(** [https?://] followed by one or more characters of the class above. *)
Definition url_pattern : regex :=
  RSeqs [RLit (py "http"); ROpt (is_char "s"); RLit (py "://");
         RPlus is_url_char].

(** The order of [str]: lexicographic on code points. *)
Fixpoint str_leb (a b : str) : bool :=
  match a, b with
  | [], _ => true
  | _ :: _, [] => false
  | x :: a', y :: b' =>
      if code x <? code y then true
      else if code y <? code x then false
      else str_leb a' b'
  end.

Fixpoint insert_sorted (x : str) (l : list str) : list str :=
  match l with
  | [] => [x]
  | y :: l' => if str_leb x y then x :: l else y :: insert_sorted x l'
  end.

(** [sorted(set(l))]: the distinct elements in increasing order, whatever
    order the set yields them in. *)
Definition sorted_set (l : list str) : list str :=
  fold_right insert_sorted [] (nodup (list_eq_dec ascii_dec) l).

Definition simple_code_findings (code : str) : findings :=
  let c := code in
  let c_low := lower c in
  let has_any (subs : list str) := existsb (fun s => contains s c_low) subs in
  Findings
    (has_any [py "select "; py "insert "; py "update "; py "delete ";
              py "exec "; py "sp_"; py "merge "])
    (has_any [py "http://"; py "https://"; py "webrequest"; py "httpclient";
              py "restsharp"])
    (has_any [py "filesystem"; py "file."; py "directory.";
              py "streamreader"; py "streamwriter"])
    (has_any [py "sha"; py "md5"; py "aes"; py "rsa"; py "cryptography";
              py "rijndael"])
    (has_any [py "reflection"; py "gettype("; py "activator.createinstance"])
    (has_any [py "process.start"; py "shell("; py "wscript.shell"])
    (re_search credential_like c_low)
    (has_any [py "blueprism"; py "automate"; py "session"; py "resourcepc"])
    (firstn 50 (sorted_set (re_findall url_pattern c))).

(** ** xml_common.py: extraction

    [xml.etree.ElementTree] is the standard library's: its parser and its
    serializer are parameters, and an exception of either is [None]. *)

#[warnings="-register-all"] Inductive Element : Type :=
| Elem (tag : str) (text : option str) (tail : option str)
       (children : list Element).

Definition elem_tag (e : Element) : str :=
  match e with Elem t _ _ _ => t end.
Definition elem_text (e : Element) : option str :=
  match e with Elem _ t _ _ => t end.
Definition elem_children (e : Element) : list Element :=
  match e with Elem _ _ _ c => c end.

(** [elem.iter()]: the element and its descendants, in document order. *)
Fixpoint iter (e : Element) : list Element :=
  match e with
  | Elem _ _ _ cs => e :: flat_map iter cs
  end.

(** [elem.find(".//" + tag)]: the first descendant with that tag. *)
Definition find_descendant (e : Element) (tag : str) : option Element :=
  find (fun x => str_eqb (elem_tag x) tag) (flat_map iter (elem_children e)).

(** [not s or not s.strip()] for an optional string. *)
Definition blank_opt (s : option str) : bool :=
  match s with
  | None => true
  | Some t => negb (nonempty t) || negb (nonempty (strip t))
  end.

(** [indent_xml]: the element with its [text] and [tail] rewritten. *)
Fixpoint indent_xml (elem : Element) (level : nat) : Element :=
  match elem with
  | Elem tg text tail cs =>
      let i := NL :: repeat_str (py "  ") level in
      match cs with
      | _ :: _ =>
          Elem tg
            (if blank_opt text then Some (i ++ py "  ") else text)
            (if blank_opt tail then Some i else tail)
            (map (fun child => indent_xml child (S level)) cs)
      | [] =>
          Elem tg text
            (if negb (level =? 0) && blank_opt tail then Some i else tail)
            cs
      end
  end.

Section Extraction.

Variable ET_fromstring : str -> option Element.
Variable ET_tostring : Element -> option str.

Definition pretty_print_xml (xml_str : str) : str :=
  match ET_fromstring xml_str with
  | Some root =>
      match ET_tostring (indent_xml root 0) with
      | Some s => s
      | None => xml_str
      end
  | None => xml_str
  end.

Definition code_candidates : list str :=
  [py "code"; py "codetext"; py "script"; py "body"; py "text"; py "vb";
   py "csharp"].

(** The [for tag in code_candidates] loop: the text of the first
    candidate whose node has a non-blank text. *)
Fixpoint first_code_text (stage : Element) (tags : list str) : option str :=
  match tags with
  | [] => None
  | tag :: tags' =>
      match find_descendant stage tag with
      | Some n =>
          match elem_text n with
          | Some t =>
              if nonempty t && nonempty (strip t) then Some t
              else first_code_text stage tags'
          | None => first_code_text stage tags'
          end
      | None => first_code_text stage tags'
      end
  end.

(** The test for a blob that holds stage xml. *)
Definition looks_like_stage_xml (txt : str) : bool :=
  startswith (py "<") txt
  && (contains (py "<stage") txt || contains (py "</stage>") txt).

Definition extract_code_from_possible_stage_xml (code_text : str)
    : str * str :=
  if negb (nonempty code_text) then ([], py "raw")
  else
    let txt := strip code_text in
    if looks_like_stage_xml txt
    then
      match ET_fromstring txt with
      | Some stage =>
          match first_code_text stage code_candidates with
          | Some t => (normalize_code t, py "code")
          | None => (pretty_print_xml txt, py "xml_pretty")
          end
      | None => (normalize_code code_text, py "raw")
      end
    else (normalize_code code_text, py "raw").

End Extraction.

(** ** utils.py: line count *)

(** [get_line_count]: an [int]. *)
Definition get_line_count (s : str) : Z :=
  let s := normalize_code s in
  if negb (nonempty s) then 0%Z else Z.of_nat (length (split NL s)).

(** ** xml_common.py: the tags of an export *)

(** [extract_first_text]: the text of the first candidate whose node has
    a text, be it empty. [stage.find(".//" + t)] is [find_descendant
    stage t] for a candidate [t] that is a plain tag name (letters,
    digits, underscores), as are the candidates of the caller; any other
    string is a path expression and lies outside this model. *)
Fixpoint extract_first_text (stage : Element) (tag_candidates : list str)
    : str :=
  match tag_candidates with
  | [] => []
  | t :: rest =>
      match find_descendant stage t with
      | Some node =>
          match elem_text node with
          | Some txt => txt
          | None => extract_first_text stage rest
          end
      | None => extract_first_text stage rest
      end
  end.

Definition language_tags : list str :=
  [py "language"; py "codelanguage"; py "lang"].

(** The inner loop of [detect_language] on one element. *)
Fixpoint detect_in (elem : Element) (tags : list str) : option str :=
  match tags with
  | [] => None
  | t :: rest =>
      match find_descendant elem t with
      | Some n =>
          match elem_text n with
          | Some txt =>
              if nonempty txt then Some (strip txt) else detect_in elem rest
          | None => detect_in elem rest
          end
      | None => detect_in elem rest
      end
  end.

(** [detect_language]: the stage first, then the root. *)
Definition detect_language (root stage : Element) : str :=
  match detect_in stage language_tags with
  | Some l => l
  | None =>
      match detect_in root language_tags with
      | Some l => l
      | None => py "Unknown"
      end
  end.

(** ** details_pipeline.py: the preview of a code stage

    [pretty[:300].replace(NL, " ")] followed by three dots when [pretty]
    is longer than 300 characters. *)
Definition code_preview (pretty : str) : str :=
  replace [NL] (py " ") (firstn 300 pretty)
  ++ (if 300 <? length pretty then py "..." else []).

(** details_pipeline.py: the tags under which the caller of
    [extract_first_text] looks for the code of a stage. *)
Definition code_tag_candidates : list str :=
  [py "code"; py "codetext"; py "script"; py "text"; py "body"; py "vb";
   py "csharp"].

(** ** Notions used in the properties *)

(** No line of [s] ends in whitespace. *)
Definition lines_trimmed (s : str) : Prop :=
  Forall (fun l => rstrip l = l) (split NL s).

(** A line of a formatter: empty, or some indent units and then text that
    starts with a character other than whitespace. *)
Definition indented_line (l : str) : Prop :=
  l = [] \/ exists (i : Z) (c : ascii) (body : str),
              (0 <= i)%Z /\ isspace c = false
              /\ l = str_mul (py "    ") i ++ c :: body.

(** The order of [sorted] as a relation. *)
Definition str_le (a b : str) : Prop := str_leb a b = true.

(** Equality of strings is decidable. *)
Definition str_dec : forall a b : str, {a = b} + {a <> b} :=
  list_eq_dec ascii_dec.

(** Fifty-one distinct URLs. *)
Definition fifty_one_urls : str :=
  py "http://a http://b http://c http://d http://e http://f "
  ++ py "http://g http://h http://i http://j http://k http://l "
  ++ py "http://m http://n http://o http://p http://q http://r "
  ++ py "http://s http://t http://u http://v http://w http://x "
  ++ py "http://y http://z http://A http://B http://C http://D "
  ++ py "http://E http://F http://G http://H http://I http://J "
  ++ py "http://K http://L http://M http://N http://O http://P "
  ++ py "http://Q http://R http://S http://T http://U http://V "
  ++ py "http://W http://X http://Y".

(** The hint is missing, blank or "unknown" in any case. *)
Definition hint_absent (language : str) : Prop :=
  strip language = [] \/ lower (strip language) = py "unknown".

(** The text before a position ends a line. *)
Definition at_line_start (pre : str) : Prop :=
  pre = [] \/ exists p, pre = p ++ [NL].

(** The text does not go on with a word character. *)
Definition word_ends (rest : str) : Prop :=
  match rest with
  | [] => True
  | x :: _ => isword x = false
  end.

(** Some line of [c] begins, after optional indentation, with one of the
    keywords of the first signal, in any case, ending at a word boundary. *)
Definition has_vb_keyword_line (c : str) : Prop :=
  exists pre ws kw rest,
    c = pre ++ ws ++ kw ++ rest
    /\ at_line_start pre /\ forallb isspace ws = true
    /\ In (lower kw) vb_signal_keywords /\ word_ends rest.

(** Some line of [c] begins, after optional indentation, with "If", some
    whitespace, an expression within the line and the word "Then". *)
Definition has_vb_if_then_line (c : str) : Prop :=
  exists pre ws kw_if sp expr kw_then rest,
    c = pre ++ ws ++ kw_if ++ sp ++ expr ++ kw_then ++ rest
    /\ at_line_start pre /\ forallb isspace ws = true
    /\ lower kw_if = py "if"
    /\ sp <> [] /\ forallb isspace sp = true
    /\ forallb is_dot expr = true /\ word_ends (rev (sp ++ expr))
    /\ lower kw_then = py "then" /\ word_ends rest.

(** No two consecutive lines are both empty. *)
Fixpoint no_adjacent_empty (ls : list str) : Prop :=
  match ls with
  | [] => True
  | l :: t =>
      match t with
      | [] => True
      | l2 :: _ => ~ (l = [] /\ l2 = [])
      end /\ no_adjacent_empty t
  end.

(** What [re.sub] with [nl3] does, as a scan: [n] newlines of the current
    run have been written. *)
Fixpoint squeeze (s : str) (n : nat) : str :=
  match s with
  | [] => []
  | c :: s' =>
      if Ascii.eqb c NL
      then if n <? 2 then NL :: squeeze s' (S n) else squeeze s' n
      else c :: squeeze s' 0
  end.

(** The number of newlines [s] begins with. *)
Fixpoint nl_run (s : str) : nat :=
  match s with
  | [] => 0
  | c :: s' => if Ascii.eqb c NL then S (nl_run s') else 0
  end.

(** No run of whitespace of [s] holds three newlines, [m] newlines of the
    current run being behind. *)
Fixpoint ws_runs_ok (s : str) (m : nat) : bool :=
  match s with
  | [] => true
  | c :: s' =>
      if Ascii.eqb c NL then (m + 1 <? 3) && ws_runs_ok s' (m + 1)
      else if isspace c then ws_runs_ok s' m
      else ws_runs_ok s' 0
  end.

(** No two consecutive lines are both blank, the line before the list
    being blank or not as [prev_blank] says. *)
Fixpoint lines_ok (ls : list str) (prev_blank : bool) : bool :=
  match ls with
  | [] => true
  | l :: t =>
      negb (prev_blank && forallb isspace l)
      && lines_ok t (forallb isspace l)
  end.

(** The same when the first line goes on a line begun before, blank so
    far or not as [cur_blank] says. *)
Definition lines_ok_from (ls : list str) (prev_blank cur_blank : bool)
    : bool :=
  match ls with
  | [] => true
  | h :: t =>
      negb (prev_blank && (cur_blank && forallb isspace h))
      && lines_ok t (cur_blank && forallb isspace h)
  end.

(** What the replacement of tabs makes of one character. *)
Definition expand_tab (c : ascii) : str :=
  if Ascii.eqb TAB c then py "    " else [c].

(** Every character of a match state comes from the text [t]. *)
Definition chars_within (t : str) (st : mstate) : Prop :=
  (forall x, In x (before st) -> In x t)
  /\ (forall x, In x (after st) -> In x t)
  /\ (forall n s, In (n, s) (groups st) -> forall x, In x s -> In x t).

(** A line: no newline inside. *)
Definition no_NL (l : str) : Prop := ~ In NL l.

(** A line with a character other than whitespace. *)
Definition solid (l : str) : Prop := no_NL l /\ forallb isspace l = false.

(** A line that is not empty, blank or not. *)
Definition filler (l : str) : Prop := no_NL l /\ l <> [].

(** What [join] adds after its first line. *)
Definition lines_tail (ls : list str) : str := flat_map (fun l => NL :: l) ls.

(** [ws_runs_ok] after [squeeze]. *)
Definition squeezed_ok (y : str) (n m : nat) : bool :=
  ws_runs_ok (squeeze y n) m.

(** What step 3 appends for one line. *)
Definition block_ok (b : list str) : Prop :=
  b = [[]]
  \/ (exists l, b = [l] /\ solid l)
  \/ (exists a f c, b = [a; f; c] /\ solid a /\ filler f /\ solid c)
  \/ (exists a f1 b' f2 c,
        b = [a; f1; b'; f2; c]
        /\ solid a /\ filler f1 /\ solid b' /\ filler f2 /\ solid c).

(** A statement of the VB splitter: not empty, no whitespace at either
    end. *)
Definition statement_ok (p : str) : Prop := p <> [] /\ strip p = p.

(** No three consecutive newlines anywhere in the text. *)
Definition no_triple_NL (s : str) : Prop :=
  forall a b, s <> a ++ [NL; NL; NL] ++ b.

(** The same as a scan: [n] newlines have just been read, and no run
    reaches three. *)
Fixpoint nl_runs_ok (s : str) (n : nat) : bool :=
  match s with
  | [] => true
  | c :: s' =>
      if Ascii.eqb c NL then (n + 1 <? 3) && nl_runs_ok s' (n + 1)
      else nl_runs_ok s' 0
  end.

(** What indentation must keep of an element: its tag, and its text and
    tail unless they are blank. *)
Definition content (e : Element) : str * option str * option str :=
  match e with
  | Elem tg text tail _ =>
      (tg, if blank_opt text then None else text,
           if blank_opt tail then None else tail)
  end.

(** The numbers of children of the elements, in document order. *)
Fixpoint shape (e : Element) : list nat :=
  match e with
  | Elem _ _ _ cs => length cs :: flat_map shape cs
  end.

(** Induction on an element with the hypothesis on every child. *)
Fixpoint Element_rect_nested (P : Element -> Prop)
    (H : forall tg text tail cs, Forall P cs -> P (Elem tg text tail cs))
    (e : Element) : P e :=
  match e with
  | Elem tg text tail cs =>
      H tg text tail cs
        ((fix go (l : list Element) : Forall P l :=
            match l with
            | [] => Forall_nil P
            | c :: l' => Forall_cons c (Element_rect_nested P H c) (go l')
            end) cs)
  end.

(** Every whitespace character is a space, and none follows another;
    [prev] tells that a space has just been read. *)
Fixpoint single_spaced (s : str) (prev : bool) : bool :=
  match s with
  | [] => true
  | c :: s' =>
      if isspace c
      then Ascii.eqb c " " && negb prev && single_spaced s' true
      else single_spaced s' false
  end.

(** A character of a plain tag name: an ASCII letter, a digit or an
    underscore. *)
Definition tag_char (c : ascii) : bool :=
  ((65 <=? code c) && (code c <=? 90))
  || ((97 <=? code c) && (code c <=? 122))
  || ((48 <=? code c) && (code c <=? 57))
  || Ascii.eqb c "_".

(** A plain tag name: not empty and made of such characters, so that the
    path [".//" + t] selects the descendants whose tag is [t] and holds no
    wildcard, step, predicate or prefix. *)
Definition plain_tag (t : str) : Prop :=
  t <> [] /\ forallb tag_char t = true.

(** The characters of a line that are not whitespace, in order. *)
Definition code_chars (s : str) : str :=
  filter (fun c => negb (isspace c)) s.

(** * Properties *)

(** ** Characters *)

#[local] Arguments Ascii.eqb : simpl never.

Lemma isspace_NL : isspace NL = true.
Proof. reflexivity. Qed.

Lemma isspace_not_NL (c : ascii) : isspace c = false -> c <> NL.
Proof. intros H ->. discriminate H. Qed.

Lemma eqb_NL_nonspace (c : ascii) : isspace c = false -> Ascii.eqb c NL = false.
Proof. intros H. apply Ascii.eqb_neq. now apply isspace_not_NL. Qed.

(** ** [split] and [join] *)

Lemma split_not_nil (sep : ascii) (s : str) : split sep s <> [].
Proof.
  destruct s as [|c s]; simpl; [discriminate|].
  destruct (Ascii.eqb c sep); [discriminate|].
  destruct (split sep s); discriminate.
Qed.

Lemma split_cons_sep (sep : ascii) (s : str) :
  split sep (sep :: s) = [] :: split sep s.
Proof. simpl. now rewrite Ascii.eqb_refl. Qed.

Lemma split_cons_other (sep c : ascii) (s : str) :
  c <> sep ->
  exists h t, split sep s = h :: t /\ split sep (c :: s) = (c :: h) :: t.
Proof.
  intros Hc. simpl. apply Ascii.eqb_neq in Hc. rewrite Hc.
  destruct (split sep s) as [|h t] eqn:E.
  - now apply split_not_nil in E.
  - now exists h, t.
Qed.

Lemma join_cons (sep : str) (l : str) (ls : list str) :
  ls <> [] -> join sep (l :: ls) = l ++ sep ++ join sep ls.
Proof. destruct ls; [congruence | reflexivity]. Qed.

Lemma join_split (sep : ascii) (s : str) : join [sep] (split sep s) = s.
Proof.
  induction s as [|c s IH]; [reflexivity|].
  destruct (Ascii.eqb_spec c sep) as [->|Hc].
  - rewrite split_cons_sep, join_cons by apply split_not_nil.
    simpl. now rewrite IH.
  - destruct (split_cons_other sep c s Hc) as (h & t & E & E').
    rewrite E'. rewrite E in IH.
    destruct t as [|l t]; simpl in *; now rewrite IH.
Qed.

Lemma split_no_sep (sep : ascii) (s : str) :
  Forall (fun l => ~ In sep l) (split sep s).
Proof.
  induction s as [|c s IH]; [now repeat constructor|].
  destruct (Ascii.eqb_spec c sep) as [->|Hc].
  - rewrite split_cons_sep. constructor; [intros [] | exact IH].
  - destruct (split_cons_other sep c s Hc) as (h & t & E & E').
    rewrite E'. rewrite E in IH. inversion IH; subst.
    constructor; [|assumption].
    intros [H|H]; [now apply Hc | contradiction].
Qed.

Lemma split_single (sep : ascii) (l : str) :
  ~ In sep l -> split sep l = [l].
Proof.
  induction l as [|c l IH]; intros H; [reflexivity|].
  simpl. destruct (Ascii.eqb_spec c sep) as [->|Hc].
  - exfalso. apply H. now left.
  - rewrite IH; [reflexivity|]. intros Hin. apply H. now right.
Qed.

Lemma split_app_sep (sep : ascii) (l s : str) :
  ~ In sep l -> split sep (l ++ sep :: s) = l :: split sep s.
Proof.
  induction l as [|c l IH]; intros H.
  - apply split_cons_sep.
  - simpl. destruct (Ascii.eqb_spec c sep) as [->|Hc].
    + exfalso. apply H. now left.
    + rewrite IH; [reflexivity|]. intros Hin. apply H. now right.
Qed.

Lemma split_join (sep : ascii) (ls : list str) :
  ls <> [] -> Forall (fun l => ~ In sep l) ls ->
  split sep (join [sep] ls) = ls.
Proof.
  induction ls as [|l ls IH]; intros Hne HF; [congruence|].
  inversion HF as [|? ? Hl HF']; subst.
  destruct ls as [|l' ls'].
  - simpl. now apply split_single.
  - rewrite join_cons by discriminate.
    simpl app. rewrite split_app_sep by assumption.
    f_equal. apply IH; [discriminate | assumption].
Qed.

Lemma In_join (sep c : ascii) (ls : list str) :
  In c (join [sep] ls) -> c = sep \/ exists l, In l ls /\ In c l.
Proof.
  induction ls as [|l ls IH]; intros H; [contradiction|].
  destruct ls as [|l' ls'].
  - right. exists l. split; [now left | exact H].
  - rewrite join_cons in H by discriminate.
    apply in_app_or in H. destruct H as [H|H].
    + right. exists l. split; [now left | exact H].
    + simpl in H. destruct H as [H|H]; [now left|].
      destruct (IH H) as [->|(x & Hx & Hc)]; [now left|].
      right. exists x. split; [now right | exact Hc].
Qed.

Lemma In_split (sep c : ascii) (s l : str) :
  In l (split sep s) -> In c l -> In c s.
Proof.
  revert l. induction s as [|x s IH]; intros l Hl Hc.
  - simpl in Hl. destruct Hl as [<-|[]]. exact Hc.
  - destruct (Ascii.eqb_spec x sep) as [->|Hx].
    + rewrite split_cons_sep in Hl. destruct Hl as [<-|Hl]; [contradiction|].
      right. eapply IH; eassumption.
    + destruct (split_cons_other sep x s Hx) as (h & t & E & E').
      rewrite E' in Hl. destruct Hl as [<-|Hl].
      * destruct Hc as [->|Hc]; [now left|].
        right. apply (IH h); [rewrite E; now left | exact Hc].
      * right. apply (IH l); [rewrite E; now right | exact Hc].
Qed.

(** ** [lstrip], [rstrip], [strip] *)

Lemma rstrip_cons (c : ascii) (s : str) :
  rstrip (c :: s) = (if nonempty (rstrip s) || negb (isspace c)
                     then c :: rstrip s else []).
Proof.
  simpl. destruct (rstrip s); [destruct (isspace c)|]; reflexivity.
Qed.

Lemma rstrip_idem (s : str) : rstrip (rstrip s) = rstrip s.
Proof.
  induction s as [|c s IH]; [reflexivity|].
  rewrite rstrip_cons.
  destruct (nonempty (rstrip s) || negb (isspace c)) eqn:E; [|reflexivity].
  rewrite rstrip_cons, IH, E. reflexivity.
Qed.

Lemma rstrip_fixed_tail (c : ascii) (s : str) :
  rstrip (c :: s) = c :: s -> rstrip s = s.
Proof.
  rewrite rstrip_cons.
  destruct (nonempty (rstrip s) || negb (isspace c)); congruence.
Qed.

Lemma In_rstrip (c : ascii) (s : str) : In c (rstrip s) -> In c s.
Proof.
  induction s as [|x s IH]; [easy|].
  rewrite rstrip_cons.
  destruct (nonempty (rstrip s) || negb (isspace x)); [|easy].
  intros [H|H]; [now left | right; auto].
Qed.

Lemma In_lstrip (c : ascii) (s : str) : In c (lstrip s) -> In c s.
Proof.
  induction s as [|x s IH]; [easy|].
  simpl. destruct (isspace x); [right; auto | easy].
Qed.

Lemma rstrip_head (s r : str) (a : ascii) :
  rstrip s = a :: r -> exists s', s = a :: s'.
Proof.
  destruct s as [|c s]; [discriminate|].
  rewrite rstrip_cons.
  destruct (nonempty (rstrip s) || negb (isspace c)); [|discriminate].
  intros [= -> _]. now exists s.
Qed.

Lemma lstrip_idem (s : str) : lstrip (lstrip s) = lstrip s.
Proof.
  induction s as [|c s IH]; [reflexivity|].
  simpl. destruct (isspace c) eqn:E; [exact IH|].
  simpl. now rewrite E.
Qed.

Lemma lstrip_head (s r : str) (c : ascii) :
  lstrip s = c :: r -> isspace c = false.
Proof.
  induction s as [|x s IH]; [discriminate|].
  simpl. destruct (isspace x) eqn:E; [exact IH|].
  now intros [= <- _].
Qed.

Lemma lstrip_nonspace (c : ascii) (s : str) :
  isspace c = false -> lstrip (c :: s) = c :: s.
Proof. intros H. simpl. now rewrite H. Qed.

Lemma lstrip_rstrip_lstrip (s : str) :
  lstrip (rstrip (lstrip s)) = rstrip (lstrip s).
Proof.
  destruct (lstrip s) as [|c r] eqn:E; [reflexivity|].
  apply lstrip_head in E.
  rewrite rstrip_cons, E. simpl negb. rewrite orb_true_r.
  now apply lstrip_nonspace.
Qed.

Lemma strip_idem (s : str) : strip (strip s) = strip s.
Proof.
  unfold strip. rewrite lstrip_rstrip_lstrip. apply rstrip_idem.
Qed.

Lemma In_strip (c : ascii) (s : str) : In c (strip s) -> In c s.
Proof. intros H. now apply In_lstrip, In_rstrip. Qed.

(** ** Lines without trailing whitespace *)

Lemma lines_trimmed_tail (c : ascii) (s : str) :
  lines_trimmed (c :: s) -> lines_trimmed s.
Proof.
  unfold lines_trimmed. destruct (Ascii.eqb_spec c NL) as [->|Hc].
  - rewrite split_cons_sep. now inversion 1.
  - destruct (split_cons_other NL c s Hc) as (h & t & E & E').
    rewrite E', E. inversion 1; subst. constructor; [|assumption].
    eapply rstrip_fixed_tail; eassumption.
Qed.

Lemma lines_trimmed_lstrip (s : str) :
  lines_trimmed s -> lines_trimmed (lstrip s).
Proof.
  induction s as [|c s IH]; [easy|].
  intros H. simpl. destruct (isspace c); [|exact H].
  apply IH. eapply lines_trimmed_tail; eassumption.
Qed.

Lemma lines_trimmed_rstrip (s : str) :
  lines_trimmed s -> lines_trimmed (rstrip s).
Proof.
  induction s as [|c s IH]; [easy|].
  intros H. pose proof (lines_trimmed_tail _ _ H) as Hs.
  specialize (IH Hs). rewrite rstrip_cons.
  destruct (nonempty (rstrip s) || negb (isspace c)) eqn:E;
    [|repeat constructor].
  unfold lines_trimmed in *.
  destruct (Ascii.eqb_spec c NL) as [->|Hc].
  - rewrite split_cons_sep. now constructor.
  - destruct (split_cons_other NL c (rstrip s) Hc) as (h & t & E1 & E2).
    rewrite E2. rewrite E1 in IH. inversion IH as [|? ? Hh Ht]; subst.
    constructor; [|assumption].
    rewrite rstrip_cons, Hh.
    destruct h as [|a h]; [|reflexivity]. simpl nonempty. simpl orb.
    destruct (isspace c) eqn:Ec; [|reflexivity]. exfalso.
    rewrite orb_false_r in E.
    destruct (rstrip s) as [|a r] eqn:Er; [discriminate|].
    destruct (Ascii.eqb_spec a NL) as [->|Ha].
    + destruct (rstrip_head _ _ _ Er) as (s' & ->).
      destruct (split_cons_other NL c (NL :: s') Hc) as (h' & t' & E3 & E4).
      rewrite E4 in H. rewrite split_cons_sep in E3.
      injection E3 as <- <-. inversion H as [|? ? Hx _]; subst.
      rewrite rstrip_cons in Hx. simpl in Hx. rewrite Ec in Hx. discriminate.
    + destruct (split_cons_other NL a r Ha) as (h' & t' & E3 & E4).
      rewrite E4 in E1. discriminate.
Qed.

Lemma lines_trimmed_strip (s : str) :
  lines_trimmed s -> lines_trimmed (strip s).
Proof. intros H. now apply lines_trimmed_rstrip, lines_trimmed_lstrip. Qed.

Lemma rstrip_no_NL (l : str) : ~ In NL l -> ~ In NL (rstrip l).
Proof. intros H Hin. apply H. now apply In_rstrip. Qed.

Lemma lines_trimmed_rstrip_lines (s : str) :
  lines_trimmed (join [NL] (map rstrip (split NL s))).
Proof.
  unfold lines_trimmed. rewrite split_join.
  - apply Forall_map, Forall_forall. intros l _. apply rstrip_idem.
  - destruct (split NL s) eqn:E; [now apply split_not_nil in E | discriminate].
  - apply Forall_map. eapply Forall_impl; [|apply split_no_sep].
    intros l. apply rstrip_no_NL.
Qed.

Lemma rstrip_lines_fixed (s : str) :
  lines_trimmed s -> join [NL] (map rstrip (split NL s)) = s.
Proof.
  intros H. rewrite <- (join_split NL s) at 2. f_equal.
  unfold lines_trimmed in H. induction H as [|l ls Hl _ IH]; [reflexivity|].
  simpl. now rewrite Hl, IH.
Qed.

(** ** [replace] of carriage returns *)

Lemma replace_from_absent (o : ascii) (old new s : str) :
  ~ In o s -> replace_from (o :: old) new s 0 = s.
Proof.
  induction s as [|c s IH]; intros H; [reflexivity|].
  simpl. destruct (Ascii.eqb_spec o c) as [->|Hc].
  - exfalso. apply H. now left.
  - simpl. rewrite IH; [reflexivity|]. intros Hin. apply H. now right.
Qed.

Lemma replace_CR_no_CR (s : str) (k : nat) :
  ~ In CR (replace_from [CR] [NL] s k).
Proof.
  revert k. induction s as [|c s IH]; intros k; [easy|].
  simpl. destruct k as [|k]; [|apply IH].
  destruct (Ascii.eqb_spec CR c) as [<-|Hc]; simpl.
  - intros [H|H]; [discriminate | now apply IH in H].
  - intros [H|H]; [now apply Hc | now apply IH in H].
Qed.

Lemma normalize_code_no_CR (s : str) : ~ In CR (normalize_code s).
Proof.
  destruct s as [|c s]; [easy|].
  unfold normalize_code. intros H. apply In_strip in H.
  apply In_join in H. destruct H as [H|(l & Hl & Hc)]; [discriminate|].
  apply in_map_iff in Hl. destruct Hl as (l' & <- & Hl').
  apply In_rstrip in Hc.
  eapply replace_CR_no_CR. unfold replace in Hl'. eapply In_split; eassumption.
Qed.

Lemma normalize_code_lines_trimmed (s : str) : lines_trimmed (normalize_code s).
Proof.
  destruct s as [|c s]; [repeat constructor|].
  unfold normalize_code. apply lines_trimmed_strip, lines_trimmed_rstrip_lines.
Qed.

Lemma normalize_code_stripped (s : str) :
  strip (normalize_code s) = normalize_code s.
Proof.
  destruct s as [|c s]; [reflexivity|]. unfold normalize_code. apply strip_idem.
Qed.

(** A string without carriage returns, without trailing whitespace on any
    line and without whitespace at either end is left as it is. *)
Lemma normalize_code_fixed (s : str) :
  ~ In CR s -> lines_trimmed s -> strip s = s -> normalize_code s = s.
Proof.
  intros Hcr Ht Hs. destruct s as [|c s]; [reflexivity|].
  unfold normalize_code, replace.
  rewrite (replace_from_absent CR [NL] [NL] (c :: s) Hcr).
  rewrite (replace_from_absent CR [] [NL] (c :: s) Hcr).
  rewrite rstrip_lines_fixed by assumption. exact Hs.
Qed.

(** C6: normalization is idempotent, for every input string: the empty
    string and strings with any mix of CRLF / CR / LF line endings
    included. *)
Theorem normalize_code_idempotent (x : str) :
  normalize_code (normalize_code x) = normalize_code x.
Proof.
  apply normalize_code_fixed.
  - apply normalize_code_no_CR.
  - apply normalize_code_lines_trimmed.
  - apply normalize_code_stripped.
Qed.

(** ** Extraction *)

Section ExtractionFacts.

Variable ET_fromstring : str -> option Element.
Variable ET_tostring : Element -> option str.

Lemma extract_empty :
  extract_code_from_possible_stage_xml ET_fromstring ET_tostring []
  = ([], py "raw").
Proof. reflexivity. Qed.

Lemma extract_not_xml (code_text : str) :
  looks_like_stage_xml (strip code_text) = false ->
  extract_code_from_possible_stage_xml ET_fromstring ET_tostring code_text
  = (normalize_code code_text, py "raw").
Proof.
  intros H. unfold extract_code_from_possible_stage_xml.
  destruct code_text as [|c s]; [reflexivity|].
  cbn [nonempty negb]. now rewrite H.
Qed.

Lemma extract_parse_failure (code_text : str) :
  ET_fromstring (strip code_text) = None ->
  extract_code_from_possible_stage_xml ET_fromstring ET_tostring code_text
  = (normalize_code code_text, py "raw").
Proof.
  intros H. unfold extract_code_from_possible_stage_xml.
  destruct code_text as [|c s]; [reflexivity|].
  cbn [nonempty negb]. rewrite H.
  now destruct (looks_like_stage_xml (strip (c :: s))).
Qed.

(** The four ways out of the extractor. *)
Lemma extract_cases (code_text : str) :
  let r :=
    extract_code_from_possible_stage_xml ET_fromstring ET_tostring code_text
  in
  r = ([], py "raw")
  \/ r = (normalize_code code_text, py "raw")
  \/ (exists t, r = (normalize_code t, py "code"))
  \/ r = (pretty_print_xml ET_fromstring ET_tostring (strip code_text),
          py "xml_pretty").
Proof.
  cbv zeta. unfold extract_code_from_possible_stage_xml.
  destruct code_text as [|c s]; [now left|].
  cbn [nonempty negb].
  destruct (looks_like_stage_xml (strip (c :: s))); [|now right; left].
  destruct (ET_fromstring (strip (c :: s))) as [stage|]; [|now right; left].
  destruct (first_code_text stage code_candidates) as [t|].
  - right; right; left. now exists t.
  - now right; right; right.
Qed.

End ExtractionFacts.

(** C5: the blob extractor returns a pair for every input, whatever the
    XML parser and serializer do; its kind is one of "code", "xml_pretty"
    and "raw"; the empty input gives the empty text tagged "raw"; a parse
    failure, and an input that does not look like stage xml, give the
    normalized input tagged "raw". *)
Theorem extract_total_with_raw_fallback
    (ET_fromstring : str -> option Element)
    (ET_tostring : Element -> option str) (code_text : str) :
  let r := extract_code_from_possible_stage_xml ET_fromstring ET_tostring
             code_text in
  (snd r = py "code" \/ snd r = py "xml_pretty" \/ snd r = py "raw")
  /\ (code_text = [] -> r = ([], py "raw"))
  /\ (ET_fromstring (strip code_text) = None ->
      r = (normalize_code code_text, py "raw"))
  /\ (looks_like_stage_xml (strip code_text) = false ->
      r = (normalize_code code_text, py "raw")).
Proof.
  cbv zeta. repeat split.
  - destruct (extract_cases ET_fromstring ET_tostring code_text)
      as [E|[E|[(t & E)|E]]]; rewrite E; auto.
  - intros ->. reflexivity.
  - apply extract_parse_failure.
  - apply extract_not_xml.
Qed.

Lemma extract_total_with_raw_fallback_witness :
  let parse := fun _ : str => @None Element in
  let ser := fun _ : Element => @None str in
  let r := extract_code_from_possible_stage_xml parse ser (py "<stage") in
  parse (strip (py "<stage")) = None
  /\ r = (normalize_code (py "<stage"), py "raw").
Proof.
  cbv zeta. split; [reflexivity|].
  apply (proj1 (proj2 (proj2 (extract_total_with_raw_fallback
           (fun _ => None) (fun _ => None) (py "<stage"))))).
  reflexivity.
Defined.

(** C10: whenever the extractor returns kind "code" or kind "raw", the
    text it returns is a fixed point of normalization. *)
Theorem extract_code_raw_normalized
    (ET_fromstring : str -> option Element)
    (ET_tostring : Element -> option str) (code_text : str) :
  let r := extract_code_from_possible_stage_xml ET_fromstring ET_tostring
             code_text in
  snd r = py "code" \/ snd r = py "raw" ->
  normalize_code (fst r) = fst r.
Proof.
  cbv zeta.
  destruct (extract_cases ET_fromstring ET_tostring code_text)
    as [E|[E|[(t & E)|E]]]; rewrite E; cbn [fst snd]; intros H.
  - reflexivity.
  - apply normalize_code_idempotent.
  - apply normalize_code_idempotent.
  - destruct H as [H|H]; discriminate H.
Qed.

Lemma extract_code_raw_normalized_witness :
  let parse := fun _ : str =>
    Some (Elem (py "stage") None None
            [Elem (py "code") (Some (py "foo  " ++ [CR; NL] ++ py "bar "))
               None []]) in
  let ser := fun _ : Element => @None str in
  let r := extract_code_from_possible_stage_xml parse ser
             (py "<stage><code>x</code></stage>") in
  r = (py "foo" ++ [NL] ++ py "bar", py "code")
  /\ normalize_code (fst r) = fst r.
Proof.
  cbv zeta. split; [reflexivity|].
  apply (extract_code_raw_normalized _ (fun _ => None)
           (py "<stage><code>x</code></stage>")).
  left. reflexivity.
Defined.

(** ** Display line count *)

Lemma count_display_lines_empty_differs :
  count_display_lines [] <> (Z.of_nat (count_char NL []) + 1)%Z.
Proof. discriminate. Qed.

(** C2 (amended): for every non-empty text the display line count is the
    number of line breaks plus one, nothing being normalized, trimmed or
    collapsed first; for the empty text it is 0. *)
Theorem count_display_lines_spec (text : str) :
  (text <> [] ->
   count_display_lines text = (Z.of_nat (count_char NL text) + 1)%Z)
  /\ (text = [] -> count_display_lines text = 0%Z).
Proof.
  split.
  - destruct text; [congruence | reflexivity].
  - intros ->. reflexivity.
Qed.

Lemma count_display_lines_spec_witness :
  count_display_lines ([NL] ++ py "  a " ++ [NL; NL]) = 4%Z.
Proof.
  apply (proj1 (count_display_lines_spec ([NL] ++ py "  a " ++ [NL; NL]))).
  discriminate.
Defined.

(** ** Language resolution *)

Lemma infer_language_with_hint (language code : str) :
  nonempty (strip language)
  && negb (str_eqb (lower (strip language)) (py "unknown")) = true ->
  infer_language_from_code language code = strip language.
Proof. intros H. unfold infer_language_from_code. now rewrite H. Qed.

Lemma infer_language_without_hint (language code : str) :
  nonempty (strip language)
  && negb (str_eqb (lower (strip language)) (py "unknown")) = false ->
  infer_language_from_code language code =
  infer_language_from_code [] code.
Proof.
  intros H. unfold infer_language_from_code. rewrite H. reflexivity.
Qed.

(** C3: with the hint "vb.net" the language resolves to "VB" for every
    code content: the hint is returned before any inference from the
    content, and the synonym table canonicalizes it, whatever its case. *)
Theorem hint_vb_net_resolves_to_VB (c : str) :
  normalize_language (infer_language_from_code (py "vb.net") c) = py "VB"
  /\ normalize_language (infer_language_from_code (py "VB.Net") c) = py "VB".
Proof.
  split; (rewrite infer_language_with_hint; [reflexivity | reflexivity]).
Qed.

(** ** The single-line conditional *)

(** C1, on the code: the pipeline for "VB" turns the one-line conditional
    into four lines, the else part left behind the closing line, and not
    into the five lines of the block; the mid-line keyword split cuts the
    line before its Else, so step 3, which alone makes the five lines,
    never sees the whole conditional. *)
Theorem vb_one_line_if_else_output :
  pretty_print_code (py "If x > 0 Then y = 1 Else y = 2") (py "VB")
  = join [NL] [py "If x > 0 Then"; py "    y = 1"; py "End If";
               py "Else y = 2"]
  /\ split_midline_vb_statements (py "If x > 0 Then y = 1 Else y = 2")
     = [py "If x > 0 Then y = 1"; py "Else y = 2"]
  /\ vb_if_step [] (py "If x > 0 Then y = 1 Else y = 2")
     = [py "If x > 0 Then"; py "    y = 1"; py "Else"; py "    y = 2";
        py "End If"]
  /\ pretty_print_code (py "If x > 0 Then y = 1 Else y = 2") (py "VB")
     <> join [NL] [py "If x > 0 Then"; py "    y = 1"; py "Else";
                   py "    y = 2"; py "End If"].
Proof.
  split; [|split; [|split]]; try (vm_compute; reflexivity).
  vm_compute. discriminate.
Qed.

(** ** The brace-depth indentation counter *)

Lemma strip_head (s r : str) (c : ascii) :
  strip s = c :: r -> isspace c = false.
Proof.
  unfold strip. destruct (lstrip s) as [|a l] eqn:E; [discriminate|].
  apply lstrip_head in E. rewrite rstrip_cons, E. simpl negb.
  rewrite orb_true_r. now intros [= <- _].
Qed.

Lemma rstrip_nonspace_head (c : ascii) (s : str) :
  isspace c = false -> rstrip (c :: s) = c :: rstrip s.
Proof. intros H. rewrite rstrip_cons, H. simpl negb. now rewrite orb_true_r. Qed.

Lemma collapse_step_out (st : collapse_state) (ch : ascii) :
  exists suffix, c_out (collapse_step st ch) = c_out st ++ suffix.
Proof.
  unfold collapse_step.
  destruct (in_str st), (esc st), (Ascii.eqb ch BSL), (Ascii.eqb ch DQ),
    (isspace ch), (prev_space st); cbn [c_out];
    first [ now exists [ch] | now exists (py " ") | exists []; now rewrite app_nil_r ].
Qed.

Lemma collapse_fold_out (line : str) (st : collapse_state) :
  exists suffix,
    c_out (fold_left collapse_step line st) = c_out st ++ suffix.
Proof.
  revert st. induction line as [|ch line IH]; intros st.
  - exists []. now rewrite app_nil_r.
  - simpl. destruct (IH (collapse_step st ch)) as (s2 & E2).
    destruct (collapse_step_out st ch) as (s1 & E1).
    exists (s1 ++ s2). now rewrite E2, E1, app_assoc.
Qed.

(** A line that starts with a character other than whitespace keeps it. *)
Lemma collapse_keeps_head (c : ascii) (rest : str) :
  isspace c = false ->
  exists r, collapse_spaces_outside_strings (c :: rest) = c :: r.
Proof.
  intros Hc. unfold collapse_spaces_outside_strings. simpl fold_left.
  destruct (collapse_fold_out rest
              (collapse_step (CollapseState [] false false false) c))
    as (suffix & E).
  rewrite E. unfold collapse_step. cbn [in_str c_out].
  destruct (Ascii.eqb c DQ); [|rewrite Hc]; cbn [c_out app];
    rewrite rstrip_nonspace_head by assumption; eauto.
Qed.

(** One step of the loop keeps the counter at or above zero and appends
    at most one line, indented by the counter. *)
Lemma cs_indent_step_spec (indent : Z) (out : list str) (raw : str) :
  (0 <= indent)%Z ->
  exists indent' emitted,
    cs_indent_step (indent, out) raw = (indent', out ++ emitted)
    /\ (0 <= indent')%Z
    /\ (emitted = [] \/ emitted = [[]]
        \/ exists i c body,
             (0 <= i)%Z /\ isspace c = false
             /\ emitted = [str_mul (py "    ") i ++ c :: body]).
Proof.
  intros Hi. unfold cs_indent_step.
  destruct (strip raw) as [|c r] eqn:E; cbn [nonempty negb].
  - destruct (nonempty out && negb (str_eqb (last out []) [])).
    + exists indent, [[]]. auto.
    + exists indent, []. rewrite app_nil_r. auto.
  - pose proof (strip_head _ _ _ E) as Hc.
    destruct (collapse_keeps_head c r Hc) as (body & ->).
    eexists _, [_]. split; [reflexivity|]. split.
    + destruct (_ <? 0)%Z eqn:L; [lia | now apply Z.ltb_ge in L].
    + right; right. eexists _, c, body. split; [|split; [exact Hc | reflexivity]].
      destruct (startswith (py "}") (c :: body)); lia.
Qed.

Lemma cs_indent_loop_spec (lines : list str) (indent : Z) (out : list str) :
  (0 <= indent)%Z -> Forall indented_line out ->
  (0 <= fst (fold_left cs_indent_step lines (indent, out)))%Z
  /\ Forall indented_line (snd (fold_left cs_indent_step lines (indent, out))).
Proof.
  revert indent out. induction lines as [|raw lines IH]; intros indent out Hi Ho.
  - now split.
  - cbn [fold_left].
    destruct (cs_indent_step_spec indent out raw Hi)
      as (indent' & emitted & E & Hi' & He).
    rewrite E. apply IH; [assumption|]. apply Forall_app. split; [assumption|].
    destruct He as [->|[->|(i & c & body & H0 & Hc & ->)]].
    + constructor.
    + constructor; [now left | constructor].
    + constructor; [|constructor]. right. now exists i, c, body.
Qed.

(** C4: the indentation counter of the C# formatter is never negative:
    after any sequence of lines it is at least 0, every line of the
    output is empty or is a non-negative number of indent units followed
    by text that starts with a non-blank character, and the input
    "}}}code();" gives lines at indent 0 only. *)
Theorem csharp_indent_never_negative :
  (forall lines : list str,
     (0 <= fst (fold_left cs_indent_step lines (0%Z, [])))%Z)
  /\ (forall code : str,
        exists out : list str,
          pretty_print_csharp_braces code = strip (join [NL] out)
          /\ Forall indented_line out)
  /\ pretty_print_csharp_braces (py "}}}code();")
     = join [NL] [py "}"; []; py "}"; []; py "}"; py "code();"].
Proof.
  split; [|split].
  - intros lines. apply cs_indent_loop_spec; [lia | constructor].
  - intros code. unfold pretty_print_csharp_braces.
    destruct (nonempty (split_csharp_one_liners code)); cbn [negb].
    + set (lines := split NL _).
      pose proof (cs_indent_loop_spec lines 0 [] (Z.le_refl 0) (Forall_nil _))
        as [_ H].
      destruct (fold_left cs_indent_step lines (0%Z, [])) as [i out].
      now exists out.
    + exists []. split; [reflexivity | constructor].
  - vm_compute. reflexivity.
Qed.

(** ** The URL list of the findings *)

Lemma str_leb_total (a b : str) : str_leb a b = false -> str_leb b a = true.
Proof.
  revert b. induction a as [|x a IH]; intros [|y b]; simpl; try easy.
  destruct (code x <? code y) eqn:L1; [easy|].
  destruct (code y <? code x) eqn:L2; [easy|]. apply IH.
Qed.

Lemma str_leb_trans (a b c : str) :
  str_leb a b = true -> str_leb b c = true -> str_leb a c = true.
Proof.
  revert b c. induction a as [|x a IH]; intros [|y b] [|z c]; simpl; try easy.
  destruct (code x <? code y) eqn:L1, (code y <? code x) eqn:L2,
    (code y <? code z) eqn:L3, (code z <? code y) eqn:L4,
    (code x <? code z) eqn:L5, (code z <? code x) eqn:L6;
    try easy;
    repeat match goal with
      | H : (_ <? _) = true |- _ => apply Nat.ltb_lt in H
      | H : (_ <? _) = false |- _ => apply Nat.ltb_ge in H
      end; try lia.
  apply IH.
Qed.

Lemma In_insert_sorted (x a : str) (l : list str) :
  In x (insert_sorted a l) <-> x = a \/ In x l.
Proof.
  induction l as [|y l IH]; simpl; [intuition|].
  destruct (str_leb a y); simpl; rewrite ?IH; intuition.
Qed.

Lemma NoDup_insert_sorted (a : str) (l : list str) :
  ~ In a l -> NoDup l -> NoDup (insert_sorted a l).
Proof.
  induction l as [|y l IH]; intros Ha Hl; simpl.
  - now repeat constructor.
  - destruct (str_leb a y); [now constructor|].
    inversion Hl; subst. constructor.
    + rewrite In_insert_sorted. intros [->|H]; [apply Ha; now left | auto].
    + apply IH; [|assumption]. intros H. apply Ha. now right.
Qed.

Lemma sorted_insert_sorted (a : str) (l : list str) :
  StronglySorted str_le l -> StronglySorted str_le (insert_sorted a l).
Proof.
  induction 1 as [|y l Hl IH Hy]; simpl; [now repeat constructor|].
  destruct (str_leb a y) eqn:E.
  - constructor; [now constructor|]. constructor; [exact E|].
    eapply Forall_impl; [|exact Hy]. intros z Hz.
    eapply str_leb_trans; eassumption.
  - constructor; [exact IH|]. apply Forall_forall. intros z Hz.
    apply In_insert_sorted in Hz. destruct Hz as [->|Hz].
    + now apply str_leb_total.
    + rewrite Forall_forall in Hy. now apply Hy.
Qed.

Lemma insertion_sort_spec (d : list str) :
  NoDup d ->
  NoDup (fold_right insert_sorted [] d)
  /\ StronglySorted str_le (fold_right insert_sorted [] d)
  /\ (forall x, In x (fold_right insert_sorted [] d) <-> In x d)
  /\ length (fold_right insert_sorted [] d) = length d.
Proof.
  induction 1 as [|a d Ha Hd IH]; simpl.
  - split; [constructor|]. split; [constructor|]. now split.
  - destruct IH as (I1 & I2 & I3 & I4).
    split; [|split; [|split]].
    + apply NoDup_insert_sorted; [now rewrite I3 | assumption].
    + now apply sorted_insert_sorted.
    + intros x. rewrite In_insert_sorted, I3. intuition.
    + rewrite <- I4. clear. induction (fold_right insert_sorted [] d) as [|y r IH];
        simpl; [reflexivity|]. destruct (str_leb a y); simpl; congruence.
Qed.

Lemma sorted_set_spec (l : list str) :
  NoDup (sorted_set l) /\ StronglySorted str_le (sorted_set l)
  /\ (forall x, In x (sorted_set l) <-> In x l)
  /\ length (sorted_set l) = length (nodup str_dec l).
Proof.
  destruct (insertion_sort_spec (nodup str_dec l) (NoDup_nodup str_dec l))
    as (H1 & H2 & H3 & H4).
  split; [exact H1|]. split; [exact H2|]. split; [|exact H4].
  intros x. unfold sorted_set. fold str_dec. now rewrite H3, nodup_In.
Qed.

Lemma In_firstn {A : Type} (n : nat) (l : list A) (x : A) :
  In x (firstn n l) -> In x l.
Proof.
  revert n. induction l as [|a l IH]; intros [|n]; simpl; try easy.
  intros [H|H]; [now left | right; eauto].
Qed.

Lemma NoDup_firstn {A : Type} (n : nat) (l : list A) :
  NoDup l -> NoDup (firstn n l).
Proof.
  revert n. induction l as [|a l IH]; intros [|n] H; simpl; try constructor.
  - inversion H; subst. intros Hin. apply In_firstn in Hin. contradiction.
  - inversion H; subst. now apply IH.
Qed.

Lemma sorted_firstn (n : nat) (l : list str) :
  StronglySorted str_le l -> StronglySorted str_le (firstn n l).
Proof.
  revert n. induction l as [|a l IH]; intros [|n] H; simpl; try constructor.
  - inversion H; subst. now apply IH.
  - inversion H; subst. apply Forall_forall. intros x Hx.
    apply In_firstn in Hx. rewrite Forall_forall in H3. now apply H3.
Qed.

(** C8, as stated, fails on 51 distinct URLs: the greatest of them is
    matched but is cut from the list. *)
Lemma urls_truncation_drops_a_match :
  In (py "http://z") (re_findall url_pattern fifty_one_urls)
  /\ count_occ str_dec (urls (simple_code_findings fifty_one_urls))
       (py "http://z") = 0.
Proof. split; vm_compute; auto 60. Qed.

Lemma sorted_app_le (a b : list str) :
  StronglySorted str_le (a ++ b) ->
  forall x y, In x a -> In y b -> str_le x y.
Proof.
  induction a as [|c a IH]; intros H x y Hx Hy; [destruct Hx|].
  cbn [app] in H. inversion H as [|? ? Hs Hf]; subst.
  destruct Hx as [->|Hx]; [|now apply IH].
  rewrite Forall_forall in Hf. apply Hf. apply in_or_app. now right.
Qed.

(** C8 (amended): the urls list is the first 50 entries of the sorted
    list of the distinct matched URLs. It has no duplicates, is sorted
    lexicographically, holds matched URLs only, and its length is the
    smaller of 50 and the number of distinct matches; with what was cut
    put back after it, it is still sorted and without duplicates and
    holds exactly the matched URLs. A matched URL is absent only when
    the list has 50 entries, each of them smaller than that URL; so
    every matched URL is in it exactly once when there are at most 50
    distinct matches. Two occurrences of one URL give it once. *)
Theorem urls_deduplicated_sorted_capped (code : str) :
  let us := urls (simple_code_findings code) in
  let ms := re_findall url_pattern code in
  NoDup us
  /\ StronglySorted str_le us
  /\ length us <= 50
  /\ (forall u, In u us -> In u ms)
  /\ (forall u, count_occ str_dec us u <= 1)
  /\ (length (nodup str_dec ms) <= 50 ->
      forall u, In u ms -> count_occ str_dec us u = 1)
  /\ length us = Nat.min 50 (length (nodup str_dec ms))
  /\ (exists rest,
        NoDup (us ++ rest) /\ StronglySorted str_le (us ++ rest)
        /\ forall u, In u (us ++ rest) <-> In u ms)
  /\ (forall u, In u ms -> ~ In u us ->
      length us = 50 /\ forall v, In v us -> str_le v u /\ v <> u)
  /\ urls (simple_code_findings
             (py "see http://a.b/c and again http://a.b/c"))
     = [py "http://a.b/c"].
Proof.
  cbv zeta. cbn [urls simple_code_findings].
  destruct (sorted_set_spec (re_findall url_pattern code))
    as (H1 & H2 & H3 & H4).
  assert (Hnd : NoDup (firstn 50 (sorted_set (re_findall url_pattern code))))
    by now apply NoDup_firstn.
  pose proof (firstn_skipn 50 (sorted_set (re_findall url_pattern code)))
    as Hsplit.
  split; [|split; [|split; [|split; [|split; [|split; [|split;
    [|split; [|split]]]]]]]].
  - exact Hnd.
  - now apply sorted_firstn.
  - apply firstn_le_length.
  - intros u Hu. apply H3. eapply In_firstn; eassumption.
  - intros u. now apply (proj1 (NoDup_count_occ str_dec _)).
  - intros Hlen u Hu. apply (proj1 (NoDup_count_occ' str_dec _) Hnd).
    rewrite firstn_all2 by (rewrite H4; exact Hlen). now apply H3.
  - now rewrite length_firstn, H4.
  - exists (skipn 50 (sorted_set (re_findall url_pattern code))).
    rewrite Hsplit. split; [exact H1 | split; [exact H2 | exact H3]].
  - intros u Hu Hnot. apply H3 in Hu. rewrite <- Hsplit in Hu, H2.
    apply in_app_or in Hu. destruct Hu as [Hu|Hu]; [contradiction|].
    split.
    + rewrite length_firstn. apply Nat.min_l.
      destruct (Nat.le_gt_cases
                  (length (sorted_set (re_findall url_pattern code))) 50)
        as [L|L]; [|lia].
      rewrite skipn_all2 in Hu by exact L. destruct Hu.
    + intros v Hv. split; [now apply (sorted_app_le _ _ H2)|].
      intros ->. contradiction.
  - vm_compute. reflexivity.
Qed.

Lemma urls_deduplicated_sorted_capped_witness :
  let code := py "x https://b.org y http://a.b/c z https://b.org" in
  (length (nodup str_dec (re_findall url_pattern code)) <= 50
   /\ count_occ str_dec (urls (simple_code_findings code)) (py "https://b.org")
      = 1)
  /\ (In (py "http://z") (re_findall url_pattern fifty_one_urls)
      /\ ~ In (py "http://z") (urls (simple_code_findings fifty_one_urls))
      /\ length (urls (simple_code_findings fifty_one_urls)) = 50
      /\ str_le (py "http://y") (py "http://z")).
Proof.
  cbv zeta.
  assert (Hin : In (py "http://z") (re_findall url_pattern fifty_one_urls))
    by (vm_compute; auto 60).
  assert (Hout : ~ In (py "http://z")
                     (urls (simple_code_findings fifty_one_urls))).
  { apply (proj2 (count_occ_not_In str_dec _ _)). vm_compute. reflexivity. }
  split; [split; [vm_compute; lia|] | split; [exact Hin | split;
    [exact Hout | split]]].
  - apply (proj1 (proj2 (proj2 (proj2 (proj2 (proj2
             (urls_deduplicated_sorted_capped
                (py "x https://b.org y http://a.b/c z https://b.org")))))))).
    + vm_compute. lia.
    + vm_compute. auto.
  - exact (proj1 (proj1 (proj2 (proj2 (proj2 (proj2 (proj2 (proj2 (proj2
             (proj2 (urls_deduplicated_sorted_capped fifty_one_urls)))))))))
             (py "http://z") Hin Hout)).
  - apply (proj2 (proj1 (proj2 (proj2 (proj2 (proj2 (proj2 (proj2 (proj2
             (proj2 (urls_deduplicated_sorted_capped fifty_one_urls)))))))))
             (py "http://z") Hin Hout) (py "http://y")).
    vm_compute. auto 60.
Defined.

(** ** The matcher finds a match when there is one *)

Lemma rep_complete (p : ascii -> bool) (lo : nat) (greedy : bool)
    (k : mstate -> option mstate) (g : list (nat * str))
    (taken aft : str) (n : nat) (bef : str) :
  forallb p taken = true -> lo <= n + length taken ->
  k (MState (rev taken ++ bef) aft g) <> None ->
  rep p lo None greedy k g n bef (taken ++ aft) <> None.
Proof.
  revert n bef. induction taken as [|c taken IH]; intros n bef Hp Hlo Hk.
  - simpl in *. assert (E : (lo <=? n) = true) by (apply Nat.leb_le; lia).
    destruct aft as [|a aft]; simpl; rewrite E; destruct greedy.
    + exact Hk.
    + now destruct (k (MState bef [] g)).
    + destruct (p a && true); [|exact Hk].
      now destruct (rep p lo None true k g (S n) (a :: bef) aft).
    + now destruct (k (MState bef (a :: aft) g)).
  - simpl in Hp. apply andb_prop in Hp. destruct Hp as [Hc Hp].
    assert (Hrec : rep p lo None greedy k g (S n) (c :: bef) (taken ++ aft)
                   <> None).
    { apply IH; [assumption | simpl in Hlo; lia |].
      simpl in Hk. now rewrite <- app_assoc in Hk. }
    simpl. rewrite Hc. simpl. destruct greedy.
    + now destruct (rep p lo None true k g (S n) (c :: bef) (taken ++ aft)).
    + now destruct (if lo <=? n then k (MState bef (c :: taken ++ aft) g)
                    else None).
Qed.

Lemma search_from_complete (r : regex) (pre bef s : str) :
  match_here r (rev pre ++ bef) s <> None ->
  search_from r bef (pre ++ s) <> None.
Proof.
  revert bef. induction pre as [|c pre IH]; intros bef H.
  - simpl in *. destruct s; simpl;
      now destruct (match_here r bef _).
  - simpl. destruct (match_here r bef (c :: pre ++ s)); [easy|].
    apply IH. simpl in H. now rewrite <- app_assoc in H.
Qed.

Lemma re_search_complete (r : regex) (pre s : str) :
  match_here r (rev pre) s <> None -> re_search r (pre ++ s) = true.
Proof.
  intros H. unfold re_search.
  pose proof (search_from_complete r pre [] s) as H'.
  rewrite app_nil_r in H'. specialize (H' H).
  now destruct (search_from r [] (pre ++ s)).
Qed.

(** ** Case folding *)

Lemma isword_lower_char (x : ascii) : isword (lower_char x) = isword x.
Proof. destruct x as [[] [] [] [] [] [] [] []]; reflexivity. Qed.

Lemma isspace_lower_char (x : ascii) : isspace (lower_char x) = isspace x.
Proof. destruct x as [[] [] [] [] [] [] [] []]; reflexivity. Qed.

Lemma lower_char_NL (x : ascii) :
  Ascii.eqb (lower_char x) NL = Ascii.eqb x NL.
Proof. destruct x as [[] [] [] [] [] [] [] []]; reflexivity. Qed.

Lemma lower_app (a b : str) : lower (a ++ b) = lower a ++ lower b.
Proof. apply map_app. Qed.

Lemma str_eqb_eq (a b : str) : str_eqb a b = true <-> a = b.
Proof.
  revert b. induction a as [|x a IH]; intros [|y b]; simpl; try easy.
  rewrite andb_true_iff, IH, Ascii.eqb_eq. split.
  - now intros [-> ->].
  - now intros [= -> ->].
Qed.

(** ** Language inference from content *)

Lemma hint_absent_test (language : str) :
  hint_absent language ->
  nonempty (strip language)
  && negb (str_eqb (lower (strip language)) (py "unknown")) = false.
Proof.
  intros [H|H]; rewrite H; [reflexivity|].
  destruct (strip language); reflexivity.
Qed.

Lemma line_start_rev_lower (pre : str) :
  at_line_start pre ->
  rev (lower pre) = [] \/ exists b, rev (lower pre) = NL :: b.
Proof.
  intros [->|(p & ->)]; [now left|]. right.
  rewrite lower_app, rev_app_distr. now eexists.
Qed.

Lemma word_ends_lower (rest : str) : word_ends rest -> word_ends (lower rest).
Proof.
  destruct rest as [|x r]; [easy|]. simpl. now rewrite isword_lower_char.
Qed.

Lemma forallb_isspace_lower (ws : str) :
  forallb isspace (lower ws) = forallb isspace ws.
Proof.
  induction ws as [|x ws IH]; [reflexivity|].
  simpl. now rewrite isspace_lower_char, IH.
Qed.

Lemma forallb_is_dot_lower (s : str) :
  forallb is_dot (lower s) = forallb is_dot s.
Proof.
  induction s as [|x s IH]; [reflexivity|].
  simpl. unfold is_dot at 1 3. now rewrite lower_char_NL, IH.
Qed.

Lemma rmatch_RLit (s : str) (k : mstate -> option mstate)
    (bef aft : str) (g : list (nat * str)) :
  rmatch (RLit s) k (MState bef (s ++ aft) g) = k (MState (rev s ++ bef) aft g).
Proof.
  revert bef. induction s as [|c s IH]; intros bef; [reflexivity|].
  destruct s as [|c' s'].
  - simpl. unfold is_char. now rewrite Ascii.eqb_refl.
  - change (RLit (c :: c' :: s'))
      with (RSeq (RChar (is_char c)) (RLit (c' :: s'))).
    cbn [rmatch after before groups app]. unfold is_char at 1.
    rewrite Ascii.eqb_refl.
    change (c' :: s' ++ aft) with ((c' :: s') ++ aft). rewrite IH.
    f_equal. f_equal. change (rev (c :: c' :: s')) with (rev (c' :: s') ++ [c]).
    now rewrite <- app_assoc.
Qed.

Lemma rmatch_RAlts_in (r : regex) (rs : list regex)
    (k : mstate -> option mstate) (st : mstate) :
  In r rs -> rmatch r k st <> None -> rmatch (RAlts rs) k st <> None.
Proof.
  induction rs as [|r1 rs IH]; intros Hin Hr; [contradiction|].
  destruct rs as [|r2 rs'].
  - destruct Hin as [->|[]]. exact Hr.
  - change (RAlts (r1 :: r2 :: rs')) with (RAlt r1 (RAlts (r2 :: rs'))).
    cbn [rmatch]. destruct (rmatch r1 k st) eqn:E; [easy|].
    destruct Hin as [->|Hin]; [congruence|]. now apply IH.
Qed.

Lemma at_bol_shape (bef aft : str) (g : list (nat * str)) :
  bef = [] \/ (exists b, bef = NL :: b) -> at_bol (MState bef aft g) = true.
Proof. intros [->|(b & ->)]; reflexivity. Qed.

Lemma wordb_after_word (c : ascii) (bef aft : str) (g : list (nat * str)) :
  isword c = true -> word_ends aft ->
  at_wordb (MState (c :: bef) aft g) = true.
Proof.
  intros Hc Hw. unfold at_wordb. cbn [before after]. rewrite Hc.
  destruct aft as [|x aft]; [reflexivity|]. simpl in Hw. now rewrite Hw.
Qed.

Lemma wordb_before_word (c : ascii) (bef aft : str) (g : list (nat * str)) :
  isword c = true -> word_ends bef ->
  at_wordb (MState bef (c :: aft) g) = true.
Proof.
  intros Hc Hw. unfold at_wordb. cbn [before after]. rewrite Hc.
  destruct bef as [|x bef]; [reflexivity|]. simpl in Hw. now rewrite Hw.
Qed.

Lemma keyword_line_matches (bef ws kw aft : str) :
  bef = [] \/ (exists b, bef = NL :: b) ->
  forallb isspace ws = true -> In kw vb_signal_keywords -> word_ends aft ->
  match_here vb_signal_keyword bef (ws ++ kw ++ aft) <> None.
Proof.
  intros Hb Hws Hkw Hw. unfold match_here, vb_signal_keyword.
  cbn [RSeqs rmatch before after groups]. rewrite at_bol_shape by assumption.
  unfold RStar. apply rep_complete; [assumption | lia |].
  cbn [rmatch before after groups].
  apply rmatch_RAlts_in with (r := RLit kw); [now apply in_map|].
  rewrite rmatch_RLit. cbn [before after groups].
  assert (Hlast : exists c r, rev kw = c :: r /\ isword c = true).
  { unfold vb_signal_keywords in Hkw. simpl in Hkw.
    repeat (destruct Hkw as [<-|Hkw]; [eexists _, _; split; reflexivity|]).
    contradiction. }
  destruct Hlast as (c & r & -> & Hc). cbn [app].
  now rewrite wordb_after_word.
Qed.

Lemma if_then_line_matches (bef ws sp expr aft : str) :
  bef = [] \/ (exists b, bef = NL :: b) ->
  forallb isspace ws = true ->
  sp <> [] -> forallb isspace sp = true ->
  forallb is_dot expr = true -> word_ends (rev (sp ++ expr)) ->
  word_ends aft ->
  match_here vb_signal_if_then bef
    (ws ++ py "if" ++ sp ++ expr ++ py "then" ++ aft) <> None.
Proof.
  intros Hb Hws Hne Hsp Hex Hwb Hw. unfold match_here, vb_signal_if_then.
  cbn [RSeqs rmatch before after groups]. rewrite at_bol_shape by assumption.
  unfold RStar, RPlus. apply rep_complete; [assumption | lia |].
  rewrite rmatch_RLit. cbn [rmatch before after groups].
  apply rep_complete; [assumption | destruct sp; [congruence | simpl; lia] |].
  cbn [rmatch before after groups].
  apply rep_complete; [assumption | lia |].
  cbn [rmatch before after groups].
  assert (Hx : exists x r, rev (sp ++ expr) = x :: r /\ isword x = false).
  { destruct (rev (sp ++ expr)) as [|x r] eqn:E.
    - apply (f_equal (@length ascii)) in E.
      rewrite length_rev, length_app in E. destruct sp; simpl in E;
        [congruence | lia].
    - now exists x, r. }
  destruct Hx as (x & r & Ex & Hx).
  rewrite (app_assoc (rev expr)), <- rev_app_distr, Ex.
  change (py "then" ++ aft) with ("t"%char :: py "hen" ++ aft).
  cbn [app]. rewrite wordb_before_word by (reflexivity || exact Hx).
  change ("t"%char :: py "hen" ++ aft) with (py "then" ++ aft).
  rewrite rmatch_RLit. cbn [rmatch before after groups].
  change (rev (py "then")) with ("n"%char :: py "eht"). cbn [app].
  now rewrite wordb_after_word.
Qed.

Lemma keyword_line_signal (c : str) :
  has_vb_keyword_line c -> re_search vb_signal_keyword (lower c) = true.
Proof.
  intros (pre & ws & kw & rest & -> & Hpre & Hws & Hkw & Hrest).
  rewrite lower_app. apply re_search_complete. rewrite !lower_app.
  apply keyword_line_matches.
  - now apply line_start_rev_lower.
  - now rewrite forallb_isspace_lower.
  - assumption.
  - now apply word_ends_lower.
Qed.

Lemma if_then_line_signal (c : str) :
  has_vb_if_then_line c -> re_search vb_signal_if_then (lower c) = true.
Proof.
  intros (pre & ws & kwi & sp & expr & kwt & rest & -> & Hpre & Hws & Hi
          & Hne & Hsp & Hex & Hwb & Ht & Hrest).
  rewrite lower_app. apply re_search_complete. rewrite !lower_app, Hi, Ht.
  apply if_then_line_matches.
  - now apply line_start_rev_lower.
  - now rewrite forallb_isspace_lower.
  - destruct sp; [congruence | discriminate].
  - now rewrite forallb_isspace_lower.
  - now rewrite forallb_is_dot_lower.
  - rewrite <- lower_app. unfold lower. rewrite <- map_rev.
    now apply word_ends_lower.
  - now apply word_ends_lower.
Qed.

(** C7: without a hint, the signatures of "VB" are tried before those of
    "C#" and the first match decides: a content with a line that matches
    a "VB" signal (a line beginning with Dim or another keyword of the
    list, or a line that starts with If, an expression and Then) is "VB"
    even when it also holds an opening brace, a closing brace and a
    semicolon; a content that matches no signal is "Unknown". *)
Theorem vb_signals_checked_first (language c : str) :
  hint_absent language ->
  (re_search vb_signal_keyword (lower c) = true
   \/ re_search vb_signal_if_then (lower c) = true ->
   infer_language_from_code language c = py "VB")
  /\ (has_vb_keyword_line c \/ has_vb_if_then_line c ->
      infer_language_from_code language c = py "VB")
  /\ (re_search vb_signal_keyword (lower c) = false ->
      re_search vb_signal_if_then (lower c) = false ->
      re_search cs_signal_keyword (lower c) = false ->
      contains (py "{") c && contains (py "}") c && contains (py ";") c
      = false ->
      infer_language_from_code language c = py "Unknown").
Proof.
  intros Hh. apply hint_absent_test in Hh.
  assert (Hsig : re_search vb_signal_keyword (lower c) = true
                 \/ re_search vb_signal_if_then (lower c) = true ->
                 infer_language_from_code language c = py "VB").
  { intros H. unfold infer_language_from_code. rewrite Hh.
    destruct (re_search vb_signal_keyword (lower c)); [reflexivity|].
    destruct H as [H|H]; [discriminate | now rewrite H]. }
  split; [exact Hsig|]. split.
  - intros [H|H]; apply Hsig.
    + left. now apply keyword_line_signal.
    + right. now apply if_then_line_signal.
  - intros H1 H2 H3 H4. unfold infer_language_from_code.
    now rewrite Hh, H1, H2, H3, H4.
Qed.

Lemma vb_signals_checked_first_witness :
  hint_absent (py " Unknown ")
  /\ has_vb_keyword_line (py "{ x; }" ++ [NL] ++ py "  Dim y As Integer")
  /\ infer_language_from_code (py " Unknown ")
       (py "{ x; }" ++ [NL] ++ py "  Dim y As Integer") = py "VB"
  /\ infer_language_from_code (py " Unknown ") (py "banana") = py "Unknown".
Proof.
  assert (Hh : hint_absent (py " Unknown ")) by (right; reflexivity).
  assert (Hk : has_vb_keyword_line
                 (py "{ x; }" ++ [NL] ++ py "  Dim y As Integer")).
  { exists (py "{ x; }" ++ [NL]), (py "  "), (py "Dim"), (py " y As Integer").
    split; [reflexivity|]. split; [right; now exists (py "{ x; }")|].
    split; [reflexivity|]. split; [now left | reflexivity]. }
  split; [exact Hh|]. split; [exact Hk|]. split.
  - apply (proj1 (proj2 (vb_signals_checked_first _ _ Hh))). now left.
  - apply (proj2 (proj2 (vb_signals_checked_first _ _ Hh))); reflexivity.
Defined.

(** The examples of the design document, and an ambiguous content. *)
Lemma infer_language_examples :
  infer_language_from_code [] (py "public class X { }") = py "C#"
  /\ infer_language_from_code [] (py "Dim x As Integer") = py "VB"
  /\ infer_language_from_code [] (py "banana") = py "Unknown"
  /\ infer_language_from_code [] (py "If x > 0 Then { y = 1; }") = py "VB"
  /\ infer_language_from_code [] (py "x = { 1; }") = py "C#".
Proof. repeat split; vm_compute; reflexivity. Qed.

(** ** Lines of a stripped text *)

Lemma nae_tail (l : str) (t : list str) :
  no_adjacent_empty (l :: t) -> no_adjacent_empty t.
Proof. now intros [_ H]. Qed.

Lemma nae_tl (ls : list str) :
  no_adjacent_empty ls -> no_adjacent_empty (tl ls).
Proof. destruct ls; [easy | apply nae_tail]. Qed.

Lemma nae_cons_nonempty (l : str) (t : list str) :
  l <> [] -> no_adjacent_empty t -> no_adjacent_empty (l :: t).
Proof. intros Hl Ht. split; [|exact Ht]. destruct t; [easy | now intros [? _]]. Qed.

Lemma nae_snoc (out : list str) (x : str) :
  no_adjacent_empty out ->
  x <> [] \/ out = [] \/ last out [] <> [] ->
  no_adjacent_empty (out ++ [x]).
Proof.
  induction out as [|l out IH]; intros Hn Hx; [now split|].
  destruct Hn as [Hh Ht]. destruct out as [|l2 out].
  - simpl. split; [|now split]. intros [-> ->].
    destruct Hx as [Hx|[Hx|Hx]]; [now apply Hx | discriminate | now apply Hx].
  - split; [exact Hh|]. apply IH; [exact Ht|].
    destruct Hx as [Hx|[Hx|Hx]]; [now left | discriminate | right; right; exact Hx].
Qed.

Lemma split_head_nil (s h : str) (t : list str) :
  split NL s = h :: t -> h = [] -> s = [] \/ exists s', s = NL :: s'.
Proof.
  destruct s as [|c s]; [now left|]. intros E ->. right.
  destruct (Ascii.eqb_spec c NL) as [->|Hc]; [now exists s|].
  destruct (split_cons_other NL c s Hc) as (h' & t' & _ & E').
  rewrite E' in E. discriminate.
Qed.

Lemma nae_split_lstrip (s : str) :
  no_adjacent_empty (tl (split NL s)) ->
  no_adjacent_empty (split NL (lstrip s)).
Proof.
  induction s as [|c s IH]; intros H; [now split|].
  simpl lstrip. destruct (isspace c) eqn:Ec.
  - apply IH. destruct (Ascii.eqb_spec c NL) as [->|Hc].
    + rewrite split_cons_sep in H. now apply nae_tl.
    + destruct (split_cons_other NL c s Hc) as (h & t & E & E').
      rewrite E' in H. now rewrite E.
  - pose proof (isspace_not_NL c Ec) as Hc.
    destruct (split_cons_other NL c s Hc) as (h & t & E & E').
    rewrite E' in *. now apply nae_cons_nonempty.
Qed.

Lemma nae_split_rstrip (s : str) :
  (no_adjacent_empty (split NL s) ->
   no_adjacent_empty (split NL (rstrip s)))
  /\ (no_adjacent_empty (tl (split NL s)) ->
      no_adjacent_empty (tl (split NL (rstrip s)))).
Proof.
  induction s as [|c s [IHa IHb]]; [now split|].
  rewrite rstrip_cons.
  destruct (nonempty (rstrip s) || negb (isspace c)) eqn:E;
    [|split; intros _; simpl; auto].
  destruct (Ascii.eqb_spec c NL) as [->|Hc].
  - rewrite !split_cons_sep. cbn [tl]. split; [|exact IHa].
    intros [Hh Ht]. split; [|now apply IHa].
    simpl in E. rewrite orb_false_r in E.
    destruct (rstrip s) as [|a r] eqn:Er; [discriminate|].
    destruct (split NL (a :: r)) as [|h' t'] eqn:E1;
      [now apply split_not_nil in E1|].
    intros [_ ->].
    destruct (split_head_nil _ _ _ E1 eq_refl) as [E2|(s' & E2)];
      [discriminate|]. injection E2 as -> _.
    destruct (rstrip_head _ _ _ Er) as (s'' & ->).
    rewrite split_cons_sep in Hh. now apply Hh.
  - destruct (split_cons_other NL c s Hc) as (h & t & E1 & E2).
    destruct (split_cons_other NL c (rstrip s) Hc) as (h' & t' & E3 & E4).
    rewrite E2, E4. rewrite E1 in IHb. rewrite E3 in IHb. cbn [tl] in *.
    split; [|exact IHb].
    intros Hn. apply nae_cons_nonempty; [discriminate|].
    apply IHb. now apply nae_tail in Hn.
Qed.

Lemma nae_split_strip (s : str) :
  no_adjacent_empty (split NL s) -> no_adjacent_empty (split NL (strip s)).
Proof.
  intros H. unfold strip. apply nae_split_rstrip, nae_split_lstrip.
  now apply nae_tl.
Qed.

(** The last step of every formatter: join the lines and strip. *)
Lemma strip_join_lines (out : list str) :
  Forall (fun l => ~ In NL l) out -> no_adjacent_empty out ->
  strip (strip (join [NL] out)) = strip (join [NL] out)
  /\ no_adjacent_empty (split NL (strip (join [NL] out))).
Proof.
  intros Hnl Hn. split; [apply strip_idem|].
  apply nae_split_strip. destruct out as [|l out]; [now split|].
  rewrite split_join; [exact Hn | discriminate | exact Hnl].
Qed.

(** ** Blank lines *)

Lemma lstrip_nil_iff (s : str) : lstrip s = [] <-> forallb isspace s = true.
Proof.
  induction s as [|c s IH]; [easy|].
  simpl. destruct (isspace c); [exact IH | easy].
Qed.

Lemma rstrip_nil_iff (s : str) : rstrip s = [] <-> forallb isspace s = true.
Proof.
  induction s as [|c s IH]; [easy|].
  rewrite rstrip_cons. simpl forallb.
  destruct (rstrip s) as [|a r]; simpl nonempty.
  - destruct (isspace c); simpl; [|easy].
    split; intros _; [now apply IH | reflexivity].
  - simpl. split; [discriminate|]. intros H.
    apply andb_prop in H. destruct H as [_ H]. apply IH in H. discriminate.
Qed.

Lemma strip_nil_iff (s : str) : strip s = [] <-> forallb isspace s = true.
Proof.
  unfold strip. rewrite rstrip_nil_iff. split; intros H.
  - destruct (lstrip s) as [|c r] eqn:E; [now apply lstrip_nil_iff|].
    apply lstrip_head in E. simpl in H. now rewrite E in H.
  - apply lstrip_nil_iff in H. now rewrite H.
Qed.

Lemma strip_nonempty_rstrip (s : str) : strip s <> [] -> rstrip s <> [].
Proof.
  intros H E. apply H. apply strip_nil_iff. now apply rstrip_nil_iff.
Qed.

Lemma In_repeat_str (x : ascii) (s : str) (n : nat) :
  In x (repeat_str s n) -> In x s.
Proof.
  induction n as [|n IH]; [easy|]. simpl. intros H.
  apply in_app_or in H. destruct H; auto.
Qed.

(** ** The path of an unknown language *)

Lemma nw_step_lines (ln : str) (blank_run : nat) (out : list str) :
  ~ In NL ln ->
  Forall (fun l => ~ In NL l) out -> no_adjacent_empty out ->
  (blank_run = 0 -> out = [] \/ last out [] <> []) ->
  exists blank_run' out',
    nw_step (blank_run, out) ln = (blank_run', out')
    /\ Forall (fun l => ~ In NL l) out' /\ no_adjacent_empty out'
    /\ (blank_run' = 0 -> out' = [] \/ last out' [] <> []).
Proof.
  intros Hln Ho Hn Hb. unfold nw_step.
  destruct (str_eqb (strip ln) []) eqn:E.
  - destruct (blank_run + 1 <=? 1) eqn:L.
    + apply Nat.leb_le in L. eexists _, _. split; [reflexivity|].
      split; [|split].
      * apply Forall_app. split; [assumption | now repeat constructor].
      * apply nae_snoc; [assumption|]. right. apply Hb. lia.
      * lia.
    + eexists _, _. split; [reflexivity|]. split; [|split]; try assumption.
      lia.
  - assert (Hne : rstrip ln <> []).
    { apply strip_nonempty_rstrip. intros H. rewrite H in E. discriminate. }
    eexists _, _. split; [reflexivity|]. split; [|split].
    + apply Forall_app. split; [assumption|]. repeat constructor.
      now apply rstrip_no_NL.
    + apply nae_snoc; [assumption | now left].
    + intros _. right. now rewrite last_last.
Qed.

Lemma nw_loop_lines (lines : list str) (blank_run : nat) (out : list str) :
  Forall (fun l => ~ In NL l) lines ->
  Forall (fun l => ~ In NL l) out -> no_adjacent_empty out ->
  (blank_run = 0 -> out = [] \/ last out [] <> []) ->
  Forall (fun l => ~ In NL l) (snd (fold_left nw_step lines (blank_run, out)))
  /\ no_adjacent_empty (snd (fold_left nw_step lines (blank_run, out))).
Proof.
  revert blank_run out.
  induction lines as [|ln lines IH]; intros blank_run out Hl Ho Hn Hb;
    [now split|].
  inversion Hl as [|? ? Hln Hl']; subst. cbn [fold_left].
  destruct (nw_step_lines ln blank_run out Hln Ho Hn Hb)
    as (b' & out' & E & H1 & H2 & H3).
  rewrite E. now apply IH.
Qed.

Lemma normalize_whitespace_lines (code : str) :
  strip (normalize_whitespace code) = normalize_whitespace code
  /\ no_adjacent_empty (split NL (normalize_whitespace code)).
Proof.
  unfold normalize_whitespace.
  set (lines := split NL (replace [TAB] (py "    ") code)).
  pose proof (nw_loop_lines lines 0 [] (split_no_sep NL _) (Forall_nil _) I
                (fun _ => or_introl eq_refl)) as [H1 H2].
  destruct (fold_left nw_step lines (0, [])) as [b out].
  now apply strip_join_lines.
Qed.

(** ** The path of C# *)

Lemma In_collapse_step (x : ascii) (st : collapse_state) (ch : ascii) :
  In x (c_out (collapse_step st ch)) ->
  In x (c_out st) \/ x = ch \/ x = " "%char.
Proof.
  unfold collapse_step.
  destruct (in_str st), (esc st), (Ascii.eqb ch BSL), (Ascii.eqb ch DQ),
    (isspace ch), (prev_space st); cbn [c_out]; intros H;
    try (apply in_app_or in H; destruct H as [H|[<-|[]]]); auto.
Qed.

Lemma In_collapse_fold (x : ascii) (line : str) (st : collapse_state) :
  In x (c_out (fold_left collapse_step line st)) ->
  In x (c_out st) \/ In x line \/ x = " "%char.
Proof.
  revert st. induction line as [|ch line IH]; intros st H; [now left|].
  simpl in H. apply IH in H. destruct H as [H|[H|H]]; auto.
  - apply In_collapse_step in H. destruct H as [H|[->|H]]; auto.
    right; left. now left.
  - right; left. now right.
Qed.

Lemma In_collapse (x : ascii) (line : str) :
  In x (collapse_spaces_outside_strings line) -> In x line \/ x = " "%char.
Proof.
  unfold collapse_spaces_outside_strings. intros H. apply In_rstrip in H.
  apply In_collapse_fold in H. destruct H as [[]|H]. exact H.
Qed.

Lemma cs_indent_step_lines (raw : str) (indent : Z) (out : list str) :
  ~ In NL raw ->
  Forall (fun l => ~ In NL l) out -> no_adjacent_empty out ->
  exists indent' out',
    cs_indent_step (indent, out) raw = (indent', out')
    /\ Forall (fun l => ~ In NL l) out' /\ no_adjacent_empty out'.
Proof.
  intros Hraw Ho Hn. unfold cs_indent_step.
  destruct (strip raw) as [|c r] eqn:E; cbn [nonempty negb].
  - destruct (nonempty out && negb (str_eqb (last out []) [])) eqn:B.
    + eexists _, _. split; [reflexivity|]. split.
      * apply Forall_app. split; [assumption | now repeat constructor].
      * apply nae_snoc; [assumption|]. right; right.
        apply andb_prop in B. destruct B as [_ B]. intros H.
        rewrite H in B. discriminate.
    + eexists _, _. split; [reflexivity|]. now split.
  - pose proof (strip_head _ _ _ E) as Hc.
    destruct (collapse_keeps_head c r Hc) as (body & Eb).
    eexists _, _. split; [reflexivity|]. split.
    + apply Forall_app. split; [assumption|]. repeat constructor.
      intros H. apply in_app_or in H. destruct H as [H|H].
      * apply In_repeat_str in H. simpl in H. intuition discriminate.
      * apply In_collapse in H. destruct H as [H|H]; [|discriminate].
        apply Hraw. apply In_strip. now rewrite E.
    + apply nae_snoc; [assumption|]. left. rewrite Eb.
      now destruct (str_mul _ _).
Qed.

Lemma cs_indent_loop_lines (lines : list str) (indent : Z) (out : list str) :
  Forall (fun l => ~ In NL l) lines ->
  Forall (fun l => ~ In NL l) out -> no_adjacent_empty out ->
  Forall (fun l => ~ In NL l)
    (snd (fold_left cs_indent_step lines (indent, out)))
  /\ no_adjacent_empty (snd (fold_left cs_indent_step lines (indent, out))).
Proof.
  revert indent out.
  induction lines as [|raw lines IH]; intros indent out Hl Ho Hn; [now split|].
  inversion Hl as [|? ? Hraw Hl']; subst. cbn [fold_left].
  destruct (cs_indent_step_lines raw indent out Hraw Ho Hn)
    as (i' & out' & E & H1 & H2).
  rewrite E. now apply IH.
Qed.

Lemma pretty_print_csharp_braces_lines (code : str) :
  strip (pretty_print_csharp_braces code) = pretty_print_csharp_braces code
  /\ no_adjacent_empty (split NL (pretty_print_csharp_braces code)).
Proof.
  unfold pretty_print_csharp_braces.
  destruct (nonempty (split_csharp_one_liners code)); cbn [negb];
    [|now repeat split].
  set (lines := split NL _).
  pose proof (cs_indent_loop_lines lines 0 [] (split_no_sep NL _)
                (Forall_nil _) I) as [H1 H2].
  destruct (fold_left cs_indent_step lines (0%Z, [])) as [i out].
  now apply strip_join_lines.
Qed.

(** ** The pattern of three or more newlines *)

Lemma rep_nl3 (g : list (nat * str)) (aft : str) (n : nat) (bef : str) :
  match rep (is_char NL) 3 None true Some g n bef aft with
  | Some st => 3 <= n + nl_run aft
               /\ length (after st) = length aft - nl_run aft
  | None => n + nl_run aft < 3
  end.
Proof.
  revert n bef. induction aft as [|c aft IH]; intros n bef.
  - cbn [rep nl_run]. destruct (3 <=? n) eqn:L.
    + apply Nat.leb_le in L. simpl. lia.
    + apply Nat.leb_gt in L. lia.
  - cbn [rep nl_run under]. unfold is_char at 1.
    destruct (Ascii.eqb c NL) eqn:Ec; cbn [andb].
    + specialize (IH (S n) (c :: bef)).
      destruct (rep (is_char NL) 3 None true Some g (S n) (c :: bef) aft)
        as [st|].
      * simpl. lia.
      * destruct (3 <=? n) eqn:L; [apply Nat.leb_le in L; lia | lia].
    + destruct (3 <=? n) eqn:L.
      * apply Nat.leb_le in L. simpl. lia.
      * apply Nat.leb_gt in L. lia.
Qed.

Lemma match_here_nl3 (bef aft : str) :
  match match_here nl3 bef aft with
  | Some st => 3 <= nl_run aft
               /\ length aft - length (after st) = nl_run aft
  | None => nl_run aft < 3
  end.
Proof.
  unfold match_here, nl3. cbn [rmatch before after groups].
  pose proof (rep_nl3 [] aft 0 bef) as H.
  destruct (rep (is_char NL) 3 None true Some [] 0 bef aft) as [st|];
    [|exact H].
  destruct H as [H1 H2]. split; [exact H1|].
  assert (nl_run aft <= length aft).
  { clear. induction aft as [|c aft IH]; simpl; [lia|].
    destruct (Ascii.eqb c NL); lia. }
  lia.
Qed.

Lemma sub_nl3_squeeze (aft : str) :
  (forall bef n, n = 0 \/ n + nl_run aft <= 2 ->
     sub_from nl3 [NL; NL] bef aft 0 = squeeze aft n)
  /\ (forall bef, sub_from nl3 [NL; NL] bef aft (nl_run aft) = squeeze aft 2).
Proof.
  induction aft as [|c aft [IHa IHb]]; [now split|].
  assert (Ha : forall bef n, n = 0 \/ n + nl_run (c :: aft) <= 2 ->
                 sub_from nl3 [NL; NL] bef (c :: aft) 0 = squeeze (c :: aft) n).
  { intros bef n Hn. cbn [sub_from squeeze].
    pose proof (match_here_nl3 bef (c :: aft)) as Hm.
    destruct (match_here nl3 bef (c :: aft)) as [st|].
    - destruct Hm as [H3 Hlen]. rewrite Hlen.
      cbn [nl_run] in *. destruct (Ascii.eqb c NL) eqn:Ec; [|lia].
      destruct Hn as [->|Hn]; [|lia]. rewrite IHb.
      destruct aft as [|c2 aft]; [simpl in H3; lia|].
      cbn [nl_run] in H3. cbn [squeeze].
      destruct (Ascii.eqb c2 NL); [reflexivity | lia].
    - cbn [nl_run] in *. destruct (Ascii.eqb c NL) eqn:Ec.
      + assert (E : (n <? 2) = true) by (apply Nat.ltb_lt; lia).
        rewrite E. apply Ascii.eqb_eq in Ec. subst c. f_equal. apply IHa. lia.
      + f_equal. apply IHa. now left. }
  split; [exact Ha|].
  intros bef. cbn [nl_run]. destruct (Ascii.eqb c NL) eqn:Ec.
  - cbn [sub_from squeeze]. rewrite Ec. apply IHb.
  - rewrite (Ha bef 2); [reflexivity|]. cbn [nl_run]. rewrite Ec. lia.
Qed.

Lemma re_sub_nl3 (s : str) : re_sub nl3 [NL; NL] s = squeeze s 0.
Proof. apply sub_nl3_squeeze. now left. Qed.

(** ** Whitespace runs with fewer than three newlines *)

Lemma ws_runs_ok_mono (s : str) (m m' : nat) :
  m' <= m -> ws_runs_ok s m = true -> ws_runs_ok s m' = true.
Proof.
  revert m m'. induction s as [|c s IH]; intros m m' L H; [reflexivity|].
  simpl in *. destruct (Ascii.eqb c NL).
  - apply andb_prop in H. destruct H as [H1 H2].
    apply Nat.ltb_lt in H1. apply andb_true_intro. split.
    + apply Nat.ltb_lt. lia.
    + apply (IH (m + 1)); [lia | assumption].
  - destruct (isspace c); [now apply (IH m) | assumption].
Qed.

Lemma ws_runs_ok_lstrip (s : str) :
  ws_runs_ok s 0 = true -> ws_runs_ok (lstrip s) 0 = true.
Proof.
  induction s as [|c s IH]; intros H; [reflexivity|].
  simpl lstrip. destruct (isspace c) eqn:Ec; [|exact H].
  apply IH. simpl in H. rewrite Ec in H.
  destruct (Ascii.eqb c NL); [|exact H].
  apply (ws_runs_ok_mono s 1); [lia | exact H].
Qed.

Lemma ws_runs_ok_rstrip (s : str) (m : nat) :
  ws_runs_ok s m = true -> ws_runs_ok (rstrip s) m = true.
Proof.
  revert m. induction s as [|c s IH]; intros m H; [reflexivity|].
  rewrite rstrip_cons.
  destruct (nonempty (rstrip s) || negb (isspace c)); [|reflexivity].
  simpl in *. destruct (Ascii.eqb c NL).
  - apply andb_prop in H. destruct H as [H1 H2]. rewrite H1. now apply IH.
  - destruct (isspace c); now apply IH.
Qed.

Lemma ws_runs_ok_strip (s : str) :
  ws_runs_ok s 0 = true -> ws_runs_ok (strip s) 0 = true.
Proof. intros H. now apply ws_runs_ok_rstrip, ws_runs_ok_lstrip. Qed.

(** ** From whitespace runs to blank lines *)

Lemma ws_runs_lines (s : str) (m : nat) (pb cb : bool) :
  (cb = false /\ m = 0) \/ (cb = true /\ pb = false /\ m = 1)
  \/ (cb = true /\ pb = true /\ m = 2) ->
  rstrip s = s -> (s = [] -> cb = false) ->
  ws_runs_ok s m = true ->
  lines_ok_from (split NL s) pb cb = true.
Proof.
  revert m pb cb. induction s as [|c s IH]; intros m pb cb HR Hr He H.
  - rewrite (He eq_refl). simpl. now rewrite andb_false_r.
  - pose proof (rstrip_fixed_tail _ _ Hr) as Hr'.
    assert (Hlast : s = [] -> isspace c = false).
    { intros ->. rewrite rstrip_cons in Hr. simpl in Hr.
      destruct (isspace c); [discriminate | reflexivity]. }
    simpl in H. destruct (Ascii.eqb_spec c NL) as [->|Hc].
    + rewrite split_cons_sep. apply andb_prop in H. destruct H as [H1 H2].
      apply Nat.ltb_lt in H1.
      assert (Hs : s <> []) by (intros E; specialize (Hlast E); discriminate).
      destruct (split NL s) as [|h t] eqn:Es; [now apply split_not_nil in Es|].
      cbn [lines_ok_from forallb lines_ok]. rewrite andb_true_r.
      assert (IH' : lines_ok_from (h :: t) cb true = true).
      { apply (IH (m + 1) cb true).
        - destruct HR as [[-> ->]|[[-> [-> ->]]|[-> [-> ->]]]];
            [auto | auto | lia].
        - exact Hr'.
        - intros E. now apply Hs in E.
        - exact H2. }
      cbn [lines_ok_from] in IH'. cbn [andb] in IH'. rewrite IH'.
      destruct HR as [[-> ->]|[[-> [-> ->]]|[-> [-> ->]]]];
        [now rewrite andb_false_r | reflexivity | lia].
    + destruct (split_cons_other NL c s Hc) as (h & t & E & E').
      rewrite E'. cbn [lines_ok_from forallb].
      assert (IH' : lines_ok_from (h :: t) pb (cb && isspace c) = true).
      { rewrite <- E. destruct (isspace c) eqn:Ec.
        - rewrite andb_true_r. apply (IH m pb cb).
          + exact HR.
          + exact Hr'.
          + intros Es. specialize (Hlast Es). congruence.
          + exact H.
        - rewrite andb_false_r. apply (IH 0 pb false); auto. }
      cbn [lines_ok_from] in IH'. now rewrite !andb_assoc in *.
Qed.

Lemma ws_runs_stripped_lines (s : str) :
  strip s = s -> ws_runs_ok s 0 = true -> lines_ok (split NL s) false = true.
Proof.
  intros Hs H. destruct s as [|c s]; [reflexivity|].
  pose proof (strip_head _ _ _ Hs) as Hc.
  assert (Hr : rstrip (c :: s) = c :: s).
  { rewrite <- Hs at 1. unfold strip. rewrite rstrip_idem. exact Hs. }
  apply rstrip_fixed_tail in Hr.
  pose proof (isspace_not_NL c Hc) as Hn.
  simpl in H. rewrite Hc in H.
  destruct (Ascii.eqb_spec c NL) as [E|_]; [contradiction|].
  pose proof (ws_runs_lines s 0 false false
                (or_introl (conj eq_refl eq_refl)) Hr (fun _ => eq_refl) H)
    as L.
  destruct (split_cons_other NL c s Hn) as (h & t & E & E').
  rewrite E'. rewrite E in L. cbn [lines_ok_from lines_ok forallb] in *.
  rewrite Hc. exact L.
Qed.

(** ** Tabs *)

Lemma replace_single (o : ascii) (new s : str) :
  replace [o] new s = flat_map (fun c => if Ascii.eqb o c then new else [c]) s.
Proof.
  unfold replace. induction s as [|c s IH]; [reflexivity|].
  cbn [replace_from startswith flat_map length Nat.sub].
  rewrite andb_true_r, IH. now destruct (Ascii.eqb o c).
Qed.

Lemma replace_tabs (s : str) :
  replace [TAB] (py "    ") s = flat_map expand_tab s.
Proof. apply replace_single. Qed.

Lemma split_app_no_sep (p s : str) :
  ~ In NL p ->
  split NL (p ++ s) = (p ++ hd [] (split NL s)) :: tl (split NL s).
Proof.
  induction p as [|c p IH]; intros H.
  - simpl. destruct (split NL s) eqn:E; [now apply split_not_nil in E|].
    reflexivity.
  - assert (Hc : c <> NL) by (intros ->; apply H; now left).
    cbn [app]. destruct (split_cons_other NL c (p ++ s) Hc) as (h & t & E & E').
    rewrite E'. rewrite IH in E by (intros Hp; apply H; now right).
    now injection E as <- <-.
Qed.

Lemma expand_tab_no_NL (c : ascii) : c <> NL -> ~ In NL (expand_tab c).
Proof.
  intros Hc. unfold expand_tab. destruct (Ascii.eqb TAB c).
  - simpl. intuition discriminate.
  - intros [H|[]]. now apply Hc.
Qed.

Lemma split_expand_tabs (s : str) :
  split NL (flat_map expand_tab s) = map (flat_map expand_tab) (split NL s).
Proof.
  induction s as [|c s IH]; [reflexivity|].
  destruct (Ascii.eqb_spec c NL) as [->|Hc].
  - rewrite split_cons_sep. cbn [flat_map map].
    change (expand_tab NL) with [NL]. cbn [app].
    now rewrite split_cons_sep, IH.
  - destruct (split_cons_other NL c s Hc) as (h & t & E & E').
    rewrite E'. cbn [flat_map map].
    rewrite split_app_no_sep by now apply expand_tab_no_NL.
    rewrite IH, E. reflexivity.
Qed.

Lemma forallb_isspace_expand_tabs (l : str) :
  forallb isspace (flat_map expand_tab l) = forallb isspace l.
Proof.
  induction l as [|c l IH]; [reflexivity|].
  cbn [flat_map forallb]. rewrite forallb_app, IH. f_equal.
  unfold expand_tab. destruct (Ascii.eqb_spec TAB c) as [<-|_]; [reflexivity|].
  simpl. now rewrite andb_true_r.
Qed.

Lemma lines_ok_expand_tabs (ls : list str) (pb : bool) :
  lines_ok (map (flat_map expand_tab) ls) pb = lines_ok ls pb.
Proof.
  revert pb. induction ls as [|l ls IH]; intros pb; [reflexivity|].
  cbn [map lines_ok]. now rewrite forallb_isspace_expand_tabs, IH.
Qed.

(** ** The indentation loop of VB *)

Lemma vb_indent_step_line (indent : Z) (out : list str) (raw : str) :
  exists indent' x,
    vb_indent_step (indent, out) raw = (indent', out ++ [x])
    /\ (x = [] <-> strip raw = [])
    /\ (~ In NL raw -> ~ In NL x).
Proof.
  unfold vb_indent_step.
  destruct (strip raw) as [|c r] eqn:E; cbn [nonempty negb].
  - eexists _, _. split; [reflexivity|]. now split.
  - assert (Hx : forall i,
               (str_mul (py "    ") i ++ c :: r = [] <-> c :: r = [])
               /\ (~ In NL raw -> ~ In NL (str_mul (py "    ") i ++ c :: r))).
    { intros i. split.
      - split; [|discriminate]. now destruct (str_mul (py "    ") i).
      - intros Hraw H. apply in_app_or in H. destruct H as [H|H].
        + apply In_repeat_str in H. simpl in H. intuition discriminate.
        + apply Hraw. apply In_strip. now rewrite E. }
    destruct (starts_any vb_miders (lower (c :: r))).
    + eexists _, _. split; [reflexivity | apply Hx].
    + destruct (starts_any vb_starters (lower (c :: r)));
        [|eexists _, _; split; [reflexivity | apply Hx]].
      destruct (startswith (py "if ") (lower (c :: r))
                && endswith (py "then") (lower (c :: r)));
        [eexists _, _; split; [reflexivity | apply Hx]|].
      destruct (startswith (py "if ") (lower (c :: r))
                && contains (py " then ") (lower (c :: r))
                && negb (endswith (py "then") (lower (c :: r))));
        eexists _, _; (split; [reflexivity | apply Hx]).
Qed.

Lemma vb_indent_loop_lines (lines : list str) (pb : bool) (indent : Z)
    (out : list str) :
  Forall (fun l => ~ In NL l) lines -> lines_ok lines pb = true ->
  Forall (fun l => ~ In NL l) out -> no_adjacent_empty out ->
  (pb = false -> out = [] \/ last out [] <> []) ->
  Forall (fun l => ~ In NL l)
    (snd (fold_left vb_indent_step lines (indent, out)))
  /\ no_adjacent_empty (snd (fold_left vb_indent_step lines (indent, out))).
Proof.
  revert pb indent out.
  induction lines as [|raw lines IH]; intros pb indent out Hl Hok Ho Hn Hb;
    [now split|].
  inversion Hl as [|? ? Hraw Hl']; subst. cbn [fold_left].
  destruct (vb_indent_step_line indent out raw) as (i' & x & E & Hx & Hnl).
  rewrite E. cbn [lines_ok] in Hok. apply andb_prop in Hok.
  destruct Hok as [Hok1 Hok2].
  apply (IH (forallb isspace raw)); try assumption.
  - apply Forall_app. split; [assumption|]. repeat constructor. now apply Hnl.
  - apply nae_snoc; [assumption|].
    destruct (forallb isspace raw) eqn:B.
    + right. apply Hb. now destruct pb.
    + left. intros Ex. apply Hx in Ex. apply strip_nil_iff in Ex. congruence.
  - intros B. right. rewrite last_last. intros Ex. apply Hx in Ex.
    apply strip_nil_iff in Ex. congruence.
Qed.

(** The formatter of VB keeps what its splitter guarantees. *)
Lemma pretty_print_vb_blocks_lines (code : str) :
  strip (split_vb_one_liners (normalize_code code))
  = split_vb_one_liners (normalize_code code) ->
  ws_runs_ok (split_vb_one_liners (normalize_code code)) 0 = true ->
  strip (pretty_print_vb_blocks code) = pretty_print_vb_blocks code
  /\ no_adjacent_empty (split NL (pretty_print_vb_blocks code)).
Proof.
  intros Hs Hw. unfold pretty_print_vb_blocks.
  set (c := split_vb_one_liners (normalize_code code)) in *.
  destruct (nonempty c); cbn [negb]; [|now repeat split].
  rewrite replace_tabs, split_expand_tabs.
  pose proof (ws_runs_stripped_lines c Hs Hw) as Hok.
  rewrite <- (lines_ok_expand_tabs _ false) in Hok.
  assert (Hnl : Forall (fun l => ~ In NL l)
                  (map (flat_map expand_tab) (split NL c))).
  { rewrite <- split_expand_tabs. apply split_no_sep. }
  pose proof (vb_indent_loop_lines _ false 0 [] Hnl Hok (Forall_nil _) I
                (fun _ => or_introl eq_refl)) as [H1 H2].
  destruct (fold_left vb_indent_step _ (0%Z, [])) as [i out].
  now apply strip_join_lines.
Qed.

(** ** The matcher only moves characters of the text *)

Lemma rep_chars_within (t : str) (p : ascii -> bool) (lo : nat)
    (hi : option nat) (greedy : bool) (k : mstate -> option mstate)
    (g : list (nat * str)) (aft : str) (n : nat) (bef : str) (res : mstate) :
  chars_within t (MState bef aft g) ->
  rep p lo hi greedy k g n bef aft = Some res ->
  exists st', chars_within t st' /\ k st' = Some res.
Proof.
  revert n bef. induction aft as [|c aft IH]; intros n bef Hin H.
  - simpl in H. destruct greedy, (lo <=? n); try discriminate;
      try (now exists (MState bef [] g)).
    destruct (k (MState bef [] g)) eqn:E; [|discriminate].
    exists (MState bef [] g). now split; [|rewrite E].
  - assert (Hin' : chars_within t (MState (c :: bef) aft g)).
    { destruct Hin as (H1 & H2 & H3). cbn [before after groups] in *.
      split; [|split].
      - intros x [<-|Hx]; [apply H2; now left | now apply H1].
      - intros x Hx. apply H2. now right.
      - exact H3. }
    cbn [rep] in H. destruct greedy.
    + destruct (p c && under hi n).
      * destruct (rep p lo hi true k g (S n) (c :: bef) aft) as [st|] eqn:E.
        -- injection H as <-. now apply (IH (S n) (c :: bef)).
        -- destruct (lo <=? n); [|discriminate].
           now exists (MState bef (c :: aft) g).
      * destruct (lo <=? n); [|discriminate].
        now exists (MState bef (c :: aft) g).
    + destruct (if lo <=? n then k (MState bef (c :: aft) g) else None)
        as [st|] eqn:E.
      * injection H as <-. destruct (lo <=? n); [|discriminate].
        now exists (MState bef (c :: aft) g).
      * destruct (p c && under hi n); [|discriminate].
        now apply (IH (S n) (c :: bef)).
Qed.

Lemma In_consumed (st st' : mstate) (x : ascii) :
  In x (consumed st st') -> In x (before st').
Proof.
  unfold consumed. intros H. apply in_rev in H. eapply In_firstn; eassumption.
Qed.

Lemma rmatch_chars_within (t : str) (r : regex)
    (k : mstate -> option mstate) (st res : mstate) :
  chars_within t st -> rmatch r k st = Some res ->
  exists st', chars_within t st' /\ k st' = Some res.
Proof.
  revert k st. induction r as [|p|p lo hi greedy|r1 IH1 r2 IH2|r1 IH1 r2 IH2
                               | | | | |n r IH]; intros k st Hin H;
    cbn [rmatch] in H.
  - now exists st.
  - destruct st as [bef aft g]. cbn [before after groups] in *.
    destruct aft as [|c aft]; [discriminate|].
    destruct (p c); [|discriminate].
    exists (MState (c :: bef) aft g). split; [|exact H].
    destruct Hin as (H1 & H2 & H3). cbn [before after groups] in *.
    split; [|split].
    + intros x [<-|Hx]; [apply H2; now left | now apply H1].
    + intros x Hx. apply H2. now right.
    + exact H3.
  - destruct st as [bef aft g]. eapply rep_chars_within; eassumption.
  - destruct (IH1 _ _ Hin H) as (st1 & Hin1 & H1). now apply (IH2 k st1).
  - destruct (rmatch r1 k st) as [st1|] eqn:E.
    + injection H as <-. now apply (IH1 k st).
    + now apply (IH2 k st).
  - destruct (at_bol st); [now exists st | discriminate].
  - destruct (nonempty (before st)); [discriminate | now exists st].
  - destruct (at_end st); [now exists st | discriminate].
  - destruct (at_wordb st); [now exists st | discriminate].
  - destruct (IH _ _ Hin H) as (st1 & Hin1 & H1).
    eexists. split; [|exact H1].
    destruct Hin1 as (A & B & C). cbn [before after groups].
    split; [exact A|]. split; [exact B|].
    intros m s Hs x Hx. apply in_app_or in Hs. destruct Hs as [Hs|[Hs|[]]].
    + eapply C; eassumption.
    + injection Hs as <- <-. apply A. eapply In_consumed; eassumption.
Qed.

Lemma In_group_of (n : nat) (g : list (nat * str)) (x : ascii) :
  In x (group_of n g) -> exists m s, In (m, s) g /\ In x s.
Proof.
  induction g as [|[m s] g IH]; [easy|]. cbn [group_of].
  destruct (existsb (fun y => fst y =? n) g).
  - intros H. destruct (IH H) as (m' & s' & H1 & H2).
    exists m', s'. split; [now right | exact H2].
  - destruct (m =? n); [|easy]. intros H. exists m, s. split; [now left | exact H].
Qed.

(** A captured group holds characters of the matched text only. *)
Lemma group_chars (r : regex) (t : str) (m : mstate) (n : nat) (x : ascii) :
  re_match r t = Some m -> In x (group m n) -> In x t.
Proof.
  unfold re_match, match_here. intros H Hx.
  assert (Hin : chars_within t (MState [] t [])).
  { split; [easy|]. split; [easy|]. easy. }
  destruct (rmatch_chars_within t r Some _ m Hin H) as (st' & Hst & E).
  injection E as ->. destruct Hst as (_ & _ & C).
  apply In_group_of in Hx. destruct Hx as (m' & s & H1 & H2). eapply C; eassumption.
Qed.

(** ** No newline inside the lines of the VB splitter *)

Lemma no_NL_app (a b : str) : no_NL a -> no_NL b -> no_NL (a ++ b).
Proof. intros Ha Hb H. apply in_app_or in H. destruct H; auto. Qed.

Lemma no_NL_strip (s : str) : no_NL s -> no_NL (strip s).
Proof. intros H Hin. apply H. now apply In_strip. Qed.

Lemma append_part_no_NL (parts : list str) (cur : str) :
  Forall no_NL parts -> no_NL cur -> Forall no_NL (append_part parts cur).
Proof.
  intros Hp Hc. unfold append_part. destruct (nonempty (strip cur)); [|exact Hp].
  apply Forall_app. split; [exact Hp|]. repeat constructor.
  now apply no_NL_strip.
Qed.

Lemma colons_loop_no_NL (n : nat) (rest : str) (parts : list str) (cur : str)
    (in_string skip_ws : bool) :
  length rest <= n ->
  no_NL rest -> Forall no_NL parts -> no_NL cur ->
  Forall no_NL (colons_loop rest parts cur in_string skip_ws).
Proof.
  revert rest parts cur in_string skip_ws.
  induction n as [|n IH]; intros rest parts cur ins skip Hlen Hr Hp Hc;
    (destruct rest as [|ch rest]; [now apply append_part_no_NL|]);
    [simpl in Hlen; lia|].
  simpl in Hlen.
  assert (Hch : ch <> NL) by (intros ->; apply Hr; now left).
  assert (Hr' : no_NL rest) by (intros H; apply Hr; now right).
  assert (Hcur : forall l, no_NL l -> (forall x, In x l -> x <> NL) ) by
    (intros l Hl x Hx ->; now apply Hl).
  assert (Hc1 : no_NL (cur ++ [ch])).
  { apply no_NL_app; [assumption|]. intros [H|[]]. now apply Hch. }
  cbn [colons_loop].
  destruct (skip && isspace ch); [apply IH; auto; lia|].
  destruct (Ascii.eqb ch DQ).
  - destruct ins; [|apply IH; auto; lia].
    destruct rest as [|ch2 rest]; [apply IH; auto; simpl; lia|].
    destruct (Ascii.eqb ch2 DQ); [|apply IH; auto; lia].
    apply IH; auto.
    + simpl in Hlen. lia.
    + intros H. apply Hr'. now right.
    + apply no_NL_app; [assumption|]. intros [H|[H|[]]]; discriminate.
  - destruct (Ascii.eqb ch ":" && negb ins).
    + apply IH; auto; [lia | now apply append_part_no_NL | easy].
    + apply IH; auto; lia.
Qed.

Lemma split_colons_no_NL (line : str) :
  no_NL line -> Forall no_NL (split_colons_outside_strings line).
Proof.
  intros H. unfold split_colons_outside_strings.
  apply (colons_loop_no_NL (length line)); auto. easy.
Qed.

Lemma keyword_loop_no_NL (kws : list str) (low_rest : str)
    (parts : list str) (cur : str) :
  Forall no_NL parts -> no_NL cur ->
  Forall no_NL (fst (keyword_loop kws low_rest parts cur))
  /\ no_NL (snd (keyword_loop kws low_rest parts cur)).
Proof.
  intros Hp Hc. induction kws as [|kw kws IH]; [now split|].
  cbn [keyword_loop]. destruct (startswith kw low_rest && nonempty cur);
    [|exact IH].
  split; [now apply append_part_no_NL | easy].
Qed.

Lemma midline_loop_no_NL (n : nat) (rest : str) (parts : list str) (cur : str)
    (in_string : bool) :
  length rest <= n ->
  no_NL rest -> Forall no_NL parts -> no_NL cur ->
  Forall no_NL (midline_loop rest parts cur in_string).
Proof.
  revert rest parts cur in_string.
  induction n as [|n IH]; intros rest parts cur ins Hlen Hr Hp Hc;
    (destruct rest as [|ch rest]; [now apply append_part_no_NL|]);
    [simpl in Hlen; lia|].
  simpl in Hlen.
  assert (Hch : ch <> NL) by (intros ->; apply Hr; now left).
  assert (Hr' : no_NL rest) by (intros H; apply Hr; now right).
  assert (Hsnoc : forall l, no_NL l -> no_NL (l ++ [ch])).
  { intros l Hl. apply no_NL_app; [assumption|]. intros [H|[]].
    now apply Hch. }
  cbn [midline_loop].
  destruct (Ascii.eqb ch DQ).
  - destruct ins; [|apply IH; auto; lia].
    destruct rest as [|ch2 rest]; [apply IH; auto; simpl; lia|].
    destruct (Ascii.eqb ch2 DQ); [|apply IH; auto; lia].
    apply IH; auto.
    + simpl in Hlen. lia.
    + intros H. apply Hr'. now right.
    + apply no_NL_app; [assumption|]. intros [H|[H|[]]]; discriminate.
  - destruct (negb ins).
    + pose proof (keyword_loop_no_NL VB_STATEMENT_KEYWORDS
                    (lower (ch :: rest)) parts cur Hp Hc) as [K1 K2].
      destruct (keyword_loop VB_STATEMENT_KEYWORDS (lower (ch :: rest))
                  parts cur) as [parts' cur'].
      apply IH; auto. lia.
    + apply IH; auto. lia.
Qed.

Lemma split_midline_no_NL (line : str) :
  no_NL line -> Forall no_NL (split_midline_vb_statements line).
Proof.
  intros H. unfold split_midline_vb_statements.
  apply (midline_loop_no_NL (length line)); auto. easy.
Qed.

Lemma expand_lines_no_NL (f : str -> list str) (lines : list str) :
  (forall l, no_NL l -> Forall no_NL (f l)) ->
  Forall no_NL lines -> Forall no_NL (expand_lines f lines).
Proof.
  intros Hf Hl. unfold expand_lines.
  assert (H : forall acc, Forall no_NL acc ->
                Forall no_NL
                  (fold_left
                     (fun out raw =>
                        if negb (nonempty (strip raw)) then out ++ [[]]
                        else out ++ f (strip raw)) lines acc)).
  { induction Hl as [|l lines Hl1 Hl2 IH]; intros acc Hacc; [exact Hacc|].
    cbn [fold_left]. apply IH. destruct (negb (nonempty (strip l))).
    - apply Forall_app. split; [assumption | now repeat constructor].
    - apply Forall_app. split; [assumption|]. apply Hf. now apply no_NL_strip. }
  now apply H.
Qed.

(** ** The lines of step 3, joined and squeezed *)

Lemma join_lines_tail (l : str) (ls : list str) :
  join [NL] (l :: ls) = l ++ lines_tail ls.
Proof.
  revert l. induction ls as [|l' ls IH]; intros l.
  - simpl. now rewrite app_nil_r.
  - rewrite join_cons by discriminate. rewrite IH. reflexivity.
Qed.

Lemma lines_tail_app (a b : list str) :
  lines_tail (a ++ b) = lines_tail a ++ lines_tail b.
Proof. apply flat_map_app. Qed.

Lemma squeeze_app_no_NL (l y : str) (n : nat) :
  no_NL l ->
  squeeze (l ++ y) n = l ++ squeeze y (if nonempty l then 0 else n).
Proof.
  revert n. induction l as [|c l IH]; intros n H; [reflexivity|].
  assert (Hc : Ascii.eqb c NL = false).
  { apply Ascii.eqb_neq. intros ->. apply H. now left. }
  cbn [app squeeze nonempty]. rewrite Hc, IH by (intros Hl; apply H; now right).
  now destruct l.
Qed.

Lemma ws_runs_ok_app_no_NL (l y : str) (m : nat) :
  no_NL l ->
  ws_runs_ok (l ++ y) m = ws_runs_ok y (if forallb isspace l then m else 0).
Proof.
  revert m. induction l as [|c l IH]; intros m H; [reflexivity|].
  assert (Hc : Ascii.eqb c NL = false).
  { apply Ascii.eqb_neq. intros ->. apply H. now left. }
  cbn [app ws_runs_ok forallb]. rewrite Hc.
  destruct (isspace c); cbn [andb]; rewrite IH by (intros Hl; apply H; now right).
  - reflexivity.
  - now destruct (forallb isspace l).
Qed.

Lemma squeezed_ok_line (l y : str) (n m : nat) :
  no_NL l ->
  squeezed_ok (l ++ y) n m
  = squeezed_ok y (if nonempty l then 0 else n)
      (if forallb isspace l then m else 0).
Proof.
  intros H. unfold squeezed_ok.
  now rewrite squeeze_app_no_NL, ws_runs_ok_app_no_NL.
Qed.

Lemma squeezed_ok_NL (y : str) (n m : nat) :
  squeezed_ok (NL :: y) n m
  = if n <? 2 then (m + 1 <? 3) && squeezed_ok y (S n) (m + 1)
    else squeezed_ok y n m.
Proof.
  unfold squeezed_ok. cbn [squeeze]. rewrite Ascii.eqb_refl.
  destruct (n <? 2); [|reflexivity].
  cbn [ws_runs_ok]. now rewrite Ascii.eqb_refl.
Qed.

Lemma solid_nonempty (l : str) : solid l -> nonempty l = true.
Proof. intros [_ H]. destruct l; [discriminate | reflexivity]. Qed.

Lemma squeezed_ok_empty_line (y : str) (n m : nat) :
  m <= n ->
  (forall n' m', m' <= n' -> squeezed_ok y n' m' = true) ->
  squeezed_ok (NL :: y) n m = true.
Proof.
  intros L H. rewrite squeezed_ok_NL. destruct (n <? 2) eqn:E.
  - apply Nat.ltb_lt in E. apply andb_true_intro. split.
    + apply Nat.ltb_lt. lia.
    + apply H. lia.
  - now apply H.
Qed.

Lemma squeezed_ok_solid_line (l y : str) (n m : nat) :
  solid l -> (n < 2 -> m < 2) -> squeezed_ok y 0 0 = true ->
  squeezed_ok (NL :: l ++ y) n m = true.
Proof.
  intros Hl L H. pose proof (solid_nonempty l Hl) as Hne.
  destruct Hl as [Hnl Hws]. rewrite squeezed_ok_NL.
  destruct (n <? 2) eqn:E.
  - apply Nat.ltb_lt in E. apply andb_true_intro. split.
    + apply Nat.ltb_lt. lia.
    + now rewrite squeezed_ok_line, Hne, Hws.
  - now rewrite squeezed_ok_line, Hne, Hws.
Qed.

Lemma squeezed_ok_filler_solid (f l y : str) :
  filler f -> solid l -> squeezed_ok y 0 0 = true ->
  squeezed_ok (NL :: f ++ NL :: l ++ y) 0 0 = true.
Proof.
  intros [Hf Hne] Hl H. rewrite squeezed_ok_NL. cbn [Nat.ltb Nat.leb andb].
  rewrite squeezed_ok_line by assumption.
  destruct f as [|c f]; [congruence|]. cbn [nonempty].
  apply squeezed_ok_solid_line; [assumption | | assumption].
  intros _. destruct (forallb isspace (c :: f)); simpl; lia.
Qed.

Lemma squeezed_ok_block (b : list str) (y : str) (n m : nat) :
  block_ok b -> m <= n ->
  (forall n' m', m' <= n' -> squeezed_ok y n' m' = true) ->
  squeezed_ok (lines_tail b ++ y) n m = true.
Proof.
  intros Hb L H.
  destruct Hb as [->|[(l & -> & Hl)|[(a & f & c & -> & Ha & Hf & Hc)
                 |(a & f1 & b' & f2 & c & -> & Ha & Hf1 & Hb' & Hf2 & Hc)]]];
    unfold lines_tail;
    repeat (progress (cbn [app flat_map]; rewrite <- ?app_assoc, ?app_nil_r)).
  - now apply squeezed_ok_empty_line.
  - apply squeezed_ok_solid_line; auto; lia.
  - apply squeezed_ok_solid_line; auto; [lia|].
    apply squeezed_ok_filler_solid; auto.
  - apply squeezed_ok_solid_line; auto; [lia|].
    apply squeezed_ok_filler_solid; auto.
    apply squeezed_ok_filler_solid; auto.
Qed.

Lemma squeezed_ok_blocks (blocks : list (list str)) (n m : nat) :
  Forall block_ok blocks -> m <= n ->
  squeezed_ok (lines_tail (concat blocks)) n m = true.
Proof.
  intros Hb. revert n m. induction Hb as [|b blocks Hb _ IH]; intros n m L;
    [reflexivity|].
  cbn [concat]. rewrite lines_tail_app. apply squeezed_ok_block; auto.
Qed.

Lemma squeezed_ok_join_blocks (blocks : list (list str)) :
  Forall block_ok blocks ->
  squeezed_ok (join [NL] (concat blocks)) 0 0 = true.
Proof.
  intros Hb. destruct Hb as [|b blocks Hb Hbs]; [reflexivity|].
  pose proof (fun n m => squeezed_ok_blocks blocks n m Hbs) as Hrest.
  cbn [concat].
  assert (Hfirst : forall l, no_NL l ->
            squeezed_ok (l ++ lines_tail (concat blocks)) 0 0 = true).
  { intros l Hl. rewrite squeezed_ok_line by assumption.
    destruct (nonempty l), (forallb isspace l); now apply Hrest. }
  destruct Hb as [->|[(l & -> & Hl)|[(a & f & c & -> & Ha & Hf & Hc)
                 |(a & f1 & b' & f2 & c & -> & Ha & Hf1 & Hb' & Hf2 & Hc)]]];
    cbn [app]; rewrite join_lines_tail.
  - now apply Hfirst.
  - apply Hfirst, Hl.
  - rewrite squeezed_ok_line by apply Ha.
    rewrite (solid_nonempty a Ha). destruct Ha as [_ ->].
    unfold lines_tail.
    repeat (progress (cbn [app flat_map]; rewrite <- ?app_assoc, ?app_nil_r)).
    apply squeezed_ok_filler_solid; auto.
  - rewrite squeezed_ok_line by apply Ha.
    rewrite (solid_nonempty a Ha). destruct Ha as [_ ->].
    unfold lines_tail.
    repeat (progress (cbn [app flat_map]; rewrite <- ?app_assoc, ?app_nil_r)).
    apply squeezed_ok_filler_solid; auto.
    apply squeezed_ok_filler_solid; auto.
Qed.

(** ** Step 3 of the VB splitter *)

Lemma vb_if_step_app (out : list str) (ln : str) :
  vb_if_step out ln = out ++ vb_if_step [] ln.
Proof.
  unfold vb_if_step. destruct (negb (nonempty (strip ln))); [reflexivity|].
  destruct (re_match vb_if_then_else (strip ln)); [reflexivity|].
  destruct (re_match vb_if_then (strip ln)); [|reflexivity].
  now destruct (negb (endswith (py "then") (lower (strip ln)))).
Qed.

Lemma fold_vb_if_step (lines acc : list str) :
  fold_left vb_if_step lines acc = acc ++ concat (map (vb_if_step []) lines).
Proof.
  revert acc. induction lines as [|ln lines IH]; intros acc.
  - simpl. now rewrite app_nil_r.
  - cbn [fold_left map concat]. now rewrite IH, vb_if_step_app, app_assoc.
Qed.

Lemma no_NL_literal (l : str) :
  forallb (fun c => negb (Ascii.eqb c NL)) l = true -> no_NL l.
Proof.
  intros H Hin. rewrite forallb_forall in H. specialize (H NL Hin).
  now rewrite Ascii.eqb_refl in H.
Qed.

Lemma no_NL_group (r : regex) (t : str) (m : mstate) (n : nat) :
  no_NL t -> re_match r t = Some m -> no_NL (strip (group m n)).
Proof.
  intros Ht Hm. apply no_NL_strip. intros H. apply Ht.
  eapply group_chars; eassumption.
Qed.

Lemma solid_if_line (cond : str) :
  no_NL cond -> solid (py "If " ++ cond ++ py " Then").
Proof.
  intros H. split; [|reflexivity].
  apply no_NL_app; [now apply no_NL_literal|].
  apply no_NL_app; [assumption | now apply no_NL_literal].
Qed.

Lemma filler_indented (p : str) : no_NL p -> filler (py "    " ++ p).
Proof.
  intros H. split; [|discriminate].
  apply no_NL_app; [now apply no_NL_literal | assumption].
Qed.

Lemma solid_literal (l : str) :
  forallb (fun c => negb (Ascii.eqb c NL)) l = true ->
  forallb isspace l = false -> solid l.
Proof. intros H1 H2. split; [now apply no_NL_literal | exact H2]. Qed.

Lemma vb_block_ok (ln : str) : no_NL ln -> block_ok (vb_if_step [] ln).
Proof.
  intros Hln. unfold vb_if_step.
  destruct (strip ln) as [|c r] eqn:E; [now left|]. cbn [nonempty negb].
  assert (Ht : no_NL (c :: r)) by (rewrite <- E; now apply no_NL_strip).
  assert (Hs : solid (c :: r)).
  { split; [exact Ht|]. cbn [forallb]. now rewrite (strip_head _ _ _ E). }
  destruct (re_match vb_if_then_else (c :: r)) as [m|] eqn:M1.
  - right; right; right. cbn [app].
    eexists _, _, _, _, _. split; [reflexivity|].
    split; [apply solid_if_line; eapply no_NL_group; eassumption|].
    split; [apply filler_indented; eapply no_NL_group; eassumption|].
    split; [now apply solid_literal|].
    split; [apply filler_indented; eapply no_NL_group; eassumption|].
    now apply solid_literal.
  - destruct (re_match vb_if_then (c :: r)) as [m|] eqn:M2.
    + destruct (negb (endswith (py "then") (lower (c :: r)))).
      * right; right; left. cbn [app].
        eexists _, _, _. split; [reflexivity|].
        split; [apply solid_if_line; eapply no_NL_group; eassumption|].
        split; [apply filler_indented; eapply no_NL_group; eassumption|].
        now apply solid_literal.
      * right; left. now exists (c :: r).
    + right; left. now exists (c :: r).
Qed.

Lemma split_vb_one_liners_ws_runs (code : str) :
  ws_runs_ok (split_vb_one_liners code) 0 = true.
Proof.
  unfold split_vb_one_liners. destruct code as [|c0 code]; [reflexivity|].
  cbv zeta. rewrite re_sub_nl3. apply ws_runs_ok_strip.
  rewrite fold_vb_if_step. cbn [app].
  apply squeezed_ok_join_blocks. apply Forall_map.
  eapply Forall_impl; [intros l; apply vb_block_ok|].
  apply expand_lines_no_NL; [apply split_midline_no_NL|].
  apply expand_lines_no_NL; [apply split_colons_no_NL|].
  apply split_no_sep.
Qed.

Lemma split_vb_one_liners_stripped (code : str) :
  strip (split_vb_one_liners code) = split_vb_one_liners code.
Proof.
  unfold split_vb_one_liners. destruct code; [reflexivity|]. apply strip_idem.
Qed.

(** C9: for every input and every language value the pretty code has no
    whitespace at either end and never holds two consecutive empty
    lines, on the C# path, on the VB path and on the path of any other
    language. *)
Theorem pretty_print_code_trimmed_no_blank_runs (code language : str) :
  strip (pretty_print_code code language) = pretty_print_code code language
  /\ no_adjacent_empty (split NL (pretty_print_code code language)).
Proof.
  unfold pretty_print_code.
  destruct (nonempty (normalize_code code)); cbn [negb]; [|now repeat split].
  destruct (str_eqb (normalize_language language) (py "C#")).
  - apply pretty_print_csharp_braces_lines.
  - destruct (str_eqb (normalize_language language) (py "VB")).
    + apply pretty_print_vb_blocks_lines.
      * apply split_vb_one_liners_stripped.
      * apply split_vb_one_liners_ws_runs.
    + apply normalize_whitespace_lines.
Qed.

(** * Further properties *)

(** ** Whitespace-only texts *)

Lemma allws_rstrip (l : str) :
  forallb isspace (rstrip l) = forallb isspace l.
Proof.
  destruct (forallb isspace l) eqn:E.
  - apply rstrip_nil_iff in E. now rewrite E.
  - destruct (forallb isspace (rstrip l)) eqn:E'; [|reflexivity].
    apply rstrip_nil_iff in E'. rewrite rstrip_idem in E'.
    apply rstrip_nil_iff in E'. congruence.
Qed.

Lemma allws_join (ls : list str) :
  forallb isspace (join [NL] ls) = forallb (forallb isspace) ls.
Proof.
  induction ls as [|l ls IH]; [reflexivity|].
  destruct ls as [|l' ls'].
  - simpl. now rewrite andb_true_r.
  - rewrite join_cons by discriminate.
    rewrite !forallb_app, IH. reflexivity.
Qed.

Lemma allws_split (s : str) :
  forallb (forallb isspace) (split NL s) = forallb isspace s.
Proof.
  induction s as [|c s IH]; [reflexivity|].
  destruct (Ascii.eqb_spec c NL) as [->|Hc].
  - rewrite split_cons_sep. cbn [forallb]. now rewrite IH.
  - destruct (split_cons_other NL c s Hc) as (h & t & E & E').
    rewrite E'. rewrite E in IH. cbn [forallb] in *.
    now rewrite <- IH, andb_assoc.
Qed.

Lemma allws_map_rstrip (ls : list str) :
  forallb (forallb isspace) (map rstrip ls) = forallb (forallb isspace) ls.
Proof.
  induction ls as [|l ls IH]; [reflexivity|].
  cbn [map forallb]. now rewrite allws_rstrip, IH.
Qed.

Lemma replace_crlf_step (n : nat) (s : str) :
  length s <= n ->
  forallb isspace (replace_from [CR; NL] [NL] s 0) = forallb isspace s.
Proof.
  revert s. induction n as [|n IH]; intros s Hlen;
    (destruct s as [|c s]; [reflexivity|]); [simpl in Hlen; lia|].
  simpl in Hlen. cbn [replace_from startswith length Nat.sub].
  destruct (Ascii.eqb_spec CR c) as [<-|Hc]; cbn [andb].
  - destruct s as [|c2 s].
    + reflexivity.
    + destruct (Ascii.eqb_spec NL c2) as [<-|Hc2]; cbn [andb].
      * cbn [app replace_from forallb]. rewrite IH by (simpl in Hlen; lia).
        reflexivity.
      * cbn [forallb]. rewrite IH by lia. reflexivity.
  - cbn [forallb]. rewrite IH by lia. reflexivity.
Qed.

Lemma allws_replace_line_ends (s : str) :
  forallb isspace (replace [CR] [NL] (replace [CR; NL] [NL] s))
  = forallb isspace s.
Proof.
  rewrite replace_single. unfold replace.
  rewrite <- (replace_crlf_step (length s) s (le_n _)).
  generalize (replace_from [CR; NL] [NL] s 0). intros t.
  induction t as [|c t IH]; [reflexivity|].
  cbn [flat_map forallb]. rewrite forallb_app, IH. f_equal.
  destruct (Ascii.eqb_spec CR c) as [<-|_]; [reflexivity|].
  simpl. now rewrite andb_true_r.
Qed.

Lemma normalize_code_nil_iff (s : str) :
  normalize_code s = [] <-> forallb isspace s = true.
Proof.
  destruct s as [|c s]; [easy|]. unfold normalize_code.
  rewrite strip_nil_iff, allws_join, allws_map_rstrip, allws_split.
  now rewrite allws_replace_line_ends.
Qed.

(** X1: the normalized text holds no carriage return, has no whitespace
    at either end and no line of it ends in whitespace. *)
Theorem normalize_code_output_form (s : str) :
  ~ In CR (normalize_code s)
  /\ strip (normalize_code s) = normalize_code s
  /\ lines_trimmed (normalize_code s).
Proof.
  split; [apply normalize_code_no_CR|].
  split; [apply normalize_code_stripped | apply normalize_code_lines_trimmed].
Qed.

(** X2: the fixed points of normalization are exactly the texts without
    carriage return, without whitespace at either end and without a line
    that ends in whitespace. *)
Theorem normalize_code_fixed_points (s : str) :
  normalize_code s = s
  <-> (~ In CR s /\ strip s = s /\ lines_trimmed s).
Proof.
  split.
  - intros E. rewrite <- E.
    split; [apply normalize_code_no_CR|].
    split; [apply normalize_code_stripped | apply normalize_code_lines_trimmed].
  - intros (H1 & H2 & H3). now apply normalize_code_fixed.
Qed.

Lemma normalize_code_fixed_points_witness :
  normalize_code (py "a" ++ [NL; NL] ++ py "  b") = py "a" ++ [NL; NL] ++ py "  b".
Proof.
  apply (proj2 (normalize_code_fixed_points (py "a" ++ [NL; NL] ++ py "  b"))).
  split; [|split].
  - simpl. intuition discriminate.
  - reflexivity.
  - unfold lines_trimmed. vm_compute split. repeat constructor.
Defined.

(** X3: normalization gives the empty text exactly for the inputs made of
    whitespace only (the empty input included). *)
Theorem normalize_code_empty_iff_blank (s : str) :
  normalize_code s = [] <-> forallb isspace s = true.
Proof. apply normalize_code_nil_iff. Qed.

(** ** Line counts *)

Lemma length_split (s : str) : length (split NL s) = count_char NL s + 1.
Proof.
  induction s as [|c s IH]; [reflexivity|].
  cbn [count_char]. destruct (Ascii.eqb_spec c NL) as [->|Hc].
  - rewrite split_cons_sep. simpl. now rewrite IH.
  - destruct (split_cons_other NL c s Hc) as (h & t & E & E').
    rewrite E'. rewrite E in IH. simpl in *. exact IH.
Qed.

(** X4: the line count of a text is the display line count of its
    normalized form, and normalizing first does not change it. *)
Theorem get_line_count_is_display_count (s : str) :
  get_line_count s = count_display_lines (normalize_code s)
  /\ get_line_count (normalize_code s) = get_line_count s.
Proof.
  split.
  - unfold get_line_count, count_display_lines.
    destruct (nonempty (normalize_code s)); cbn [negb]; [|reflexivity].
    rewrite length_split. lia.
  - unfold get_line_count.
    now rewrite (normalize_code_fixed (normalize_code s)
                   (normalize_code_no_CR s) (normalize_code_lines_trimmed s)
                   (normalize_code_stripped s)).
Qed.

(** X5: the line count is 0 exactly for the texts made of whitespace
    only, and at least 1 for every other text. *)
Theorem get_line_count_zero_iff_blank (s : str) :
  (get_line_count s = 0%Z <-> forallb isspace s = true)
  /\ (0 <= get_line_count s)%Z.
Proof.
  unfold get_line_count.
  destruct (normalize_code s) as [|c t] eqn:E; cbn [nonempty negb].
  - split; [|lia]. split; [intros _; now apply normalize_code_nil_iff|easy].
  - assert (H : forallb isspace s <> true).
    { intros H. apply normalize_code_nil_iff in H. congruence. }
    rewrite length_split. split; [|lia]. split; [lia | easy].
Qed.

(** X6: code made of whitespace only is formatted to the empty text,
    whatever the language, and its display line count is 0. *)
Theorem pretty_print_code_blank (code language : str) :
  forallb isspace code = true ->
  pretty_print_code code language = []
  /\ count_display_lines (pretty_print_code code language) = 0%Z.
Proof.
  intros H. apply normalize_code_nil_iff in H.
  unfold pretty_print_code. rewrite H. now split.
Qed.

Lemma pretty_print_code_blank_witness :
  pretty_print_code ([CR; NL; TAB] ++ py "  ") (py "C#") = [].
Proof.
  apply (proj1 (pretty_print_code_blank ([CR; NL; TAB] ++ py "  ") (py "C#")
                  eq_refl)).
Defined.

(** X7: when the extractor returns kind "code", the text it returns is
    not empty. *)
Theorem extract_code_not_empty
    (ET_fromstring : str -> option Element)
    (ET_tostring : Element -> option str) (code_text : str) :
  let r := extract_code_from_possible_stage_xml ET_fromstring ET_tostring
             code_text in
  snd r = py "code" -> fst r <> [].
Proof.
  cbv zeta. unfold extract_code_from_possible_stage_xml.
  destruct code_text as [|c s]; [discriminate|]. cbn [nonempty negb].
  destruct (looks_like_stage_xml (strip (c :: s))); [|discriminate].
  destruct (ET_fromstring (strip (c :: s))) as [stage|]; [|discriminate].
  destruct (first_code_text stage code_candidates) as [t|] eqn:E;
    [|discriminate].
  intros _. cbn [fst].
  assert (Ht : strip t <> []).
  { clear -E. induction code_candidates as [|tag tags IH]; [discriminate|].
    cbn [first_code_text] in E.
    destruct (find_descendant stage tag) as [n|]; [|now apply IH].
    destruct (elem_text n) as [t'|]; [|now apply IH].
    destruct (nonempty t' && nonempty (strip t')) eqn:B; [|now apply IH].
    injection E as <-. apply andb_prop in B. destruct B as [_ B].
    now destruct (strip t'). }
  intros H. apply normalize_code_nil_iff in H. apply strip_nil_iff in H.
  contradiction.
Qed.

Lemma extract_code_not_empty_witness :
  let parse := fun _ : str =>
    Some (Elem (py "stage") None None
            [Elem (py "script") (Some (py " x = 1 ")) None []]) in
  fst (extract_code_from_possible_stage_xml parse (fun _ => None)
         (py "<stage/>")) <> [].
Proof.
  cbv zeta.
  apply (extract_code_not_empty _ (fun _ => None) (py "<stage/>")).
  reflexivity.
Defined.

(** ** Language values *)

Lemma lower_char_idem (x : ascii) : lower_char (lower_char x) = lower_char x.
Proof. destruct x as [[] [] [] [] [] [] [] []]; reflexivity. Qed.

Lemma lower_idem (s : str) : lower (lower s) = lower s.
Proof.
  unfold lower. rewrite map_map. apply map_ext. intros x. apply lower_char_idem.
Qed.

(** X8: canonicalizing a language twice is canonicalizing it once, and
    the canonical value is never the empty string. *)
Theorem normalize_language_idempotent (language : str) :
  normalize_language (normalize_language language)
  = normalize_language language
  /\ normalize_language language <> [].
Proof.
  assert (H : normalize_language language = py "VB"
              \/ normalize_language language = py "C#"
              \/ normalize_language language = py "Unknown"
              \/ (normalize_language language = language
                  /\ language <> [])).
  { unfold normalize_language.
    destruct (str_in (lower (strip language)) _); [now left|].
    destruct (str_in (lower (strip language)) _); [now right; left|].
    destruct language as [|c l]; cbn [nonempty];
      [now right; right; left | right; right; right].
    split; [reflexivity | discriminate]. }
  destruct H as [H|[H|[H|[H Hne]]]]; rewrite H;
    try (split; [reflexivity | discriminate]).
  split; [exact H | exact Hne].
Qed.

(** X9: inference never gives the empty string: it gives the stripped
    hint when the hint is usable and one of "VB", "C#" and "Unknown"
    otherwise; without a usable hint the canonicalization that follows
    leaves the value as it is. *)
Theorem infer_language_range (language code : str) :
  let r := infer_language_from_code language code in
  r <> []
  /\ (r = strip language \/ r = py "VB" \/ r = py "C#" \/ r = py "Unknown")
  /\ (hint_absent language ->
      (r = py "VB" \/ r = py "C#" \/ r = py "Unknown")
      /\ normalize_language r = r).
Proof.
  cbv zeta.
  assert (Hcases : infer_language_from_code [] code = py "VB"
                   \/ infer_language_from_code [] code = py "C#"
                   \/ infer_language_from_code [] code = py "Unknown").
  { unfold infer_language_from_code. cbn [strip lstrip rstrip nonempty andb].
    destruct (re_search vb_signal_keyword (lower code)); [now left|].
    destruct (re_search vb_signal_if_then (lower code)); [now left|].
    destruct (re_search cs_signal_keyword (lower code)); [now right; left|].
    destruct (contains (py "{") code && contains (py "}") code
              && contains (py ";") code); [now right; left | now right; right]. }
  assert (Hnorm : forall r, r = py "VB" \/ r = py "C#" \/ r = py "Unknown" ->
                    r <> [] /\ normalize_language r = r).
  { intros r [-> | [-> | ->]]; split; try discriminate; reflexivity. }
  destruct (nonempty (strip language)
            && negb (str_eqb (lower (strip language)) (py "unknown"))) eqn:E.
  - rewrite (infer_language_with_hint _ _ E). split; [|split].
    + apply andb_prop in E. destruct E as [E _]. now destruct (strip language).
    + now left.
    + intros Hh. apply hint_absent_test in Hh. congruence.
  - rewrite (infer_language_without_hint _ _ E). split; [|split].
    + now apply Hnorm.
    + now right.
    + intros _. split; [exact Hcases | now apply Hnorm].
Qed.

Lemma infer_language_range_witness :
  hint_absent (py "  ")
  /\ normalize_language (infer_language_from_code (py "  ") (py "x { y; }"))
     = py "C#".
Proof.
  assert (Hh : hint_absent (py "  ")) by (left; reflexivity).
  split; [exact Hh|].
  pose proof (proj2 (proj2 (proj2 (infer_language_range (py "  ")
                                      (py "x { y; }"))) Hh)) as H.
  cbv zeta in H. rewrite H. reflexivity.
Defined.

(** ** The language tag of an export *)

Lemma detect_in_stripped (elem : Element) (tags : list str) (l : str) :
  detect_in elem tags = Some l -> strip l = l.
Proof.
  induction tags as [|t tags IH]; [discriminate|]. cbn [detect_in].
  destruct (find_descendant elem t) as [n|]; [|exact IH].
  destruct (elem_text n) as [txt|]; [|exact IH].
  destruct (nonempty txt); [|exact IH].
  intros [= <-]. apply strip_idem.
Qed.

Lemma detect_language_stripped (root stage : Element) :
  strip (detect_language root stage) = detect_language root stage.
Proof.
  unfold detect_language.
  destruct (detect_in stage language_tags) as [l|] eqn:E1;
    [now apply detect_in_stripped in E1|].
  destruct (detect_in root language_tags) as [l|] eqn:E2;
    [now apply detect_in_stripped in E2 | reflexivity].
Qed.

(** X10: a detected language has no whitespace at either end, and
    inference returns it unchanged, whatever the code, unless it is empty
    or "unknown" in some case. *)
Theorem detected_language_passes_inference (root stage : Element) (code : str) :
  let d := detect_language root stage in
  strip d = d
  /\ (d <> [] -> lower d <> py "unknown" ->
      infer_language_from_code d code = d).
Proof.
  cbv zeta. pose proof (detect_language_stripped root stage) as Hs.
  split; [exact Hs|]. intros Hne Hlow.
  rewrite infer_language_with_hint; [exact Hs|]. rewrite Hs.
  destruct (detect_language root stage) as [|c l]; [congruence|].
  cbn [nonempty andb]. destruct (str_eqb _ _) eqn:E; [|reflexivity].
  apply str_eqb_eq in E. contradiction.
Qed.

Lemma detected_language_passes_inference_witness :
  let stage := Elem (py "stage") None None
                 [Elem (py "lang") (Some (py " Visual Basic ")) None []] in
  let root := Elem (py "process") None None
                [Elem (py "language") (Some (py "C#")) None []; stage] in
  infer_language_from_code (detect_language root stage) (py "x { y; }")
  = py "Visual Basic".
Proof.
  cbv zeta.
  refine (eq_trans (proj2 (detected_language_passes_inference
                     (Elem (py "process") None None
                        [Elem (py "language") (Some (py "C#")) None [];
                         Elem (py "stage") None None
                           [Elem (py "lang") (Some (py " Visual Basic "))
                              None []]])
                     (Elem (py "stage") None None
                        [Elem (py "lang") (Some (py " Visual Basic "))
                           None []])
                     (py "x { y; }")) _ _) _).
  - discriminate.
  - discriminate.
  - reflexivity.
Defined.

(** ** What a match consumed *)

Lemma rmatch_RLit_inv (s : str) (k : mstate -> option mstate)
    (bef aft : str) (g : list (nat * str)) (res : mstate) :
  rmatch (RLit s) k (MState bef aft g) = Some res ->
  exists aft', aft = s ++ aft' /\ k (MState (rev s ++ bef) aft' g) = Some res.
Proof.
  revert bef aft. induction s as [|c s IH]; intros bef aft H.
  - now exists aft.
  - assert (Hc : forall k', rmatch (RChar (is_char c)) k' (MState bef aft g)
                   = Some res ->
                   exists aft', aft = c :: aft'
                                /\ k' (MState (c :: bef) aft' g) = Some res).
    { intros k' Hk. cbn [rmatch after before groups] in Hk.
      destruct aft as [|x aft]; [discriminate|]. unfold is_char in Hk.
      destruct (Ascii.eqb_spec x c) as [->|]; [|discriminate].
      now exists aft. }
    destruct s as [|c' s'].
    + destruct (Hc k H) as (aft' & -> & Hk). now exists aft'.
    + change (RLit (c :: c' :: s'))
        with (RSeq (RChar (is_char c)) (RLit (c' :: s'))) in H.
      cbn [rmatch] in H. destruct (Hc _ H) as (aft1 & -> & H1).
      destruct (IH _ _ H1) as (aft' & -> & H2). exists aft'.
      split; [reflexivity|].
      change (rev (c :: c' :: s')) with (rev (c' :: s') ++ [c]).
      now rewrite <- app_assoc.
Qed.

Lemma rep_inv (p : ascii -> bool) (lo : nat) (hi : option nat) (greedy : bool)
    (k : mstate -> option mstate) (g : list (nat * str))
    (aft : str) (n : nat) (bef : str) (res : mstate) :
  rep p lo hi greedy k g n bef aft = Some res ->
  exists taken aft',
    aft = taken ++ aft' /\ forallb p taken = true
    /\ lo <= n + length taken
    /\ (forall h, hi = Some h -> n + length taken <= Nat.max n h)
    /\ k (MState (rev taken ++ bef) aft' g) = Some res.
Proof.
  revert n bef. induction aft as [|c aft IH]; intros n bef H.
  - exists [], []. cbn [rep] in H.
    assert (Hk : lo <= n /\ k (MState bef [] g) = Some res).
    { destruct greedy, (lo <=? n) eqn:L; try discriminate;
        apply Nat.leb_le in L; split; try assumption.
      now destruct (k (MState bef [] g)). }
    destruct Hk as [L Hk]. repeat split; try assumption; simpl; lia.
  - assert (Hstop : lo <= n -> k (MState bef (c :: aft) g) = Some res ->
              exists taken aft',
                c :: aft = taken ++ aft' /\ forallb p taken = true
                /\ lo <= n + length taken
                /\ (forall h, hi = Some h -> n + length taken <= Nat.max n h)
                /\ k (MState (rev taken ++ bef) aft' g) = Some res).
    { intros L Hk. exists [], (c :: aft).
      repeat split; try assumption; simpl; lia. }
    assert (Hmore : p c && under hi n = true ->
              rep p lo hi greedy k g (S n) (c :: bef) aft = Some res ->
              exists taken aft',
                c :: aft = taken ++ aft' /\ forallb p taken = true
                /\ lo <= n + length taken
                /\ (forall h, hi = Some h -> n + length taken <= Nat.max n h)
                /\ k (MState (rev taken ++ bef) aft' g) = Some res).
    { intros Hp Hr. apply andb_prop in Hp. destruct Hp as [Hp Hu].
      destruct (IH _ _ Hr) as (taken & aft' & -> & Ht & Hlo & Hhi & Hk).
      exists (c :: taken), aft'. split; [reflexivity|].
      split; [simpl; now rewrite Hp|]. split; [simpl; lia|].
      split.
      - intros h Eh. specialize (Hhi h Eh). subst hi. simpl in Hu.
        apply Nat.ltb_lt in Hu. simpl. lia.
      - simpl. now rewrite <- app_assoc. }
    cbn [rep] in H. destruct greedy.
    + destruct (p c && under hi n) eqn:Hp.
      * destruct (rep p lo hi true k g (S n) (c :: bef) aft) as [st|] eqn:E.
        -- injection H as <-. now apply Hmore.
        -- destruct (lo <=? n) eqn:L; [|discriminate].
           apply Nat.leb_le in L. now apply Hstop.
      * destruct (lo <=? n) eqn:L; [|discriminate].
        apply Nat.leb_le in L. now apply Hstop.
    + destruct (lo <=? n) eqn:L.
      * destruct (k (MState bef (c :: aft) g)) as [st|] eqn:E.
        -- injection H as <-. apply Nat.leb_le in L. now apply Hstop.
        -- destruct (p c && under hi n) eqn:Hp; [|discriminate].
           now apply Hmore.
      * destruct (p c && under hi n) eqn:Hp; [|discriminate].
        now apply Hmore.
Qed.

Lemma In_findall_from (r : regex) (u : str) (aft bef : str) (skip : nat) :
  In u (findall_from r bef aft skip) ->
  exists pre post bef' st,
    aft = pre ++ post /\ match_here r bef' post = Some st
    /\ u = firstn (length post - length (after st)) post.
Proof.
  revert bef skip. induction aft as [|c aft IH]; intros bef skip H; [easy|].
  assert (Hrec : forall bef' skip', In u (findall_from r bef' aft skip') ->
            exists pre post bef'' st,
              c :: aft = pre ++ post /\ match_here r bef'' post = Some st
              /\ u = firstn (length post - length (after st)) post).
  { intros bef' skip' Hin.
    destruct (IH _ _ Hin) as (pre & post & b & st & -> & Hm & Hu).
    now exists (c :: pre), post, b, st. }
  cbn [findall_from] in H. destruct skip as [|j]; [|now apply Hrec in H].
  destruct (match_here r bef (c :: aft)) as [st|] eqn:M;
    [|now apply Hrec in H].
  destruct (length (c :: aft) - length (after st)) as [|j] eqn:L;
    [now apply Hrec in H|].
  destruct H as [<-|H]; [|now apply Hrec in H].
  exists [], (c :: aft), bef, st. split; [reflexivity|].
  split; [exact M|]. now rewrite L.
Qed.

(** ** The URLs of the findings *)

Lemma url_match_shape (bef post : str) (st : mstate) :
  match_here url_pattern bef post = Some st ->
  exists scheme rest,
    (scheme = py "http://" \/ scheme = py "https://")
    /\ rest <> [] /\ forallb is_url_char rest = true
    /\ post = scheme ++ rest ++ after st.
Proof.
  unfold match_here, url_pattern. cbn [RSeqs rmatch]. intros H.
  apply rmatch_RLit_inv in H. destruct H as (a1 & -> & H).
  unfold ROpt in H. cbn [rmatch before after groups] in H.
  apply rep_inv in H.
  destruct H as (t1 & a2 & -> & Ht1 & _ & Hhi & H).
  apply rmatch_RLit_inv in H. destruct H as (a3 & -> & H).
  unfold RPlus in H. cbn [rmatch before after groups] in H.
  apply rep_inv in H.
  destruct H as (t2 & a4 & -> & Ht2 & Hlo & _ & H).
  injection H as <-. cbn [after].
  specialize (Hhi 1 eq_refl). simpl in Hhi.
  assert (Ht2' : t2 <> []) by (intros ->; simpl in Hlo; lia).
  destruct t1 as [|x t1].
  - exists (py "http://"), t2. split; [now left|]. now repeat split.
  - destruct t1 as [|y t1]; [|simpl in Hhi; lia].
    simpl in Ht1. rewrite andb_true_r in Ht1. unfold is_char in Ht1.
    apply Ascii.eqb_eq in Ht1. subst x.
    exists (py "https://"), t2. split; [now right|]. now repeat split.
Qed.

Lemma firstn_matched (a b : str) :
  firstn (length (a ++ b) - length b) (a ++ b) = a.
Proof.
  rewrite length_app.
  replace (length a + length b - length b) with (length a) by lia.
  now rewrite firstn_app, Nat.sub_diag, firstn_all, app_nil_r.
Qed.

Lemma matched_url_shape (c u : str) :
  In u (re_findall url_pattern c) ->
  exists pre scheme rest post,
    c = pre ++ u ++ post /\ u = scheme ++ rest
    /\ (scheme = py "http://" \/ scheme = py "https://")
    /\ rest <> [] /\ forallb is_url_char rest = true.
Proof.
  intros H. apply In_findall_from in H.
  destruct H as (pre & post & bef & st & -> & Hm & Hu).
  destruct (url_match_shape _ _ _ Hm) as (scheme & rest & Hs & Hne & Hr & E).
  assert (Eu : u = scheme ++ rest).
  { rewrite Hu, E, app_assoc. apply firstn_matched. }
  exists pre, scheme, rest, (after st).
  split; [|now repeat split]. now rewrite Eu, <- app_assoc, <- E.
Qed.

Lemma In_urls_matched (code u : str) :
  In u (urls (simple_code_findings code)) ->
  In u (re_findall url_pattern code).
Proof.
  cbn [urls simple_code_findings]. intros H. apply In_firstn in H.
  destruct (sorted_set_spec (re_findall url_pattern code)) as (_ & _ & H3 & _).
  now apply H3.
Qed.

(** X11: every URL of the list begins with http:// or https://, goes on
    with at least one more character, holds no whitespace, quote or angle
    bracket, and occurs in the code as it is. *)
Theorem urls_are_well_formed (code u : str) :
  In u (urls (simple_code_findings code)) ->
  (exists rest, rest <> []
                /\ (u = py "http://" ++ rest \/ u = py "https://" ++ rest))
  /\ forallb is_url_char u = true
  /\ (exists pre post, code = pre ++ u ++ post).
Proof.
  intros H. apply In_urls_matched, matched_url_shape in H.
  destruct H as (pre & scheme & rest & post & Ec & Eu & Hs & Hne & Hr).
  split; [|split].
  - exists rest. split; [exact Hne|]. destruct Hs as [->| ->]; auto.
  - rewrite Eu, forallb_app, Hr. now destruct Hs as [->| ->].
  - now exists pre, post.
Qed.

Lemma urls_are_well_formed_witness :
  forallb is_url_char (py "https://a.b/c?d=1") = true.
Proof.
  apply (proj1 (proj2 (urls_are_well_formed
           (py "go to <https://a.b/c?d=1> now") (py "https://a.b/c?d=1")
           (or_introl eq_refl)))).
Defined.

Lemma startswith_lower (p s : str) :
  startswith p s = true -> startswith (lower p) (lower s) = true.
Proof.
  revert s. induction p as [|x p IH]; intros [|y s]; simpl; try easy.
  intros H. apply andb_prop in H. destruct H as [H1 H2].
  apply Ascii.eqb_eq in H1. subst y. now rewrite Ascii.eqb_refl, IH.
Qed.

Lemma startswith_app (p s : str) : startswith p (p ++ s) = true.
Proof. induction p as [|x p IH]; [reflexivity|]. simpl. now rewrite Ascii.eqb_refl. Qed.

Lemma contains_app_r (p pre s : str) :
  startswith p s = true -> contains p (pre ++ s) = true.
Proof.
  intros H. induction pre as [|x pre IH].
  - destruct s; simpl; now rewrite H.
  - cbn [app contains]. rewrite IH. apply orb_true_r.
Qed.

(** X12: whenever the urls list is not empty, the HTTP flag is set. *)
Theorem urls_imply_has_http (code : str) :
  urls (simple_code_findings code) <> [] ->
  has_http (simple_code_findings code) = true.
Proof.
  intros H. destruct (urls (simple_code_findings code)) as [|u us] eqn:E;
    [congruence|].
  assert (Hu : In u (urls (simple_code_findings code)))
    by (rewrite E; now left).
  apply In_urls_matched, matched_url_shape in Hu.
  destruct Hu as (pre & scheme & rest & post & Ec & Eu & Hs & _ & _).
  assert (Hc : contains scheme (lower code) = true).
  { rewrite Ec, Eu, !lower_app. apply contains_app_r.
    rewrite <- app_assoc.
    destruct Hs as [->| ->];
      [change (lower (py "http://")) with (py "http://")
      |change (lower (py "https://")) with (py "https://")];
      apply startswith_app. }
  cbn [has_http simple_code_findings existsb].
  destruct Hs as [->| ->]; rewrite Hc; [reflexivity | apply orb_true_r].
Qed.

Lemma urls_imply_has_http_witness :
  has_http (simple_code_findings (py "see https://a.b")) = true.
Proof.
  apply (urls_imply_has_http (py "see https://a.b")). discriminate.
Defined.

(** X13: the eight flags of the findings do not depend on the case of the
    code: the lower-cased code gives the same flags. *)
Theorem finding_flags_ignore_case (code : str) :
  let f := simple_code_findings code in
  let g := simple_code_findings (lower code) in
  has_sql_keywords g = has_sql_keywords f
  /\ has_http g = has_http f
  /\ has_file_io g = has_file_io f
  /\ has_crypto g = has_crypto f
  /\ has_reflection g = has_reflection f
  /\ has_process_start g = has_process_start f
  /\ has_hardcoded_credential_like g = has_hardcoded_credential_like f
  /\ mentions_blueprism_internal g = mentions_blueprism_internal f.
Proof.
  cbv zeta. unfold simple_code_findings.
  cbn [has_sql_keywords has_http has_file_io has_crypto has_reflection
       has_process_start has_hardcoded_credential_like
       mentions_blueprism_internal].
  rewrite lower_idem. repeat split.
Qed.

(** ** The keyword-block indentation counter *)

Lemma vb_indent_step_spec (indent : Z) (out : list str) (raw : str) :
  (0 <= indent)%Z ->
  exists indent' x,
    vb_indent_step (indent, out) raw = (indent', out ++ [x])
    /\ (0 <= indent')%Z /\ indented_line x.
Proof.
  intros Hi. unfold vb_indent_step.
  destruct (strip raw) as [|c r] eqn:E; cbn [nonempty negb].
  - eexists _, _. split; [reflexivity|]. split; [assumption | now left].
  - pose proof (strip_head _ _ _ E) as Hc.
    assert (Hx : forall i, (0 <= i)%Z ->
                   indented_line (str_mul (py "    ") i ++ c :: r)).
    { intros i Hi'. right. now exists i, c, r. }
    set (i1 := if starts_any vb_enders (lower (c :: r))
               then Z.max (indent - 1) 0 else indent).
    assert (H1 : (0 <= i1)%Z) by (unfold i1; destruct (starts_any _ _); lia).
    destruct (starts_any vb_miders (lower (c :: r))).
    + eexists _, _. split; [reflexivity|]. split; [lia | apply Hx; lia].
    + destruct (starts_any vb_starters (lower (c :: r)));
        [|eexists _, _; split; [reflexivity|]; split; [lia | now apply Hx]].
      destruct (startswith (py "if ") (lower (c :: r))
                && endswith (py "then") (lower (c :: r)));
        [eexists _, _; split; [reflexivity|]; split; [lia | now apply Hx]|].
      destruct (startswith (py "if ") (lower (c :: r))
                && contains (py " then ") (lower (c :: r))
                && negb (endswith (py "then") (lower (c :: r))));
        eexists _, _; (split; [reflexivity|]; split; [lia | now apply Hx]).
Qed.

Lemma vb_indent_loop_spec (lines : list str) (indent : Z) (out : list str) :
  (0 <= indent)%Z -> Forall indented_line out ->
  (0 <= fst (fold_left vb_indent_step lines (indent, out)))%Z
  /\ Forall indented_line (snd (fold_left vb_indent_step lines (indent, out)))
  /\ length (snd (fold_left vb_indent_step lines (indent, out)))
     = length out + length lines.
Proof.
  revert indent out.
  induction lines as [|raw lines IH]; intros indent out Hi Ho.
  - simpl. repeat split; auto.
  - cbn [fold_left].
    destruct (vb_indent_step_spec indent out raw Hi) as (i' & x & E & Hi' & Hx).
    rewrite E.
    destruct (IH i' (out ++ [x]) Hi') as (H1 & H2 & H3).
    + apply Forall_app. split; [assumption|].
      constructor; [exact Hx | constructor].
    + split; [exact H1|]. split; [exact H2|].
      rewrite H3, length_app. simpl. lia.
Qed.

(** X14: the indentation counter of the VB formatter is never negative;
    its loop writes exactly one line for each line it reads, and each is
    empty or is a non-negative number of indent units followed by text
    that starts with a character other than whitespace. *)
Theorem vb_indent_never_negative (lines : list str) :
  let r := fold_left vb_indent_step lines (0%Z, []) in
  (0 <= fst r)%Z /\ length (snd r) = length lines
  /\ Forall indented_line (snd r).
Proof.
  cbv zeta.
  destruct (vb_indent_loop_spec lines 0 [] (Z.le_refl 0) (Forall_nil _))
    as (H1 & H2 & H3).
  split; [exact H1|]. split; [exact H3 | exact H2].
Qed.

(** ** The statements of the VB splitter *)

Lemma append_part_ok (parts : list str) (cur : str) :
  Forall statement_ok parts -> Forall statement_ok (append_part parts cur).
Proof.
  intros Hp. unfold append_part.
  destruct (strip cur) as [|c r] eqn:E; [exact Hp|]. cbn [nonempty].
  apply Forall_app. split; [exact Hp|]. repeat constructor; [discriminate|].
  rewrite <- E. apply strip_idem.
Qed.

Lemma colons_loop_ok (n : nat) (rest : str) (parts : list str) (cur : str)
    (in_string skip_ws : bool) :
  length rest <= n -> Forall statement_ok parts ->
  Forall statement_ok (colons_loop rest parts cur in_string skip_ws).
Proof.
  revert rest parts cur in_string skip_ws.
  induction n as [|n IH]; intros rest parts cur ins skip Hlen Hp;
    (destruct rest as [|ch rest]; [now apply append_part_ok|]);
    [simpl in Hlen; lia|].
  simpl in Hlen. cbn [colons_loop].
  destruct (skip && isspace ch); [apply IH; auto; lia|].
  destruct (Ascii.eqb ch DQ).
  - destruct ins; [|apply IH; auto; lia].
    destruct rest as [|ch2 rest]; [apply IH; auto; simpl; lia|].
    destruct (Ascii.eqb ch2 DQ); apply IH; auto; simpl in *; lia.
  - destruct (Ascii.eqb ch ":" && negb ins); apply IH; auto; try lia.
    now apply append_part_ok.
Qed.

Lemma keyword_loop_ok (kws : list str) (low_rest : str)
    (parts : list str) (cur : str) :
  Forall statement_ok parts ->
  Forall statement_ok (fst (keyword_loop kws low_rest parts cur)).
Proof.
  intros Hp. induction kws as [|kw kws IH]; [exact Hp|].
  cbn [keyword_loop]. destruct (startswith kw low_rest && nonempty cur);
    [|exact IH].
  now apply append_part_ok.
Qed.

Lemma midline_loop_ok (n : nat) (rest : str) (parts : list str) (cur : str)
    (in_string : bool) :
  length rest <= n -> Forall statement_ok parts ->
  Forall statement_ok (midline_loop rest parts cur in_string).
Proof.
  revert rest parts cur in_string.
  induction n as [|n IH]; intros rest parts cur ins Hlen Hp;
    (destruct rest as [|ch rest]; [now apply append_part_ok|]);
    [simpl in Hlen; lia|].
  simpl in Hlen. cbn [midline_loop].
  destruct (Ascii.eqb ch DQ).
  - destruct ins; [|apply IH; auto; lia].
    destruct rest as [|ch2 rest]; [apply IH; auto; simpl; lia|].
    destruct (Ascii.eqb ch2 DQ); apply IH; auto; simpl in *; lia.
  - destruct (negb ins); [|apply IH; auto; lia].
    pose proof (keyword_loop_ok VB_STATEMENT_KEYWORDS (lower (ch :: rest))
                  parts cur Hp) as K.
    destruct (keyword_loop VB_STATEMENT_KEYWORDS (lower (ch :: rest))
                parts cur) as [parts' cur'].
    apply IH; auto. lia.
Qed.

(** X15: every statement that the colon split or the mid-line keyword
    split makes of a line is non-empty and has no whitespace at either
    end: empty segments are discarded. *)
Theorem vb_split_statements_trimmed (line : str) :
  Forall statement_ok (split_colons_outside_strings line)
  /\ Forall statement_ok (split_midline_vb_statements line).
Proof.
  split.
  - apply (colons_loop_ok (length line)); auto.
  - apply (midline_loop_ok (length line)); auto.
Qed.

Lemma colons_loop_no_colon (n : nat) (rest : str) (parts : list str)
    (cur : str) (in_string : bool) :
  length rest <= n -> ~ In ":"%char rest ->
  colons_loop rest parts cur in_string false
  = append_part parts (cur ++ rest).
Proof.
  revert rest parts cur in_string.
  induction n as [|n IH]; intros rest parts cur ins Hlen Hr;
    (destruct rest as [|ch rest]; [now rewrite app_nil_r|]);
    [simpl in Hlen; lia|].
  simpl in Hlen.
  assert (Hch : Ascii.eqb ch ":" = false).
  { apply Ascii.eqb_neq. intros ->. apply Hr. now left. }
  assert (Hr' : ~ In ":"%char rest) by (intros H; apply Hr; now right).
  assert (Hstep : colons_loop rest parts (cur ++ [ch]) (negb ins) false
                  = append_part parts (cur ++ ch :: rest)
                  /\ colons_loop rest parts (cur ++ [ch]) ins false
                     = append_part parts (cur ++ ch :: rest)).
  { split; (rewrite IH by (auto; lia)); now rewrite <- app_assoc. }
  cbn [colons_loop andb]. rewrite Hch. cbn [andb].
  destruct (Ascii.eqb_spec ch DQ) as [->|_]; [|apply Hstep].
  destruct ins; [|apply Hstep].
  destruct rest as [|ch2 rest]; [apply Hstep|].
  destruct (Ascii.eqb_spec ch2 DQ) as [->|_]; [|apply Hstep].
  rewrite IH; [now rewrite <- app_assoc | simpl in Hlen; lia |].
  intros H. apply Hr'. now right.
Qed.

Lemma colons_loop_in_string (s : str) (parts : list str) (cur : str) :
  ~ In DQ s ->
  colons_loop (s ++ [DQ]) parts cur true false
  = append_part parts (cur ++ s ++ [DQ]).
Proof.
  revert cur. induction s as [|ch s IH]; intros cur Hs.
  - cbn [app colons_loop andb]. rewrite Ascii.eqb_refl. reflexivity.
  - assert (Hch : Ascii.eqb ch DQ = false).
    { apply Ascii.eqb_neq. intros ->. apply Hs. now left. }
    cbn [app colons_loop andb]. rewrite Hch.
    cbn [negb andb]. rewrite andb_false_r.
    rewrite IH by (intros H; apply Hs; now right).
    now rewrite <- app_assoc.
Qed.

Lemma midline_loop_in_string (s : str) (parts : list str) (cur : str) :
  ~ In DQ s ->
  midline_loop (s ++ [DQ]) parts cur true
  = append_part parts (cur ++ s ++ [DQ]).
Proof.
  revert cur. induction s as [|ch s IH]; intros cur Hs.
  - cbn [app midline_loop]. rewrite Ascii.eqb_refl. reflexivity.
  - assert (Hch : Ascii.eqb ch DQ = false).
    { apply Ascii.eqb_neq. intros ->. apply Hs. now left. }
    cbn [app midline_loop]. rewrite Hch. cbn [negb].
    rewrite IH by (intros H; apply Hs; now right).
    now rewrite <- app_assoc.
Qed.

Lemma strip_quoted (s : str) : strip (DQ :: s ++ [DQ]) = DQ :: s ++ [DQ].
Proof.
  unfold strip. rewrite lstrip_nonspace by reflexivity.
  rewrite rstrip_nonspace_head by reflexivity. f_equal.
  induction s as [|c s IH]; [reflexivity|].
  cbn [app]. rewrite rstrip_cons, IH. now destruct s.
Qed.

(** X16: a line without a colon is one statement of the colon split, the
    line stripped (none when it is blank); and a string literal is one
    statement of the colon split and of the mid-line keyword split,
    whatever colons or keywords it holds. *)
Theorem vb_split_keeps_unsplittable (line s : str) :
  (~ In ":"%char line ->
   split_colons_outside_strings line
   = if nonempty (strip line) then [strip line] else [])
  /\ (~ In DQ s ->
      split_colons_outside_strings (DQ :: s ++ [DQ]) = [DQ :: s ++ [DQ]]
      /\ split_midline_vb_statements (DQ :: s ++ [DQ]) = [DQ :: s ++ [DQ]]).
Proof.
  split.
  - intros H. unfold split_colons_outside_strings.
    now rewrite (colons_loop_no_colon (length line)).
  - intros H. unfold split_colons_outside_strings, split_midline_vb_statements.
    cbn [colons_loop midline_loop andb]. rewrite Ascii.eqb_refl.
    rewrite colons_loop_in_string, midline_loop_in_string by assumption.
    unfold append_part. cbn [app]. rewrite strip_quoted. now split.
Qed.

Lemma vb_split_keeps_unsplittable_witness :
  split_colons_outside_strings (py " x = 1 ") = [py "x = 1"]
  /\ split_midline_vb_statements (DQ :: py "a: if b then return" ++ [DQ])
     = [DQ :: py "a: if b then return" ++ [DQ]].
Proof.
  split.
  - apply (proj1 (vb_split_keeps_unsplittable (py " x = 1 ") [])).
    simpl. intuition discriminate.
  - apply (proj2 (vb_split_keeps_unsplittable []
                    (py "a: if b then return"))).
    simpl. intuition discriminate.
Defined.

(** X17: the text the VB splitter returns has no whitespace at either
    end and no two consecutive blank lines. *)
Theorem split_vb_one_liners_no_blank_runs (code : str) :
  strip (split_vb_one_liners code) = split_vb_one_liners code
  /\ lines_ok (split NL (split_vb_one_liners code)) false = true.
Proof.
  split; [apply split_vb_one_liners_stripped|].
  apply ws_runs_stripped_lines;
    [apply split_vb_one_liners_stripped | apply split_vb_one_liners_ws_runs].
Qed.

(** ** Runs of newlines *)

Lemma nl_runs_ok_mono (s : str) (n n' : nat) :
  n' <= n -> nl_runs_ok s n = true -> nl_runs_ok s n' = true.
Proof.
  revert n n'. induction s as [|c s IH]; intros n n' L H; [reflexivity|].
  simpl in *. destruct (Ascii.eqb c NL); [|exact H].
  apply andb_prop in H. destruct H as [H1 H2].
  apply Nat.ltb_lt in H1. apply andb_true_intro. split.
  - apply Nat.ltb_lt. lia.
  - apply (IH (n + 1)); [lia | assumption].
Qed.

Lemma nl_runs_ok_squeeze (s : str) (n : nat) :
  n <= 2 -> nl_runs_ok (squeeze s n) n = true.
Proof.
  revert n. induction s as [|c s IH]; intros n L; [reflexivity|].
  cbn [squeeze]. destruct (Ascii.eqb c NL) eqn:Ec.
  - destruct (n <? 2) eqn:E.
    + apply Nat.ltb_lt in E. cbn [nl_runs_ok]. rewrite Ascii.eqb_refl.
      apply andb_true_intro. split; [apply Nat.ltb_lt; lia|].
      replace (n + 1) with (S n) by lia. apply IH. lia.
    + now apply IH.
  - cbn [nl_runs_ok]. rewrite Ec.
    apply (nl_runs_ok_mono _ 0 0); [lia | apply IH; lia].
Qed.

Lemma nl_runs_ok_lstrip (s : str) :
  nl_runs_ok s 0 = true -> nl_runs_ok (lstrip s) 0 = true.
Proof.
  induction s as [|c s IH]; intros H; [reflexivity|].
  simpl lstrip. destruct (isspace c); [|exact H].
  apply IH. simpl in H. destruct (Ascii.eqb c NL); [|exact H].
  apply (nl_runs_ok_mono s 1); [lia | exact H].
Qed.

Lemma nl_runs_ok_rstrip (s : str) (n : nat) :
  nl_runs_ok s n = true -> nl_runs_ok (rstrip s) n = true.
Proof.
  revert n. induction s as [|c s IH]; intros n H; [reflexivity|].
  rewrite rstrip_cons.
  destruct (nonempty (rstrip s) || negb (isspace c)); [|reflexivity].
  simpl in *. destruct (Ascii.eqb c NL); [|now apply IH].
  apply andb_prop in H. destruct H as [H1 H2]. rewrite H1. now apply IH.
Qed.

Lemma nl_runs_ok_triple (a b : str) (n : nat) :
  nl_runs_ok (a ++ [NL; NL; NL] ++ b) n = false.
Proof.
  revert n. induction a as [|c a IH]; intros n.
  - cbn [app nl_runs_ok]. rewrite Ascii.eqb_refl.
    destruct (n + 1 <? 3) eqn:E1; [|reflexivity].
    destruct (n + 1 + 1 <? 3) eqn:E2; [|reflexivity].
    destruct (n + 1 + 1 + 1 <? 3) eqn:E3; [|reflexivity].
    apply Nat.ltb_lt in E3. lia.
  - cbn [app nl_runs_ok]. destruct (Ascii.eqb c NL); [|apply IH].
    rewrite IH. apply andb_false_r.
Qed.

Lemma squeezed_stripped_no_triple (s : str) :
  no_triple_NL (strip (squeeze s 0)).
Proof.
  intros a b E.
  assert (H : nl_runs_ok (strip (squeeze s 0)) 0 = true).
  { apply nl_runs_ok_rstrip, nl_runs_ok_lstrip, nl_runs_ok_squeeze. lia. }
  rewrite E, nl_runs_ok_triple in H. discriminate.
Qed.

(** X18: the text either splitter returns has no whitespace at either
    end and never holds three consecutive newlines. *)
Theorem splitters_collapse_newlines (code : str) :
  (strip (split_csharp_one_liners code) = split_csharp_one_liners code
   /\ no_triple_NL (split_csharp_one_liners code))
  /\ (strip (split_vb_one_liners code) = split_vb_one_liners code
      /\ no_triple_NL (split_vb_one_liners code)).
Proof.
  assert (Hnil : no_triple_NL []).
  { intros a b E. destruct a; discriminate. }
  split.
  - unfold split_csharp_one_liners. destruct code as [|c0 code];
      [now split|]. cbv zeta.
    destruct (fold_left cs_split_step _ _) as [f out].
    rewrite re_sub_nl3. split; [apply strip_idem|].
    apply squeezed_stripped_no_triple.
  - unfold split_vb_one_liners. destruct code as [|c0 code]; [now split|].
    cbv zeta. rewrite re_sub_nl3. split; [apply strip_idem|].
    apply squeezed_stripped_no_triple.
Qed.

(** ** The blank-run collapse is idempotent *)

Lemma nw_loop_forall (Q : str -> Prop) (lines : list str) (b : nat)
    (acc : list str) :
  Q [] -> (forall ln, In ln lines -> Q (rstrip ln)) -> Forall Q acc ->
  Forall Q (snd (fold_left nw_step lines (b, acc))).
Proof.
  intros Hnil. revert b acc.
  induction lines as [|ln lines IH]; intros b acc Hl Hacc; [exact Hacc|].
  cbn [fold_left]. unfold nw_step at 2.
  destruct (str_eqb (strip ln) []).
  - destruct (b + 1 <=? 1); apply IH; auto.
    + intros l Hin. apply Hl. now right.
    + apply Forall_app. split; [assumption | now repeat constructor].
    + intros l Hin. apply Hl. now right.
  - apply IH.
    + intros l Hin. apply Hl. now right.
    + apply Forall_app. split; [assumption|]. repeat constructor.
      apply Hl. now left.
Qed.

Lemma nw_loop_fixed (lines : list str) (b : nat) (acc : list str) :
  Forall (fun l => rstrip l = l) lines -> no_adjacent_empty lines ->
  (0 < b -> hd [NL] lines <> []) ->
  snd (fold_left nw_step lines (b, acc)) = acc ++ lines.
Proof.
  revert b acc. induction lines as [|ln lines IH]; intros b acc Hl Hn Hb.
  - simpl. now rewrite app_nil_r.
  - inversion Hl as [|? ? Hln Hl']; subst. cbn [fold_left].
    unfold nw_step at 2. destruct (str_eqb (strip ln) []) eqn:E.
    + apply str_eqb_eq in E. apply strip_nil_iff, rstrip_nil_iff in E.
      rewrite Hln in E. subst ln.
      assert (b = 0).
      { destruct b; [reflexivity|]. exfalso. apply Hb; [lia | reflexivity]. }
      subst b. cbn [Nat.add Nat.leb].
      rewrite IH; [now rewrite <- app_assoc | assumption
                  | now apply nae_tail in Hn |].
      intros _ Hh. destruct Hn as [Hn _]. destruct lines as [|l2 lines];
        [discriminate|]. simpl in Hh. now apply Hn.
    + rewrite Hln. rewrite IH; [now rewrite <- app_assoc | assumption
                               | now apply nae_tail in Hn | lia].
Qed.

Lemma normalize_whitespace_fixed (s : str) :
  ~ In TAB s -> lines_trimmed s -> no_adjacent_empty (split NL s) ->
  strip s = s -> normalize_whitespace s = s.
Proof.
  intros Ht Hl Hn Hs. unfold normalize_whitespace.
  unfold replace. rewrite (replace_from_absent TAB [] (py "    ") s Ht).
  pose proof (nw_loop_fixed (split NL s) 0 [] Hl Hn
                (fun L => ltac:(lia))) as H.
  destruct (fold_left nw_step (split NL s) (0, [])) as [b out].
  cbn [snd app] in H. subst out. now rewrite join_split.
Qed.

Lemma no_TAB_expand_tabs (s : str) : ~ In TAB (flat_map expand_tab s).
Proof.
  induction s as [|c s IH]; [easy|]. cbn [flat_map]. intros H.
  apply in_app_or in H. destruct H as [H|H]; [|contradiction].
  unfold expand_tab in H. destruct (Ascii.eqb_spec TAB c) as [<-|Hc].
  - simpl in H. intuition discriminate.
  - destruct H as [H|[]]. now apply Hc.
Qed.

Lemma In_expand_tabs (x : ascii) (s : str) :
  In x (flat_map expand_tab s) -> In x s \/ x = " "%char.
Proof.
  induction s as [|c s IH]; [easy|]. cbn [flat_map]. intros H.
  apply in_app_or in H. destruct H as [H|H].
  - unfold expand_tab in H. destruct (Ascii.eqb TAB c).
    + right. simpl in H. intuition.
    + destruct H as [<-|[]]. left. now left.
  - destruct (IH H) as [H'|H']; [left; now right | now right].
Qed.

Lemma In_normalize_whitespace (x : ascii) (s : str) :
  In x (normalize_whitespace s) -> x = NL \/ In x (flat_map expand_tab s).
Proof.
  unfold normalize_whitespace. rewrite replace_tabs.
  pose proof (nw_loop_forall
                (fun l => forall y, In y l -> In y (flat_map expand_tab s))
                (split NL (flat_map expand_tab s)) 0 []) as H.
  destruct (fold_left nw_step _ (0, [])) as [b out]. cbn [snd] in H.
  intros Hx. apply In_strip, In_join in Hx.
  destruct Hx as [->|(l & Hl & Hx)]; [now left|]. right.
  assert (HF : Forall (fun l => forall y, In y l -> In y (flat_map expand_tab s))
                 out).
  { apply H; [easy | | constructor].
    intros ln Hln y Hy. apply In_rstrip in Hy. eapply In_split; eassumption. }
  rewrite Forall_forall in HF. now apply (HF l).
Qed.

Lemma normalize_whitespace_form (s : str) :
  ~ In TAB (normalize_whitespace s)
  /\ lines_trimmed (normalize_whitespace s).
Proof.
  split.
  - intros H. apply In_normalize_whitespace in H.
    destruct H as [H|H]; [discriminate | now apply no_TAB_expand_tabs in H].
  - unfold normalize_whitespace.
    set (lines := split NL (replace [TAB] (py "    ") s)).
    pose proof (nw_loop_forall (fun l => rstrip l = l) lines 0 [] eq_refl
                  (fun ln _ => rstrip_idem ln) (Forall_nil _)) as H1.
    pose proof (nw_loop_lines lines 0 [] (split_no_sep NL _) (Forall_nil _) I
                  (fun _ => or_introl eq_refl)) as [H2 _].
    destruct (fold_left nw_step lines (0, [])) as [b out]. cbn [snd] in *.
    apply lines_trimmed_strip. unfold lines_trimmed.
    destruct out as [|l out]; [repeat constructor|].
    rewrite split_join; [exact H1 | discriminate | exact H2].
Qed.

(** X19: collapsing blank runs is idempotent: on its own output
    [normalize_whitespace] changes nothing. *)
Theorem normalize_whitespace_idempotent (code : str) :
  normalize_whitespace (normalize_whitespace code)
  = normalize_whitespace code.
Proof.
  destruct (normalize_whitespace_form code) as [H1 H2].
  destruct (normalize_whitespace_lines code) as [H3 H4].
  now apply normalize_whitespace_fixed.
Qed.

(** X20: for a language that is neither "C#" nor "VB" after
    canonicalization, formatting is idempotent. *)
Theorem pretty_print_code_idempotent_unknown (code language : str) :
  str_eqb (normalize_language language) (py "C#") = false ->
  str_eqb (normalize_language language) (py "VB") = false ->
  pretty_print_code (pretty_print_code code language) language
  = pretty_print_code code language.
Proof.
  intros Hc Hv.
  assert (Hpp : forall c, pretty_print_code c language
                = if nonempty (normalize_code c)
                  then normalize_whitespace (normalize_code c) else []).
  { intros c. unfold pretty_print_code.
    destruct (nonempty (normalize_code c)); cbn [negb]; [|reflexivity].
    now rewrite Hc, Hv. }
  rewrite (Hpp code).
  destruct (nonempty (normalize_code code)) eqn:E.
  - set (x := normalize_code code).
    destruct (normalize_whitespace_form x) as [H1 H2].
    destruct (normalize_whitespace_lines x) as [H3 H4].
    assert (Hfix : normalize_code (normalize_whitespace x)
                   = normalize_whitespace x).
    { apply normalize_code_fixed; try assumption.
      intros H. apply In_normalize_whitespace in H.
      destruct H as [H|H]; [discriminate|].
      apply In_expand_tabs in H. destruct H as [H|H]; [|discriminate].
      now apply normalize_code_no_CR in H. }
    rewrite Hpp, Hfix.
    destruct (nonempty (normalize_whitespace x)) eqn:E2.
    + now apply normalize_whitespace_fixed.
    + now destruct (normalize_whitespace x).
  - rewrite Hpp. reflexivity.
Qed.

Lemma pretty_print_code_idempotent_unknown_witness :
  pretty_print_code
    (pretty_print_code ([TAB] ++ py "a  " ++ [NL; NL; NL] ++ py "b") (py "js"))
    (py "js")
  = py "a" ++ [NL; NL] ++ py "b".
Proof.
  rewrite (pretty_print_code_idempotent_unknown
             ([TAB] ++ py "a  " ++ [NL; NL; NL] ++ py "b") (py "js")
             eq_refl eq_refl).
  reflexivity.
Defined.

(** ** The preview of a code stage *)

Lemma replace_NL_space (s : str) :
  length (replace [NL] (py " ") s) = length s
  /\ ~ In NL (replace [NL] (py " ") s).
Proof.
  rewrite replace_single. induction s as [|c s [IH1 IH2]]; [now split|].
  cbn [flat_map]. rewrite length_app. split.
  - rewrite IH1. now destruct (Ascii.eqb NL c).
  - intros H. apply in_app_or in H. destruct H as [H|H]; [|contradiction].
    destruct (Ascii.eqb_spec NL c) as [<-|Hc].
    + simpl in H. intuition discriminate.
    + destruct H as [H|[]]. now apply Hc.
Qed.

(** X21: the preview of a code stage holds no newline and at most 303
    characters; for pretty code of more than 300 characters it is the
    first 300, each newline turned into a space, followed by three dots;
    otherwise it is the whole pretty code with each newline turned into
    a space. *)
Theorem code_preview_bounded (pretty : str) :
  ~ In NL (code_preview pretty)
  /\ length (code_preview pretty) <= 303
  /\ (length pretty <= 300 ->
      code_preview pretty = replace [NL] (py " ") pretty
      /\ length (code_preview pretty) = length pretty)
  /\ (300 < length pretty ->
      code_preview pretty
      = replace [NL] (py " ") (firstn 300 pretty) ++ py "..."
      /\ length (code_preview pretty) = 303).
Proof.
  unfold code_preview.
  destruct (replace_NL_space (firstn 300 pretty)) as [H1 H2].
  pose proof (firstn_le_length 300 pretty) as H3.
  split; [|split; [|split]].
  - intros H. apply in_app_or in H. destruct H as [H|H]; [contradiction|].
    destruct (300 <? length pretty); simpl in H; intuition discriminate.
  - rewrite length_app, H1. destruct (300 <? length pretty);
      [change (length (py "...")) with 3 | change (@length ascii []) with 0];
      lia.
  - intros L. assert (E : (300 <? length pretty) = false)
      by (apply Nat.ltb_ge; lia).
    rewrite E, app_nil_r, firstn_all2 by assumption.
    split; [reflexivity | apply replace_NL_space].
  - intros L. assert (E : (300 <? length pretty) = true)
      by (apply Nat.ltb_lt; lia).
    rewrite E. split; [reflexivity|].
    rewrite length_app, H1, length_firstn.
    change (length (py "...")) with 3. lia.
Qed.

Lemma code_preview_bounded_witness :
  code_preview (py "a" ++ [NL] ++ py "b") = py "a b".
Proof.
  rewrite (proj1 (proj1 (proj2 (proj2 (code_preview_bounded
             (py "a" ++ [NL] ++ py "b")))) ltac:(apply Nat.leb_le; reflexivity))).
  reflexivity.
Defined.

(** ** Indentation of an export *)

Lemma allws_repeat_indent (level : nat) :
  forallb isspace (repeat_str (py "  ") level) = true.
Proof. induction level as [|n IH]; [reflexivity | exact IH]. Qed.

Lemma blank_opt_allws (s : str) :
  forallb isspace s = true -> blank_opt (Some s) = true.
Proof.
  intros H. apply strip_nil_iff in H. unfold blank_opt. rewrite H.
  apply orb_true_r.
Qed.

Lemma blank_indent (level : nat) :
  blank_opt (Some (NL :: repeat_str (py "  ") level)) = true
  /\ blank_opt (Some ((NL :: repeat_str (py "  ") level) ++ py "  ")) = true.
Proof.
  split; apply blank_opt_allws.
  - cbn [forallb]. now rewrite allws_repeat_indent.
  - rewrite forallb_app. cbn [forallb]. now rewrite allws_repeat_indent.
Qed.

Lemma indent_xml_root (e : Element) (level : nat) :
  content (indent_xml e level) = content e
  /\ length (elem_children (indent_xml e level)) = length (elem_children e).
Proof.
  destruct (blank_indent level) as [B1 B2].
  destruct e as [tg text tail cs]. destruct cs as [|c cs].
  - cbn [indent_xml content elem_children]. split; [|reflexivity].
    destruct (negb (level =? 0) && blank_opt tail) eqn:E; [|reflexivity].
    apply andb_prop in E. destruct E as [_ E]. now rewrite B1, E.
  - cbn [indent_xml content elem_children]. split.
    + destruct (blank_opt text) eqn:Et, (blank_opt tail) eqn:El;
        rewrite ?B1, ?B2, ?Et, ?El; reflexivity.
    + now rewrite length_map.
Qed.

Lemma flat_map_of_map {A B C : Type} (f : B -> list C) (g : A -> B)
    (l : list A) :
  flat_map f (map g l) = flat_map (fun x => f (g x)) l.
Proof.
  induction l as [|x l IH]; [reflexivity|]. cbn [map flat_map].
  now rewrite IH.
Qed.

Lemma map_of_flat_map {A B C : Type} (f : B -> C) (g : A -> list B)
    (l : list A) :
  map f (flat_map g l) = flat_map (fun x => map f (g x)) l.
Proof.
  induction l as [|x l IH]; [reflexivity|]. cbn [flat_map].
  now rewrite map_app, IH.
Qed.

Lemma flat_map_pointwise {A B : Type} (f g : A -> list B) (l : list A) :
  Forall (fun x => f x = g x) l -> flat_map f l = flat_map g l.
Proof.
  induction 1 as [|x l Hx _ IH]; [reflexivity|]. cbn [flat_map].
  now rewrite Hx, IH.
Qed.

(** X22: indenting an export changes blank text and tails only: the
    elements in document order keep their tags, their non-blank text and
    tails, and their numbers of children. *)
Theorem indent_xml_keeps_content (elem : Element) (level : nat) :
  map content (iter (indent_xml elem level)) = map content (iter elem)
  /\ shape (indent_xml elem level) = shape elem.
Proof.
  revert level. induction elem as [tg text tail cs IH]
    using Element_rect_nested. intros level.
  assert (K1 : flat_map (fun c => map content (iter (indent_xml c (S level))))
                 cs
               = flat_map (fun c => map content (iter c)) cs).
  { apply flat_map_pointwise. apply Forall_impl with (2 := IH).
    intros c Hc. apply Hc. }
  assert (K2 : flat_map (fun c => shape (indent_xml c (S level))) cs
               = flat_map shape cs).
  { apply flat_map_pointwise. apply Forall_impl with (2 := IH).
    intros c Hc. apply Hc. }
  pose proof (indent_xml_root (Elem tg text tail cs) level) as [Hc _].
  destruct cs as [|c cs].
  - split; [|reflexivity]. cbn [indent_xml iter flat_map map] in *.
    now rewrite Hc.
  - split.
    + cbn [indent_xml] in *. set (l := c :: cs) in *.
      cbn [iter map]. f_equal; [exact Hc|].
      rewrite !map_of_flat_map, flat_map_of_map. exact K1.
    + cbn [indent_xml]. set (l := c :: cs) in *. cbn [shape].
      rewrite length_map. f_equal.
      rewrite flat_map_of_map. exact K2.
Qed.

(** ** The first candidate tag of a stage *)

(** X23: for candidates that are plain tag names, what
    [extract_first_text] returns is empty or the text of an element below
    the stage that bears one of the candidate tags; with no such element
    below the stage it is empty; and it is not empty when such an element
    exists and every such element has a text that is not empty. *)
Theorem extract_first_text_origin (stage : Element) (tag_candidates : list str) :
  Forall plain_tag tag_candidates ->
  (extract_first_text stage tag_candidates = []
   \/ exists node,
        In node (flat_map iter (elem_children stage))
        /\ In (elem_tag node) tag_candidates
        /\ elem_text node = Some (extract_first_text stage tag_candidates))
  /\ ((forall node, In node (flat_map iter (elem_children stage)) ->
         ~ In (elem_tag node) tag_candidates) ->
      extract_first_text stage tag_candidates = [])
  /\ ((exists node, In node (flat_map iter (elem_children stage))
                    /\ In (elem_tag node) tag_candidates) ->
      (forall node, In node (flat_map iter (elem_children stage)) ->
         In (elem_tag node) tag_candidates ->
         exists txt, elem_text node = Some txt /\ txt <> []) ->
      extract_first_text stage tag_candidates <> []).
Proof.
  intros _. split; [|split].
  - induction tag_candidates as [|t rest IH]; [now left|].
    cbn [extract_first_text].
    assert (Hrest : extract_first_text stage rest = []
                    \/ exists node,
                         In node (flat_map iter (elem_children stage))
                         /\ In (elem_tag node) (t :: rest)
                         /\ elem_text node
                            = Some (extract_first_text stage rest)).
    { destruct IH as [IH|(n & H1 & H2 & H3)]; [now left | right].
      exists n. split; [assumption | split; [now right | assumption]]. }
    destruct (find_descendant stage t) as [node|] eqn:E; [|exact Hrest].
    destruct (elem_text node) as [txt|] eqn:Et; [|exact Hrest].
    right. exists node. unfold find_descendant in E.
    apply find_some in E. destruct E as [E1 E2].
    apply str_eqb_eq in E2. split; [assumption | split; [now left | assumption]].
  - intros Hno. induction tag_candidates as [|t rest IH]; [reflexivity|].
    cbn [extract_first_text].
    destruct (find_descendant stage t) as [node|] eqn:E.
    + unfold find_descendant in E. apply find_some in E.
      destruct E as [E1 E2]. apply str_eqb_eq in E2.
      exfalso. apply (Hno node E1). now left.
    + apply IH. intros node Hn Hin. apply (Hno node Hn). now right.
  - intros (n & Hn & Ht) Hall.
    induction tag_candidates as [|t rest IH]; [destruct Ht|].
    cbn [extract_first_text].
    destruct (find_descendant stage t) as [node|] eqn:E.
    + unfold find_descendant in E. apply find_some in E.
      destruct E as [E1 E2]. apply str_eqb_eq in E2.
      destruct (Hall node E1 (or_introl (eq_sym E2))) as (txt & -> & Hne).
      exact Hne.
    + unfold find_descendant in E.
      pose proof (find_none _ _ E n Hn) as Hf. cbv beta in Hf.
      destruct Ht as [Ht|Ht].
      * rewrite Ht in Hf.
        rewrite (proj2 (str_eqb_eq (elem_tag n) (elem_tag n)) eq_refl) in Hf.
        discriminate.
      * apply IH; [exact Ht|].
        intros node Hnode Hin. apply (Hall node Hnode). now right.
Qed.

Lemma extract_first_text_origin_witness :
  Forall plain_tag code_tag_candidates
  /\ extract_first_text
       (Elem (py "stage") None None [Elem (py "name") (Some (py "x")) None []])
       code_tag_candidates = []
  /\ extract_first_text
       (Elem (py "stage") None None
          [Elem (py "name") (Some (py "x")) None [];
           Elem (py "inputs") None None
             [Elem (py "text") (Some (py "Dim a")) None []]])
       code_tag_candidates <> [].
Proof.
  assert (Hp : Forall plain_tag code_tag_candidates).
  { repeat constructor; discriminate. }
  split; [exact Hp | split].
  - apply (proj1 (proj2 (extract_first_text_origin
                    (Elem (py "stage") None None
                       [Elem (py "name") (Some (py "x")) None []])
                    code_tag_candidates Hp))).
    intros node [<-|[]] H. vm_compute in H.
    repeat (destruct H as [H|H]; [discriminate|]). exact H.
  - apply (proj2 (proj2 (extract_first_text_origin
                    (Elem (py "stage") None None
                       [Elem (py "name") (Some (py "x")) None [];
                        Elem (py "inputs") None None
                          [Elem (py "text") (Some (py "Dim a")) None []]])
                    code_tag_candidates Hp))).
    + exists (Elem (py "text") (Some (py "Dim a")) None []).
      split; [vm_compute; auto | vm_compute; auto 10].
    + intros node Hn Ht. vm_compute in Hn.
      destruct Hn as [<-|[<-|[<-|[]]]]; vm_compute in Ht;
        try (exfalso; repeat (destruct Ht as [Ht|Ht]; [discriminate|]);
             exact Ht).
      exists (py "Dim a"). split; [reflexivity | discriminate].
Defined.

(** ** Spaces outside string literals *)

Lemma code_chars_app (a b : str) :
  code_chars (a ++ b) = code_chars a ++ code_chars b.
Proof. apply filter_app. Qed.

Lemma code_chars_cons (c : ascii) (s : str) :
  code_chars (c :: s) = code_chars [c] ++ code_chars s.
Proof. apply (code_chars_app [c] s). Qed.

Lemma code_chars_rstrip (s : str) : code_chars (rstrip s) = code_chars s.
Proof.
  induction s as [|c s IH]; [reflexivity|]. rewrite rstrip_cons.
  rewrite (code_chars_cons c s), <- IH.
  destruct (nonempty (rstrip s) || negb (isspace c)) eqn:E;
    [apply code_chars_cons|].
  apply orb_false_elim in E. destruct E as [E1 E2].
  destruct (rstrip s); [|discriminate].
  unfold code_chars. cbn [filter]. now rewrite E2.
Qed.

Lemma collapse_step_code_chars (st : collapse_state) (ch : ascii) :
  code_chars (c_out (collapse_step st ch))
  = code_chars (c_out st) ++ code_chars [ch].
Proof.
  unfold collapse_step. destruct (in_str st).
  - cbv zeta. destruct (esc st); [|destruct (Ascii.eqb ch BSL);
      [|destruct (Ascii.eqb ch DQ)]]; apply code_chars_app.
  - destruct (Ascii.eqb ch DQ); [apply code_chars_app|].
    destruct (isspace ch) eqn:E; [|apply code_chars_app].
    cbn [c_out]. unfold code_chars at 3. cbn [filter]. rewrite E.
    cbn [negb]. destruct (prev_space st).
    + now rewrite app_nil_r.
    + rewrite code_chars_app. reflexivity.
Qed.

Lemma collapse_loop_code_chars (line : str) (st : collapse_state) :
  code_chars (c_out (fold_left collapse_step line st))
  = code_chars (c_out st) ++ code_chars line.
Proof.
  revert st. induction line as [|ch line IH]; intros st.
  - simpl. now rewrite app_nil_r.
  - cbn [fold_left]. rewrite IH, collapse_step_code_chars, <- app_assoc.
    now rewrite <- code_chars_app.
Qed.

(** X24: collapsing spaces neither drops nor changes nor reorders a
    character that is not whitespace, and leaves no whitespace at the
    end of the line. *)
Theorem collapse_keeps_code_characters (line : str) :
  code_chars (collapse_spaces_outside_strings line) = code_chars line
  /\ rstrip (collapse_spaces_outside_strings line)
     = collapse_spaces_outside_strings line.
Proof.
  unfold collapse_spaces_outside_strings. split; [|apply rstrip_idem].
  now rewrite code_chars_rstrip, collapse_loop_code_chars.
Qed.

Lemma single_spaced_rstrip (s : str) (p : bool) :
  single_spaced s p = true -> single_spaced (rstrip s) p = true.
Proof.
  revert p. induction s as [|c s IH]; intros p H; [reflexivity|].
  rewrite rstrip_cons.
  destruct (nonempty (rstrip s) || negb (isspace c)); [|reflexivity].
  cbn [single_spaced] in *. destruct (isspace c); [|now apply IH].
  apply andb_prop in H. destruct H as [H1 H2]. rewrite H1. now apply IH.
Qed.

Lemma collapse_loop_single_spaced (line : str) (st : collapse_state) :
  ~ In DQ line -> in_str st = false ->
  (forall x, single_spaced x (prev_space st) = true ->
             single_spaced (c_out st ++ x) false = true) ->
  single_spaced (c_out (fold_left collapse_step line st)) false = true.
Proof.
  revert st. induction line as [|ch line IH]; intros st Hq Hs Hinv.
  - simpl. rewrite <- (app_nil_r (c_out st)). now apply Hinv.
  - cbn [fold_left].
    assert (Hch : Ascii.eqb ch DQ = false).
    { apply Ascii.eqb_neq. intros ->. apply Hq. now left. }
    assert (Hq' : ~ In DQ line) by (intros H; apply Hq; now right).
    unfold collapse_step. rewrite Hs, Hch.
    destruct (isspace ch) eqn:Ec.
    + apply IH; [assumption | reflexivity|]. cbn [c_out prev_space].
      intros x Hx. destruct (prev_space st) eqn:Ep.
      * now apply Hinv.
      * rewrite <- app_assoc. apply Hinv. exact Hx.
    + apply IH; [assumption | reflexivity|]. cbn [c_out prev_space].
      intros x Hx. rewrite <- app_assoc. apply Hinv.
      cbn [app single_spaced]. now rewrite Ec.
Qed.

(** X25: on a line without a double quote, every whitespace character
    left by the collapse is a single space between two other
    characters or at the start of the line. *)
Theorem collapse_single_spaces (line : str) :
  ~ In DQ line ->
  single_spaced (collapse_spaces_outside_strings line) false = true.
Proof.
  intros Hq. unfold collapse_spaces_outside_strings.
  apply single_spaced_rstrip, collapse_loop_single_spaced;
    [assumption | reflexivity|].
  intros x Hx. exact Hx.
Qed.

Lemma collapse_single_spaces_witness :
  single_spaced
    (collapse_spaces_outside_strings (py "a   b " ++ [TAB] ++ py " c  "))
    false = true
  /\ collapse_spaces_outside_strings (py "a   b " ++ [TAB] ++ py " c  ")
     = py "a b c".
Proof.
  split; [|reflexivity].
  apply (collapse_single_spaces (py "a   b " ++ [TAB] ++ py " c  ")).
  intros H. repeat (destruct H as [H|H]; [discriminate|]). exact H.
Defined.

Lemma collapse_loop_in_literal (s : str) (out : str) (p : bool) :
  ~ In DQ s -> ~ In BSL s ->
  fold_left collapse_step s (CollapseState out true false p)
  = CollapseState (out ++ s) true false p.
Proof.
  revert out. induction s as [|ch s IH]; intros out Hq Hb.
  - simpl. now rewrite app_nil_r.
  - cbn [fold_left]. unfold collapse_step at 2. cbn [in_str esc c_out prev_space].
    assert (E1 : Ascii.eqb ch BSL = false).
    { apply Ascii.eqb_neq. intros ->. apply Hb. now left. }
    assert (E2 : Ascii.eqb ch DQ = false).
    { apply Ascii.eqb_neq. intros ->. apply Hq. now left. }
    rewrite E1, E2, IH.
    + now rewrite <- app_assoc.
    + intros H. apply Hq. now right.
    + intros H. apply Hb. now right.
Qed.

Lemma fold_left_snoc {A B : Type} (f : A -> B -> A) (l : list B) (x : B)
    (a : A) :
  fold_left f (l ++ [x]) a = f (fold_left f l a) x.
Proof. now rewrite fold_left_app. Qed.

Lemma collapse_loop_outside (line : str) (st : collapse_state) :
  ~ In DQ line -> in_str st = false -> esc st = false ->
  in_str (fold_left collapse_step line st) = false
  /\ esc (fold_left collapse_step line st) = false.
Proof.
  revert st. induction line as [|ch line IH]; intros st Hq Hin He;
    [now split|].
  assert (E : Ascii.eqb ch DQ = false).
  { apply Ascii.eqb_neq. intros ->. apply Hq. now left. }
  cbn [fold_left]. apply IH.
  - intros H. apply Hq. now right.
  - unfold collapse_step. rewrite Hin, E. now destruct (isspace ch).
  - unfold collapse_step. rewrite Hin, E. now destruct (isspace ch).
Qed.

(** X26: a string literal without a backslash is kept as it is, spaces
    included, whatever code without a double quote stands before
    it. *)
Theorem collapse_keeps_string_literal (before s : str) :
  ~ In DQ before -> ~ In DQ s -> ~ In BSL s ->
  exists before',
    collapse_spaces_outside_strings (before ++ DQ :: s ++ [DQ])
    = before' ++ DQ :: s ++ [DQ]
    /\ code_chars before' = code_chars before.
Proof.
  intros Hb Hq Hs. unfold collapse_spaces_outside_strings.
  rewrite fold_left_app.
  set (st := fold_left collapse_step before (CollapseState [] false false false)).
  destruct (collapse_loop_outside before (CollapseState [] false false false)
              Hb eq_refl eq_refl) as [Hst He].
  fold st in Hst, He.
  exists (c_out st). split.
  - cbn [fold_left]. unfold collapse_step at 2. rewrite Hst, He, Ascii.eqb_refl.
    rewrite fold_left_snoc, collapse_loop_in_literal by assumption.
    unfold collapse_step. cbn [in_str esc c_out]. rewrite Ascii.eqb_refl.
    change (Ascii.eqb DQ BSL) with false. cbn [c_out].
    rewrite <- !app_assoc. cbn [app].
    generalize (c_out st). intros o. induction o as [|c o IH].
    + cbn [app]. rewrite rstrip_nonspace_head by reflexivity. f_equal.
      clear. induction s as [|c s IH]; [reflexivity|].
      cbn [app]. rewrite rstrip_cons, IH. now destruct s.
    + cbn [app]. rewrite rstrip_cons, IH. cbn [app].
      destruct o; reflexivity.
  - subst st. now rewrite collapse_loop_code_chars.
Qed.

Lemma collapse_keeps_string_literal_witness :
  exists before',
    collapse_spaces_outside_strings (py "x  = " ++ DQ :: py "a  b" ++ [DQ])
    = before' ++ DQ :: py "a  b" ++ [DQ]
    /\ code_chars before' = code_chars (py "x  = ").
Proof.
  apply (collapse_keeps_string_literal (py "x  = ") (py "a  b"));
    intros H; repeat (destruct H as [H|H]; [discriminate|]); exact H.
Defined.
